(** * Virtual memory manager: segmentation over demand paging

    A shallow embedding of [virtual_memory_manager.cpp] (class
    [VirtualMemoryManager]) and the proofs of its translation, fault
    handling and replacement-policy properties.

    Conventions of the embedding.
    - [size_t] is a natural number [N] below [2^64]; every arithmetic
      operation of the source is followed by [size_wrap].
    - [int] is an integer [Z] in the 32-bit signed range;
      [static_cast<int>] is [to_int], the implicit conversion of an [int]
      used as a vector index is [to_size_t].
    - [std::vector] is a list; [operator[]] outside the vector, [front()]
      or [back()] of an empty container, erasing through an iterator that
      designates no node, and division by zero are undefined behaviour:
      the operation yields [None].
    - [std::list<size_t>] is a list of nodes; a node carries an identity
      (what an iterator designates) and a value.  [lruMap] stores node
      identities.
    - What a display function sends to [std::cout] is a list of lines, one
      constructor per format string; [render] gives their text.
    - An extraction [std::cin >> x] is given by its outcome: the value
      read, or [None] when the extraction failed. *)

From stdpp Require Import base numbers option list sorting gmap strings pretty.

Local Open Scope N_scope.

(** ** Machine integers *)

Definition size_wrap (n : N) : N := n mod 2 ^ 64.

(** [static_cast<int>(n)] for a [size_t] n. *)
Definition to_int (n : N) : Z :=
  let z := (Z.of_N n mod 2 ^ 32)%Z in
  if (z <? 2 ^ 31)%Z then z else (z - 2 ^ 32)%Z.

(** Conversion of an [int] to [size_t] (vector index, [static_cast<size_t>]). *)
Definition to_size_t (z : Z) : N := Z.to_N (z mod 2 ^ 64).

(** ** Vectors *)

Definition vec_get {A} (v : list A) (i : N) : option A :=
  if i <? N.of_nat (length v) then v !! N.to_nat i else None.

Definition vec_set {A} (v : list A) (i : N) (x : A) : option (list A) :=
  if i <? N.of_nat (length v) then Some (<[N.to_nat i := x]> v) else None.

(** ** Data model *)

Record Segment := mkSegment {
  name : string;
  base : N;
  limit : N
}.

Record PageTableEntry := mkPTE {
  frameNumber : Z;
  valid : bool
}.

(** [PageTableEntry()] *)
Definition emptyPTE : PageTableEntry := mkPTE (-1) false.

Inductive ReplacementPolicy := FIFO | LRU.

Definition node := nat.

Record VirtualMemoryManager := mkVMM {
  pageSize : N;
  numFrames : N;
  numPages : N;
  segments : list Segment;
  pageTable : list PageTableEntry;
  frameTable : list Z;
  policy : ReplacementPolicy;
  fifoQueue : list N;            (* front of the queue first *)
  lruList : list (node * N);     (* most recently used first *)
  lruMap : gmap N node;          (* page number -> node of lruList *)
  nextNode : node;               (* identity of the next node allocated *)
  pageFaults : N;
  accesses : N
}.

Definition set_pageTable (s : VirtualMemoryManager) (pt : list PageTableEntry) :=
  mkVMM (pageSize s) (numFrames s) (numPages s) (segments s) pt (frameTable s)
        (policy s) (fifoQueue s) (lruList s) (lruMap s) (nextNode s)
        (pageFaults s) (accesses s).

Definition set_frameTable (s : VirtualMemoryManager) (ft : list Z) :=
  mkVMM (pageSize s) (numFrames s) (numPages s) (segments s) (pageTable s) ft
        (policy s) (fifoQueue s) (lruList s) (lruMap s) (nextNode s)
        (pageFaults s) (accesses s).

Definition set_fifoQueue (s : VirtualMemoryManager) (q : list N) :=
  mkVMM (pageSize s) (numFrames s) (numPages s) (segments s) (pageTable s)
        (frameTable s) (policy s) q (lruList s) (lruMap s) (nextNode s)
        (pageFaults s) (accesses s).

Definition set_lru (s : VirtualMemoryManager) (l : list (node * N))
    (m : gmap N node) (nx : node) :=
  mkVMM (pageSize s) (numFrames s) (numPages s) (segments s) (pageTable s)
        (frameTable s) (policy s) (fifoQueue s) l m nx
        (pageFaults s) (accesses s).

Definition set_pageFaults (s : VirtualMemoryManager) (n : N) :=
  mkVMM (pageSize s) (numFrames s) (numPages s) (segments s) (pageTable s)
        (frameTable s) (policy s) (fifoQueue s) (lruList s) (lruMap s)
        (nextNode s) n (accesses s).

Definition set_accesses (s : VirtualMemoryManager) (n : N) :=
  mkVMM (pageSize s) (numFrames s) (numPages s) (segments s) (pageTable s)
        (frameTable s) (policy s) (fifoQueue s) (lruList s) (lruMap s)
        (nextNode s) (pageFaults s) n.

(** ** Constructor *)

(** The segments built by the loop of the constructor, [i] being the index
    of the first name of [names]. *)
Fixpoint make_segments (i : N) (segSize : N) (names : list string) : list Segment :=
  match names with
  | [] => []
  | n :: rest =>
      mkSegment n (size_wrap (i * segSize)) segSize
        :: make_segments (size_wrap (i + 1)) segSize rest
  end.

(** How a construction ends. *)
Inductive construction :=
  | Undefined                        (* a division by zero *)
  | Throws                           (* [std::length_error] or [std::bad_alloc] *)
  | Built (E : VirtualMemoryManager).

(** [VirtualMemoryManager(memSize, pageSz, segNames, pol)], lines 64-76, in
    the order of the source: the division by [pageSize] (line 66), the two
    tables (lines 68-69), the division by the number of names (line 72),
    the segments (lines 73-75).  [capacity] is the largest number of
    elements the allocator grants to each of the two tables, [max_size()]
    at most: beyond it [resize] and [assign] throw [std::length_error] or
    [std::bad_alloc].  The vector of segments is as long as the caller's
    vector of names; its allocation is taken to succeed.  The constructor
    makes no check of its arguments. *)
Definition construct_within (capacity : N) (memSize pageSz : N)
    (segNames : list string) (pol : ReplacementPolicy) : construction :=
  if pageSz =? 0 then Undefined else
  let nFrames := memSize / pageSz in
  let nPages := memSize / pageSz in
  if (capacity <? nPages) || (capacity <? nFrames) then Throws else
  let nSegments := N.of_nat (length segNames) in
  if nSegments =? 0 then Undefined else
  let segSize := memSize / nSegments in
  Built (mkVMM pageSz nFrames nPages
           (make_segments 0 segSize segNames)
           (replicate (N.to_nat nPages) emptyPTE)
           (replicate (N.to_nat nFrames) (-1)%Z)
           pol [] [] ∅ 0%nat 0 0).

(** The manager the constructor leaves when the allocator grants its two
    tables ([memSize / pageSz] elements each); [None] is then a division by
    zero. *)
Definition construct (memSize pageSz : N) (segNames : list string)
    (pol : ReplacementPolicy) : option VirtualMemoryManager :=
  match construct_within (memSize / pageSz) memSize pageSz segNames pol with
  | Built E => Some E
  | _ => None
  end.

(** ** LRU bookkeeping *)

(** [lruList.erase(it)] for an iterator designating node [nd]. *)
Fixpoint erase_node (nd : node) (l : list (node * N)) : option (list (node * N)) :=
  match l with
  | [] => None
  | (n, v) :: rest =>
      if decide (n = nd) then Some rest
      else cons (n, v) <$> erase_node nd rest
  end.

(** [lruList.push_front(pageNum); lruMap[pageNum] = lruList.begin();], the
    body of [addLRU] (lines 184-187) and the tail of [updateLRU]. *)
Definition push_front_lru (s : VirtualMemoryManager) (l : list (node * N))
    (m : gmap N node) (pageNum : N) : VirtualMemoryManager :=
  set_lru s ((nextNode s, pageNum) :: l) (<[pageNum := nextNode s]> m)
          (S (nextNode s)).

Definition addLRU (s : VirtualMemoryManager) (pageNum : N) : VirtualMemoryManager :=
  push_front_lru s (lruList s) (lruMap s) pageNum.

(** [updateLRU], lines 192-199. *)
Definition updateLRU (s : VirtualMemoryManager) (pageNum : N)
    : option VirtualMemoryManager :=
  match lruMap s !! pageNum with
  | None => Some s
  | Some nd =>
      l ← erase_node nd (lruList s);
      Some (push_front_lru s l (lruMap s) pageNum)
  end.

(** ** Page fault handler *)

(** The scan of [handlePageFault] (lines 152-157): index of the first frame
    holding [-1], [i] being the index of the head of [ft]. *)
Fixpoint find_free (ft : list Z) (i : N) : option N :=
  match ft with
  | [] => None
  | x :: rest => if (x =? -1)%Z then Some i else find_free rest (N.succ i)
  end.

(** The body shared by the two eviction branches (lines 161-163 and
    168-170) once the victim is known:
    [freeFrame = pageTable[victimPage].frameNumber;
     pageTable[victimPage].valid = false; frameTable[freeFrame] = -1;] *)
Definition evict (s : VirtualMemoryManager) (victimPage : N)
    : option (VirtualMemoryManager * Z) :=
  e ← vec_get (pageTable s) victimPage;
  let freeFrame := frameNumber e in
  pt ← vec_set (pageTable s) victimPage (mkPTE (frameNumber e) false);
  ft ← vec_set (frameTable s) (to_size_t freeFrame) (-1)%Z;
  Some (set_frameTable (set_pageTable s pt) ft, freeFrame).

(** The victim of the active policy, removed from its tracker (lines 160
    and 165-167):
    [fifoQueue.front(); fifoQueue.pop();] or
    [lruList.back(); lruList.pop_back(); lruMap.erase(victimPage);] *)
Definition pop_victim (s : VirtualMemoryManager)
    : option (VirtualMemoryManager * N) :=
  match policy s with
  | FIFO =>
      victimPage ← head (fifoQueue s);
      Some (set_fifoQueue s (tail (fifoQueue s)), victimPage)
  | LRU =>
      '(_, victimPage) ← last (lruList s);
      Some (set_lru s (removelast (lruList s))
              (delete victimPage (lruMap s)) (nextNode s), victimPage)
  end.

(** The scan for a free frame and, when [freeFrame == -1] after it, the
    eviction of the victim chosen by the policy.  Yields the state after
    the eviction and [freeFrame]. *)
Definition select_frame (s : VirtualMemoryManager)
    : option (VirtualMemoryManager * Z) :=
  let freeFrame :=
    match find_free (frameTable s) 0 with
    | Some i => to_int i
    | None => (-1)%Z
    end in
  if (freeFrame =? -1)%Z then
    '(s0, victimPage) ← pop_victim s;
    evict s0 victimPage
  else Some (s, freeFrame).

(** "Load page into frame" (lines 173-178): the page-table entry, the
    frame-table entry and the tracker of the active policy. *)
Definition load_page (s : VirtualMemoryManager) (freeFrame : Z) (pageNum : N)
    : option VirtualMemoryManager :=
  pt ← vec_set (pageTable s) pageNum (mkPTE freeFrame true);
  ft ← vec_set (frameTable s) (to_size_t freeFrame) (to_int pageNum);
  let s2 := set_frameTable (set_pageTable s pt) ft in
  Some (match policy s2 with
        | FIFO => set_fifoQueue s2 (fifoQueue s2 ++ [pageNum])
        | LRU => addLRU s2 pageNum
        end).

(** [handlePageFault], lines 150-179. *)
Definition handlePageFault (s : VirtualMemoryManager) (pageNum : N)
    : option VirtualMemoryManager :=
  '(s1, freeFrame) ← select_frame s;
  load_page s1 freeFrame pageNum.

(** ** Address translation *)

(** What [accessAddress] prints for a translated request; the page number
    is printed with the fault message only. *)
Record translation := mkTranslation {
  t_fault : bool;        (* "Page fault occurred!" was printed *)
  t_page : N;
  t_logicalAddr : N;
  t_physicalAddr : N;
  t_frameNum : Z;
  t_pageOffset : N
}.

Inductive report :=
  | InvalidSegment                  (* "Invalid segment index!" *)
  | OffsetOutOfBounds               (* "Offset out of bounds!" *)
  | Translated (t : translation).

(** [accessAddress], lines 120-144.  The result is the state after the call
    and what was printed. *)
Definition accessAddress (s : VirtualMemoryManager) (segIdx offset : N)
    : option (VirtualMemoryManager * report) :=
  if N.of_nat (length (segments s)) <=? segIdx then Some (s, InvalidSegment) else
  seg ← vec_get (segments s) segIdx;
  if limit seg <=? offset then Some (s, OffsetOutOfBounds) else
  let logicalAddr := size_wrap (base seg + offset) in
  if pageSize s =? 0 then None else
  let pageNum := logicalAddr / pageSize s in
  let pageOffset := logicalAddr mod pageSize s in
  let s1 := set_accesses s (size_wrap (accesses s + 1)) in
  e ← vec_get (pageTable s1) pageNum;
  '(s2, faulted) ←
    (if valid e then Some (s1, false)
     else s' ← handlePageFault
                 (set_pageFaults s1 (size_wrap (pageFaults s1 + 1))) pageNum;
          Some (s', true));
  s3 ← (match policy s2 with
        | LRU => updateLRU s2 pageNum
        | FIFO => Some s2
        end);
  e' ← vec_get (pageTable s3) pageNum;
  let frameNum := frameNumber e' in
  let physicalAddr := size_wrap (to_size_t frameNum * pageSize s + pageOffset) in
  Some (s3, Translated (mkTranslation faulted pageNum logicalAddr physicalAddr
                          frameNum pageOffset)).

(** ** Requests, runs and reachable states *)

(** Logical address and page number of a request that passes both checks of
    [accessAddress]; [None] for a request that is rejected. *)
Definition target (s : VirtualMemoryManager) (segIdx offset : N) : option (N * N) :=
  seg ← vec_get (segments s) segIdx;
  if limit seg <=? offset then None
  else let la := size_wrap (base seg + offset) in Some (la, la / pageSize s).

Definition accepted (s : VirtualMemoryManager) (segIdx offset : N) : Prop :=
  is_Some (target s segIdx offset).

(** A page is resident when its page-table entry has the valid bit set. *)
Definition resident (s : VirtualMemoryManager) (p : N) : Prop :=
  ∃ e, vec_get (pageTable s) p = Some e ∧ valid e = true.

(** One event per translated request: the page and whether it faulted. *)
Definition event : Type := N * bool.

Definition events (r : report) : list event :=
  match r with
  | Translated t => [(t_page t, t_fault t)]
  | _ => []
  end.

(** [run s log reqs] performs the requests in order; the log is kept most
    recent event first. *)
Fixpoint run (s : VirtualMemoryManager) (log : list event) (reqs : list (N * N))
    : option (VirtualMemoryManager * list event) :=
  match reqs with
  | [] => Some (s, log)
  | (segIdx, offset) :: rest =>
      '(s', r) ← accessAddress s segIdx offset;
      run s' (events r ++ log) rest
  end.

Definition reachable (s0 s : VirtualMemoryManager) : Prop :=
  ∃ reqs log, run s0 [] reqs = Some (s, log).

(** The container consulted by the active policy, eviction end last for LRU
    and first for FIFO. *)
Definition tracker (s : VirtualMemoryManager) : list N :=
  match policy s with
  | FIFO => fifoQueue s
  | LRU => (lruList s).*2
  end.

Definition count_resident (s : VirtualMemoryManager) : nat :=
  length (filter (λ e, valid e = true) (pageTable s)).

Definition count_occupied (s : VirtualMemoryManager) : nat :=
  length (filter (λ z, z ≠ (-1)%Z) (frameTable s)).

Definition count_free (s : VirtualMemoryManager) : nat :=
  length (filter (λ z, z = (-1)%Z) (frameTable s)).

(** A manager in which nothing has been loaded yet.  The tables may have
    any sizes: the handler never compares them. *)
Definition fresh (s : VirtualMemoryManager) : Prop :=
  Forall (λ e, valid e = false) (pageTable s) ∧
  Forall (λ z, z = (-1)%Z) (frameTable s) ∧
  fifoQueue s = [] ∧ lruList s = [] ∧ lruMap s = ∅.

(** ** History of a run

    The time of an event is the number of events before it. *)

(** Time of the last fault that loaded page [p]. *)
Fixpoint last_load (log : list event) (p : N) : option nat :=
  match log with
  | [] => None
  | (q, faulted) :: older =>
      if (q =? p) && faulted then Some (length older) else last_load older p
  end.

(** Time of the last access (hit or fault) to page [p]. *)
Fixpoint last_access (log : list event) (p : N) : option nat :=
  match log with
  | [] => None
  | (q, _) :: older =>
      if q =? p then Some (length older) else last_access older p
  end.

(** [a] has a time, [b] has a time, and that of [a] is the smaller. *)
Definition earlier (time : N → option nat) (a b : N) : Prop :=
  ∃ ta tb, time a = Some ta ∧ time b = Some tb ∧ (ta < tb)%nat.

Definition loaded_before (log : list event) : N → N → Prop :=
  earlier (last_load log).

Definition accessed_before (log : list event) : N → N → Prop :=
  earlier (last_access log).

(** The time the active policy orders pages by. *)
Definition policy_time (pol : ReplacementPolicy) (log : list event)
    : N → option nat :=
  match pol with
  | FIFO => last_load log
  | LRU => last_access log
  end.

(** The pages of the active tracker, next victim first. *)
Definition eviction_order (s : VirtualMemoryManager) : list N :=
  match policy s with
  | FIFO => fifoQueue s
  | LRU => reverse (lruList s).*2
  end.

(** A list of pages in increasing order of their times. *)
Definition ordered_by (time : N → option nat) (o : list N) : Prop :=
  StronglySorted (earlier time) o ∧ Forall (λ q, is_Some (time q)) o.

(** What one translated request does to the eviction order: [p] is the page
    of the request, the boolean tells a fault, the option is the victim. *)
Inductive order_step (pol : ReplacementPolicy) (p : N)
    : bool → option N → list N → list N → Prop :=
  | step_hit_fifo o :
      pol = FIFO → order_step pol p false None o o
  | step_hit_lru o1 o2 :
      pol = LRU → order_step pol p false None (o1 ++ p :: o2) (o1 ++ o2 ++ [p])
  | step_load o :
      order_step pol p true None o (o ++ [p])
  | step_evict v o :
      order_step pol p true (Some v) (v :: o) (o ++ [p]).

(** ** Invariants *)

(** The LRU list and its index agree, and node identities are not reused. *)
Definition lru_ok (s : VirtualMemoryManager) : Prop :=
  policy s = LRU →
  NoDup (lruList s).*1 ∧
  (∀ nd, nd ∈ (lruList s).*1 → (nd < nextNode s)%nat) ∧
  (∀ p nd, lruMap s !! p = Some nd ↔ (nd, p) ∈ lruList s).

(** The active tracker lists exactly the resident pages, once each. *)
Definition tracker_ok (s : VirtualMemoryManager) : Prop :=
  NoDup (tracker s) ∧
  (∀ p, p ∈ tracker s ↔ resident s p) ∧
  length (tracker s) = count_resident s ∧
  lru_ok s.

(** Page table and frame table are inverse to each other; both fit [int]. *)
Definition frames_ok (s : VirtualMemoryManager) : Prop :=
  (Z.of_nat (length (frameTable s)) ≤ 2 ^ 31)%Z ∧
  (Z.of_nat (length (pageTable s)) ≤ 2 ^ 31)%Z ∧
  (∀ (p : nat) e, pageTable s !! p = Some e → valid e = true →
     ∃ f : nat, frameNumber e = Z.of_nat f ∧
                frameTable s !! f = Some (Z.of_nat p)) ∧
  (∀ (f : nat) z, frameTable s !! f = Some z → z ≠ (-1)%Z →
     ∃ (p : nat) e, z = Z.of_nat p ∧ pageTable s !! p = Some e ∧
                    valid e = true ∧ frameNumber e = Z.of_nat f) ∧
  count_resident s = count_occupied s.

(** Every stored frame number is an [int]; that of a resident page
    designates a frame. *)
Definition frame_range (s : VirtualMemoryManager) : Prop :=
  (Z.of_nat (length (frameTable s)) ≤ 2 ^ 64 - 2 ^ 31)%Z ∧
  ∀ (p : nat) e, pageTable s !! p = Some e →
    (- 2 ^ 31 ≤ frameNumber e < 2 ^ 31)%Z ∧
    (valid e = true →
     (0 ≤ frameNumber e < Z.of_nat (length (frameTable s)))%Z).

(** In a frame table longer than [int] can index, frame [2^31] stays free. *)
Definition spare_frame (s : VirtualMemoryManager) : Prop :=
  ∀ k : nat, Z.of_nat k = (2 ^ 31)%Z → (k < length (frameTable s))%nat →
    frameTable s !! k = Some (-1)%Z.

(** What a call never changes. *)
Definition same_config (s s' : VirtualMemoryManager) : Prop :=
  pageSize s' = pageSize s ∧ numFrames s' = numFrames s ∧
  numPages s' = numPages s ∧ segments s' = segments s ∧
  policy s' = policy s ∧
  length (pageTable s') = length (pageTable s) ∧
  length (frameTable s') = length (frameTable s).

(** The eviction order lists the resident pages by increasing time of the
    active policy. *)
Definition history_ok (s : VirtualMemoryManager) (log : list event) : Prop :=
  tracker_ok s ∧
  ordered_by (policy_time (policy s) log) (eviction_order s).

(** A manager with three pages and two frames, nothing loaded: the smallest
    one in which a fault can find every frame occupied.  (The constructor
    always makes as many frames as pages.) *)
Definition three_pages_two_frames (pol : ReplacementPolicy) : VirtualMemoryManager :=
  mkVMM 1 2 3 [mkSegment "all" 0 3]
        (replicate 3 emptyPTE) (replicate 2 (-1)%Z)
        pol [] [] ∅ 0%nat 0 0.

(** The manager that [construct n 1 ["all"] pol] builds: [n] pages of one
    byte, as many frames, one segment over the whole memory. *)
Definition flat_manager (n : N) (pol : ReplacementPolicy) : VirtualMemoryManager :=
  mkVMM 1 n n [mkSegment "all" 0 n]
        (replicate (N.to_nat n) emptyPTE) (replicate (N.to_nat n) (-1)%Z)
        pol [] [] ∅ 0%nat 0 0.

(** The requests for the bytes [0], [1], ..., [k - 1] of segment 0. *)
Definition sweep (k : nat) : list (N * N) :=
  (λ i : nat, (0, N.of_nat i)) <$> seq 0 k.

(** A state of [flat_manager n FIFO] in which exactly the frames below [k]
    are occupied and no page from [k] on is resident. *)
Definition swept (n : N) (k : nat) (s : VirtualMemoryManager) : Prop :=
  same_config (flat_manager n FIFO) s ∧
  (∀ j : nat, (j < k)%nat → ∃ z, frameTable s !! j = Some z ∧ z ≠ (-1)%Z) ∧
  (∀ j : nat, (k ≤ j)%nat → (j < N.to_nat n)%nat →
     frameTable s !! j = Some (-1)%Z) ∧
  (∀ (p : nat) e, (k ≤ p)%nat → pageTable s !! p = Some e → valid e = false).

(** The manager of the specification's scenario, as [construct 1024 256]
    builds it for two segment names: four pages and four frames of 256
    bytes under two segments of 512 bytes. *)
Definition scenario_manager (pol : ReplacementPolicy) : VirtualMemoryManager :=
  mkVMM 256 4 4 [mkSegment "code" 0 512; mkSegment "data" 512 512]
        (replicate 4 emptyPTE) (replicate 4 (-1)%Z)
        pol [] [] ∅ 0%nat 0 0.

(** ** Display functions

    What [showSegments], [showPageTable] and [showFrames] write, one
    constructor per format of the source; [render] gives the text. *)

Inductive line :=
  | SegmentsTitle                                (* "\nSegments:\n" *)
  | SegmentLine (i : N) (nm : string) (b l : N)  (* "i: nm: Base = b, Limit = l\n" *)
  | PageTableTitle                               (* "\nPage Table (Page -> Frame):\n" *)
  | PageMapped (i : N) (frame : Z)               (* "Page i -> Frame frame\n" *)
  | PageAbsent (i : N)                           (* "Page i -> Not in memory\n" *)
  | FramesTitle                                  (* "\nFrames (Frame -> Page):\n" *)
  | FrameHolds (i : N) (page : Z)                (* "Frame i -> Page page\n" *)
  | FrameEmpty (i : N).                          (* "Frame i -> Empty\n" *)

(** ['\n'] *)
Definition nl : string :=
  String (Ascii.Ascii false true false true false false false false) EmptyString.

Definition render (l : line) : string :=
  match l with
  | SegmentsTitle => nl +:+ "Segments:" +:+ nl
  | SegmentLine i nm b l =>
      pretty i +:+ ": " +:+ nm +:+ ": Base = " +:+ pretty b
        +:+ ", Limit = " +:+ pretty l +:+ nl
  | PageTableTitle => nl +:+ "Page Table (Page -> Frame):" +:+ nl
  | PageMapped i frame => "Page " +:+ pretty i +:+ " -> Frame " +:+ pretty frame +:+ nl
  | PageAbsent i => "Page " +:+ pretty i +:+ " -> Not in memory" +:+ nl
  | FramesTitle => nl +:+ "Frames (Frame -> Page):" +:+ nl
  | FrameHolds i page => "Frame " +:+ pretty i +:+ " -> Page " +:+ pretty page +:+ nl
  | FrameEmpty i => "Frame " +:+ pretty i +:+ " -> Empty" +:+ nl
  end%string.

(** [showSegments], lines 81-87. *)
Definition showSegments (s : VirtualMemoryManager) : list line :=
  SegmentsTitle ::
  imap (λ i seg, SegmentLine (N.of_nat i) (name seg) (base seg) (limit seg))
       (segments s).

(** [showPageTable], lines 92-100. *)
Definition showPageTable (s : VirtualMemoryManager) : list line :=
  PageTableTitle ::
  imap (λ i e, if valid e then PageMapped (N.of_nat i) (frameNumber e)
               else PageAbsent (N.of_nat i))
       (pageTable s).

(** [showFrames], lines 105-113. *)
Definition showFrames (s : VirtualMemoryManager) : list line :=
  FramesTitle ::
  imap (λ i z, if (z =? -1)%Z then FrameEmpty (N.of_nat i)
               else FrameHolds (N.of_nat i) z)
       (frameTable s).

(** The text a display function sends to [std::cout]. *)
Definition text (ls : list line) : string :=
  foldr (λ l acc, render l +:+ acc) EmptyString ls.

(** ** Accessors (lines 212-214) *)

Definition getNumSegments (s : VirtualMemoryManager) : N :=
  N.of_nat (length (segments s)).

Definition getSegmentLimit (s : VirtualMemoryManager) (segIdx : N) : option N :=
  limit <$> vec_get (segments s) segIdx.

Definition getSegmentName (s : VirtualMemoryManager) (segIdx : N) : option string :=
  name <$> vec_get (segments s) segIdx.

(** ** Command-line driver

    The parts of [main] that do not depend on how [std::cin] parses: an
    extraction of a [size_t] is given as the value read, or [None] when the
    extraction failed. *)

(** [n - 1] on [size_t]. *)
Definition size_pred (n : N) : N := size_wrap (n + (2 ^ 64 - 1)).





(** What the [ACCESS_ADDRESS] case writes. *)
Inductive cli_output :=
  | Display (ls : list line)
  | AskSegmentIndex (last : N)     (* "Enter segment index (0-last): " *)
  | AskOffset (last : N)           (* "Enter offset (0-last): " *)
  | InvalidSegmentIndex            (* "Invalid segment index!", from [main] *)
  | InvalidOffset                  (* "Invalid offset!" *)
  | Access (r : report).           (* what [accessAddress] wrote *)

(** The [ACCESS_ADDRESS] case of the menu loop (lines 282-303); [segIn] and
    [offIn] are the two extractions, the second one being made only when
    the first value passed its check. *)
Definition access_command (s : VirtualMemoryManager) (segIn offIn : option N)
    : option (VirtualMemoryManager * list cli_output) :=
  let out1 := [Display (showSegments s);
               AskSegmentIndex (size_pred (getNumSegments s))] in
  match segIn with
  | None => Some (s, out1 ++ [InvalidSegmentIndex])
  | Some segIdx =>
      if getNumSegments s <=? segIdx
      then Some (s, out1 ++ [InvalidSegmentIndex]) else
      lim ← getSegmentLimit s segIdx;
      let out2 := out1 ++ [AskOffset (size_pred lim)] in
      match offIn with
      | None => Some (s, out2 ++ [InvalidOffset])
      | Some offset =>
          lim' ← getSegmentLimit s segIdx;
          if lim' <=? offset then Some (s, out2 ++ [InvalidOffset]) else
          '(s', r) ← accessAddress s segIdx offset;
          Some (s', out2 ++ [Access r])
      end
  end.

(** ** Further invariants *)

(** The container of the policy that is not active stays empty. *)
Definition idle_tracker_empty (s : VirtualMemoryManager) : Prop :=
  match policy s with
  | FIFO => lruList s = [] ∧ lruMap s = ∅
  | LRU => fifoQueue s = []
  end.

(** The occupied frames are the first ones of the frame table. *)
Definition frames_in_order (s : VirtualMemoryManager) : Prop :=
  ∀ (j : nat) z, frameTable s !! j = Some z →
    (z ≠ (-1)%Z ↔ (j < count_occupied s)%nat).

(** The number of faults among the events of a log. *)
Definition count_faults (log : list event) : nat :=
  length (filter (λ ev : event, ev.2 = true) log).

(** * Properties *)

Set Warnings "-clear-no-such-hyp".

(** ** Vectors *)

Section vectors.
Context {A : Type}.
Implicit Types (v : list A) (i : N) (x : A).

Lemma vec_get_Some v i x : vec_get v i = Some x ↔ v !! N.to_nat i = Some x.
Proof.
  unfold vec_get. destruct (N.ltb_spec i (N.of_nat (length v))) as [Hlt|Hge].
  - done.
  - split; [done|]. intros H%lookup_lt_Some. lia.
Qed.

Lemma vec_get_is_Some v i : is_Some (vec_get v i) ↔ i < N.of_nat (length v).
Proof.
  unfold vec_get. destruct (N.ltb_spec i (N.of_nat (length v))) as [Hlt|Hge].
  - rewrite lookup_lt_is_Some. lia.
  - split; [intros [? ?]; done | lia].
Qed.

Lemma vec_get_of_nat v (k : nat) : vec_get v (N.of_nat k) = v !! k.
Proof.
  destruct (v !! k) as [x|] eqn:Hk.
  - apply vec_get_Some. by rewrite Nat2N.id.
  - destruct (vec_get v (N.of_nat k)) as [y|] eqn:Hy; [|done].
    apply vec_get_Some in Hy. rewrite Nat2N.id in Hy. congruence.
Qed.

Lemma vec_set_Some v i x v' :
  vec_set v i x = Some v' ↔
  (N.to_nat i < length v)%nat ∧ v' = <[N.to_nat i := x]> v.
Proof.
  unfold vec_set. destruct (N.ltb_spec i (N.of_nat (length v))) as [Hlt|Hge].
  - split; [intros [= <-]; split; [lia|done] | intros [_ ->]; done].
  - split; [done | lia].
Qed.

Lemma vec_set_is_Some v i x : is_Some (vec_set v i x) ↔ i < N.of_nat (length v).
Proof.
  unfold vec_set. destruct (N.ltb_spec i (N.of_nat (length v))) as [Hlt|Hge].
  - split; [done | eauto].
  - split; [intros [? ?]; done | lia].
Qed.
End vectors.

(** ** Counting entries under an update *)

Section counting.
Context {A : Type} (P : A → Prop) `{!∀ x, Decision (P x)}.

Lemma count_insert (l : list A) (i : nat) (x y : A) :
  l !! i = Some y →
  (length (filter P (<[i := x]> l)) + (if decide (P y) then 1 else 0)
   = length (filter P l) + (if decide (P x) then 1 else 0))%nat.
Proof.
  revert i. induction l as [|a l IH]; intros [|i] Hi; simplify_eq/=.
  - rewrite !filter_cons.
    repeat case_decide; simpl; lia.
  - specialize (IH _ Hi). rewrite !filter_cons.
    repeat case_decide; simpl; lia.
Qed.

Lemma count_all (l : list A) :
  length (filter P l) = length l → Forall P l.
Proof.
  induction l as [|a l IH]; [constructor|].
  rewrite filter_cons. pose proof (length_filter P l).
  case_decide; simpl; intros Hl; [|lia].
  constructor; [done|]. apply IH. lia.
Qed.

Lemma count_none (l : list A) :
  Forall (λ x, ¬ P x) l → length (filter P l) = 0%nat.
Proof.
  induction 1 as [|a l Ha _ IH]; [done|].
  rewrite filter_cons. by case_decide.
Qed.
End counting.

(** ** The scan for a free frame *)

Lemma find_free_Some ft k i :
  find_free ft k = Some i ↔
  ∃ j : nat, i = k + N.of_nat j ∧ ft !! j = Some (-1)%Z ∧
             ∀ j' z, (j' < j)%nat → ft !! j' = Some z → z ≠ (-1)%Z.
Proof.
  revert k. induction ft as [|x ft IH]; intros k; simpl.
  { split; [done|]. by intros (j & _ & ? & _). }
  destruct (Z.eqb_spec x (-1)) as [->|Hx].
  - split.
    + intros [= <-]. exists 0%nat. split; [lia|]. split; [done|]. lia.
    + intros ([|j] & -> & Hj & Hmin).
      * f_equal. lia.
      * exfalso. by apply (Hmin 0%nat (-1)%Z); [lia| |].
  - rewrite IH. split.
    + intros (j & -> & Hj & Hmin). exists (S j). split; [lia|]. split; [done|].
      intros [|j'] z Hlt Hz; simplify_eq/=; [done|].
      eapply Hmin; [|done]. lia.
    + intros ([|j] & -> & Hj & Hmin); simplify_eq/=.
      exists j. split; [lia|]. split; [done|].
      intros j' z Hlt Hz. apply (Hmin (S j') z); [lia|done].
Qed.

Lemma find_free_None ft k :
  find_free ft k = None ↔ Forall (λ z, z ≠ (-1)%Z) ft.
Proof.
  revert k. induction ft as [|x ft IH]; intros k; simpl.
  { split; [constructor|done]. }
  destruct (Z.eqb_spec x (-1)) as [->|Hx].
  - split; [done|]. by intros [? _]%Forall_cons.
  - rewrite IH, Forall_cons. split; [done | by intros [_ ?]].
Qed.

(** ** Inversion of the operations *)

Lemma pop_victim_inv s s0 v :
  pop_victim s = Some (s0, v) →
  (policy s = FIFO ∧ ∃ rest, fifoQueue s = v :: rest ∧ s0 = set_fifoQueue s rest) ∨
  (policy s = LRU ∧ ∃ nd l, lruList s = l ++ [(nd, v)] ∧
     s0 = set_lru s l (delete v (lruMap s)) (nextNode s)).
Proof.
  unfold pop_victim. destruct (policy s) eqn:Hpol; intros H.
  - left. split; [done|].
    destruct (fifoQueue s) as [|v' rest] eqn:Hq; simplify_eq/=. eauto.
  - right. split; [done|].
    destruct (last (lruList s)) as [[nd v']|] eqn:Hl; simplify_eq/=.
    apply last_Some in Hl as [l Hl]. exists nd, l. split; [done|].
    rewrite Hl at 1. by rewrite removelast_last.
Qed.

Lemma evict_inv s v s1 f :
  evict s v = Some (s1, f) →
  ∃ e, pageTable s !! N.to_nat v = Some e ∧ f = frameNumber e ∧
       (N.to_nat (to_size_t f) < length (frameTable s))%nat ∧
       s1 = set_frameTable
              (set_pageTable s (<[N.to_nat v := mkPTE f false]> (pageTable s)))
              (<[N.to_nat (to_size_t f) := (-1)%Z]> (frameTable s)).
Proof.
  unfold evict. intros H.
  destruct (vec_get (pageTable s) v) as [e|] eqn:He; simplify_eq/=.
  destruct (vec_set (pageTable s) v _) as [pt|] eqn:Hpt; simplify_eq/=.
  destruct (vec_set (frameTable s) _ _) as [ft|] eqn:Hft; simplify_eq/=.
  apply vec_get_Some in He. apply vec_set_Some in Hpt as [_ ->].
  apply vec_set_Some in Hft as [? ->]. eauto.
Qed.

Lemma select_frame_inv s s1 f :
  select_frame s = Some (s1, f) →
  (∃ i, find_free (frameTable s) 0 = Some i ∧ to_int i ≠ (-1)%Z ∧
        s1 = s ∧ f = to_int i) ∨
  (∃ s0 v, (find_free (frameTable s) 0 = None ∨
            ∃ i, find_free (frameTable s) 0 = Some i ∧ to_int i = (-1)%Z) ∧
           pop_victim s = Some (s0, v) ∧ evict s0 v = Some (s1, f)).
Proof.
  unfold select_frame. intros H.
  destruct (find_free (frameTable s) 0) as [i|] eqn:Hi; simpl in H.
  - destruct (Z.eqb_spec (to_int i) (-1)) as [Hm|Hm].
    + right. destruct (pop_victim s) as [[s0 v]|] eqn:Hp; simplify_eq/=.
      exists s0, v. split; [right; eauto | done].
    + left. simplify_eq. eauto.
  - right.
    destruct (pop_victim s) as [[s0 v]|] eqn:Hp; simplify_eq/=.
    exists s0, v. split; [by left | done].
Qed.

Lemma load_page_inv s f p s' :
  load_page s f p = Some s' →
  (N.to_nat p < length (pageTable s))%nat ∧
  (N.to_nat (to_size_t f) < length (frameTable s))%nat ∧
  let s2 := set_frameTable
              (set_pageTable s (<[N.to_nat p := mkPTE f true]> (pageTable s)))
              (<[N.to_nat (to_size_t f) := to_int p]> (frameTable s)) in
  s' = match policy s with
       | FIFO => set_fifoQueue s2 (fifoQueue s ++ [p])
       | LRU => addLRU s2 p
       end.
Proof.
  unfold load_page. intros H.
  destruct (vec_set (pageTable s) p _) as [pt|] eqn:Hpt; simplify_eq/=.
  destruct (vec_set (frameTable s) _ _) as [ft|] eqn:Hft; simplify_eq/=.
  apply vec_set_Some in Hpt as [? ->]. apply vec_set_Some in Hft as [? ->].
  done.
Qed.

Lemma handlePageFault_inv s p s' :
  handlePageFault s p = Some s' →
  ∃ s1 f, select_frame s = Some (s1, f) ∧ load_page s1 f p = Some s'.
Proof.
  unfold handlePageFault. intros H.
  destruct (select_frame s) as [[s1 f]|]; simplify_eq/=. eauto.
Qed.

Lemma erase_node_inv nd l l' :
  erase_node nd l = Some l' →
  ∃ l1 v l2, l = l1 ++ (nd, v) :: l2 ∧ l' = l1 ++ l2 ∧ nd ∉ l1.*1.
Proof.
  revert l'. induction l as [|[n v] l IH]; intros l' H; simplify_eq/=.
  case_decide as Hn.
  - simplify_eq. exists [], v, l'. split; [done|]. split; [done|].
    apply not_elem_of_nil.
  - destruct (erase_node nd l) as [l0|]; simplify_eq/=.
    destruct (IH _ eq_refl) as (l1 & w & l2 & -> & -> & Hnot).
    exists ((n, v) :: l1), w, l2. split; [done|]. split; [done|].
    simpl. by apply not_elem_of_cons.
Qed.

Lemma erase_node_present nd v l :
  (nd, v) ∈ l → is_Some (erase_node nd l).
Proof.
  induction l as [|[n w] l IH]; [by intros ?%elem_of_nil|].
  intros Hin. simpl. case_decide; [eauto|].
  apply elem_of_cons in Hin as [?|Hin]; [naive_solver|].
  destruct (IH Hin) as [l' ->]. simpl. eauto.
Qed.

Lemma updateLRU_inv s p s' :
  updateLRU s p = Some s' →
  (lruMap s !! p = None ∧ s' = s) ∨
  (∃ nd l, lruMap s !! p = Some nd ∧ erase_node nd (lruList s) = Some l ∧
           s' = push_front_lru s l (lruMap s) p).
Proof.
  unfold updateLRU. destruct (lruMap s !! p) as [nd|]; intros H.
  - right. destruct (erase_node nd (lruList s)) as [l|] eqn:Hl; simplify_eq/=.
    eauto.
  - left. by simplify_eq.
Qed.

(** ** What a call leaves unchanged *)

Global Instance same_config_refl : Reflexive same_config.
Proof. intros s. by repeat split. Qed.

Global Instance same_config_trans : Transitive same_config.
Proof.
  intros s1 s2 s3 (?&?&?&?&?&?&?) (?&?&?&?&?&?&?).
  repeat split; congruence.
Qed.

Lemma select_frame_config s s1 f :
  select_frame s = Some (s1, f) → same_config s s1.
Proof.
  intros [(i & _ & _ & -> & _) | (s0 & v & _ & Hp & He)]%select_frame_inv;
    [done|].
  apply evict_inv in He as (e & _ & _ & _ & ->).
  apply pop_victim_inv in Hp as [(_ & rest & _ & ->) | (_ & nd & l & _ & ->)];
    repeat split; simpl; by rewrite ?length_insert.
Qed.

Lemma load_page_config s f p s' :
  load_page s f p = Some s' → same_config s s'.
Proof.
  intros (_ & _ & ->)%load_page_inv.
  destruct (policy s); repeat split; simpl; by rewrite ?length_insert.
Qed.

Lemma handlePageFault_config s p s' :
  handlePageFault s p = Some s' → same_config s s'.
Proof.
  intros (s1 & f & H1 & H2)%handlePageFault_inv.
  etrans; [by eapply select_frame_config | by eapply load_page_config].
Qed.

Lemma updateLRU_config s p s' :
  updateLRU s p = Some s' → same_config s s'.
Proof.
  intros [[_ ->] | (nd & l & _ & _ & ->)]%updateLRU_inv; by repeat split.
Qed.

Lemma updateLRU_tables s p s' :
  updateLRU s p = Some s' →
  pageTable s' = pageTable s ∧ frameTable s' = frameTable s ∧
  fifoQueue s' = fifoQueue s ∧ pageFaults s' = pageFaults s ∧
  accesses s' = accesses s.
Proof.
  intros [[_ ->] | (nd & l & _ & _ & ->)]%updateLRU_inv; by repeat split.
Qed.

(** ** Structure of a call *)

Lemma accessAddress_inv s segIdx offset s' r :
  accessAddress s segIdx offset = Some (s', r) →
  (N.of_nat (length (segments s)) ≤ segIdx ∧ s' = s ∧ r = InvalidSegment) ∨
  (∃ seg, vec_get (segments s) segIdx = Some seg ∧ limit seg ≤ offset ∧
          s' = s ∧ r = OffsetOutOfBounds) ∨
  (∃ seg e s2 e',
     vec_get (segments s) segIdx = Some seg ∧ offset < limit seg ∧
     pageSize s ≠ 0 ∧
     let la := size_wrap (base seg + offset) in
     let pn := la / pageSize s in
     let s1 := set_accesses s (size_wrap (accesses s + 1)) in
     vec_get (pageTable s) pn = Some e ∧
     (if valid e then s2 = s1
      else handlePageFault (set_pageFaults s1 (size_wrap (pageFaults s + 1))) pn
           = Some s2) ∧
     match policy s2 with LRU => updateLRU s2 pn | FIFO => Some s2 end = Some s' ∧
     vec_get (pageTable s') pn = Some e' ∧
     r = Translated (mkTranslation (negb (valid e)) pn la
           (size_wrap (to_size_t (frameNumber e') * pageSize s + la mod pageSize s))
           (frameNumber e') (la mod pageSize s))).
Proof.
  unfold accessAddress. intros H.
  destruct (N.leb_spec (N.of_nat (length (segments s))) segIdx) as [Hs|Hs].
  { left. by simplify_eq. }
  right.
  destruct (vec_get (segments s) segIdx) as [seg|] eqn:Hseg; simpl in H; [|done].
  destruct (N.leb_spec (limit seg) offset) as [Ho|Ho].
  { left. exists seg. by simplify_eq. }
  right.
  destruct (N.eqb_spec (pageSize s) 0) as [Hz|Hz]; [done|].
  simpl in H.
  destruct (vec_get (pageTable s) _) as [e|] eqn:He; simpl in H; [|done].
  exists seg, e.
  destruct (valid e) eqn:Hv; simpl in H.
  - destruct (match policy s with FIFO => _ | LRU => _ end) as [s3|] eqn:Hs3;
      simpl in H; [|done].
    destruct (vec_get (pageTable s3) _) as [e'|] eqn:He'; simpl in H; [|done].
    simplify_eq. eexists _, e'. repeat split; eauto.
  - destruct (handlePageFault _ _) as [s2|] eqn:Hpf; simpl in H; [|done].
    destruct (match policy s2 with FIFO => _ | LRU => _ end) as [s3|] eqn:Hs3;
      simpl in H; [|done].
    destruct (vec_get (pageTable s3) _) as [e'|] eqn:He'; simpl in H; [|done].
    simplify_eq. eexists s2, e'. repeat split; eauto.
Qed.

Lemma target_Some s segIdx offset la pn :
  target s segIdx offset = Some (la, pn) ↔
  ∃ seg, vec_get (segments s) segIdx = Some seg ∧ offset < limit seg ∧
         la = size_wrap (base seg + offset) ∧ pn = la / pageSize s.
Proof.
  unfold target. destruct (vec_get (segments s) segIdx) as [seg|]; simpl.
  - destruct (N.leb_spec (limit seg) offset) as [Ho|Ho].
    + split; [done|]. intros (? & [= <-] & ? & _). lia.
    + split.
      * intros [= <- <-]. eauto.
      * by intros (? & [= <-] & _ & -> & ->).
  - split; [done|]. by intros (? & ? & _).
Qed.


Lemma accepted_iff s segIdx offset :
  accepted s segIdx offset ↔
  segIdx < N.of_nat (length (segments s)) ∧
  ∃ seg, vec_get (segments s) segIdx = Some seg ∧ offset < limit seg.
Proof.
  unfold accepted. split.
  - intros [[la pn] (seg & Hseg & Ho & _)%target_Some]. split; [|eauto].
    apply vec_get_is_Some. eauto.
  - intros (_ & seg & Hseg & Ho). eexists (_, _). apply target_Some. eauto.
Qed.

Lemma accessAddress_config s segIdx offset s' r :
  accessAddress s segIdx offset = Some (s', r) → same_config s s'.
Proof.
  intros [(_ & -> & _) | [(seg & _ & _ & -> & _) |
    (seg & e & s2 & e' & _ & _ & _ & _ & Hs2 & Hs' & _)]]%accessAddress_inv;
    [done|done|].
  assert (same_config s s2) as H2.
  { destruct (valid e); [by subst|].
    apply handlePageFault_config in Hs2. done. }
  etrans; [exact H2|].
  destruct (policy s2); [by simplify_eq|]. by eapply updateLRU_config.
Qed.

Lemma run_config s log reqs s' log' :
  run s log reqs = Some (s', log') → same_config s s'.
Proof.
  revert s log. induction reqs as [|[segIdx offset] reqs IH]; intros s log H;
    simplify_eq/=; [done|].
  destruct (accessAddress s segIdx offset) as [[s1 r]|] eqn:Ha; simplify_eq/=.
  etrans; [by eapply accessAddress_config | by eapply IH].
Qed.

Lemma reachable_config s0 s : reachable s0 s → same_config s0 s.
Proof. intros (reqs & log & H). by eapply run_config. Qed.

(** An invariant of the calls, once established, holds along every run. *)
Lemma run_invariant (P : VirtualMemoryManager → list event → Prop) :
  (∀ s log segIdx offset s' r,
     P s log → accessAddress s segIdx offset = Some (s', r) →
     P s' (events r ++ log)) →
  ∀ reqs s log s' log',
    P s log → run s log reqs = Some (s', log') → P s' log'.
Proof.
  intros Hstep. induction reqs as [|[segIdx offset] reqs IH];
    intros s log s' log' HP H; simplify_eq/=; [done|].
  destruct (accessAddress s segIdx offset) as [[s1 r]|] eqn:Ha; simplify_eq/=.
  eapply IH; [|done]. by eapply Hstep.
Qed.

Lemma reachable_invariant (P : VirtualMemoryManager → Prop) s0 s :
  (∀ s segIdx offset s' r,
     P s → accessAddress s segIdx offset = Some (s', r) → P s') →
  P s0 → reachable s0 s → P s.
Proof.
  intros Hstep H0 (reqs & log & H).
  eapply (run_invariant (λ s _, P s)); [|exact H0|exact H].
  intros. by eapply Hstep.
Qed.

Lemma reachable_refl s : reachable s s.
Proof. by exists [], []. Qed.

Lemma run_app s log reqs1 reqs2 :
  run s log (reqs1 ++ reqs2) =
  run s log reqs1 ≫= λ '(s1, log1), run s1 log1 reqs2.
Proof.
  revert s log. induction reqs1 as [|[segIdx offset] reqs1 IH]; intros s log;
    simpl; [done|].
  destruct (accessAddress s segIdx offset) as [[s1 r]|]; simpl; [|done].
  apply IH.
Qed.

Lemma reachable_step s0 s segIdx offset s' r :
  reachable s0 s → accessAddress s segIdx offset = Some (s', r) →
  reachable s0 s'.
Proof.
  intros (reqs & log & H) Ha.
  exists (reqs ++ [(segIdx, offset)]), (events r ++ log).
  rewrite run_app, H. simpl. by rewrite Ha.
Qed.

(** ** Rejected requests *)

Lemma accessAddress_invalid_segment s segIdx offset :
  N.of_nat (length (segments s)) ≤ segIdx →
  accessAddress s segIdx offset = Some (s, InvalidSegment).
Proof.
  intros H. unfold accessAddress.
  by destruct (N.leb_spec (N.of_nat (length (segments s))) segIdx); [|lia].
Qed.

Lemma accessAddress_out_of_bounds s segIdx offset seg :
  vec_get (segments s) segIdx = Some seg → limit seg ≤ offset →
  accessAddress s segIdx offset = Some (s, OffsetOutOfBounds).
Proof.
  intros Hseg Ho. unfold accessAddress.
  assert (segIdx < N.of_nat (length (segments s))) by (apply vec_get_is_Some; eauto).
  destruct (N.leb_spec (N.of_nat (length (segments s))) segIdx); [lia|].
  rewrite Hseg. simpl. by destruct (N.leb_spec (limit seg) offset); [|lia].
Qed.

Lemma accessAddress_translated_accepted s segIdx offset s' t :
  accessAddress s segIdx offset = Some (s', Translated t) →
  ∃ seg, vec_get (segments s) segIdx = Some seg ∧ offset < limit seg ∧
         t_logicalAddr t = size_wrap (base seg + offset) ∧
         t_page t = t_logicalAddr t / pageSize s ∧
         target s segIdx offset = Some (t_logicalAddr t, t_page t).
Proof.
  intros [(_ & _ & ?) | [(seg & _ & _ & _ & ?) |
    (seg & e & s2 & e' & Hseg & Ho & _ & _ & _ & _ & _ & Hr)]]%accessAddress_inv;
    [done|done|].
  simplify_eq/=. exists seg. repeat split; [done..|].
  apply target_Some. eauto.
Qed.

Lemma accessAddress_accepted_translated s segIdx offset s' r :
  accepted s segIdx offset → accessAddress s segIdx offset = Some (s', r) →
  ∃ t, r = Translated t.
Proof.
  intros (Hlt & seg & Hseg & Ho)%accepted_iff
    [(? & _) | [(seg' & Hseg' & ? & _) | (? & ? & ? & ? & Hr)]]%accessAddress_inv.
  - lia.
  - simplify_eq. lia.
  - destruct Hr as (_ & _ & _ & _ & _ & _ & _ & ->). eauto.
Qed.

Lemma accessAddress_rejected s segIdx offset s' r :
  accessAddress s segIdx offset = Some (s', r) →
  (r = InvalidSegment ∨ r = OffsetOutOfBounds ↔ ¬ accepted s segIdx offset) ∧
  (r = InvalidSegment ∨ r = OffsetOutOfBounds → s' = s).
Proof.
  intros Ha. split.
  - split.
    + intros Hr Hacc.
      destruct (accessAddress_accepted_translated _ _ _ _ _ Hacc Ha) as [t ->].
      by destruct Hr.
    + intros Hnot. destruct r as [| |t]; [by left|by right|].
      destruct Hnot.
      apply accessAddress_translated_accepted in Ha
        as (seg & ? & ? & _ & _ & Ht).
      by eexists.
  - apply accessAddress_inv in Ha
      as [(_ & -> & _) | [(seg & _ & _ & -> & _) | (? & ? & ? & ? & Hr)]];
      [done|done|].
    destruct Hr as (_ & _ & _ & _ & _ & _ & _ & ->). by intros [|].
Qed.

(** C6.  A request is rejected exactly when the segment index is not below
    the number of segments (reported as an invalid segment) or the offset is
    not below the limit of the segment (reported as out of bounds); the
    offset equal to the limit is rejected and the offset just below it
    passes both checks; a rejected request leaves every component of the
    state, counters included, as it was. *)
Theorem rejection_exact_and_pure s segIdx offset :
  (accessAddress s segIdx offset = Some (s, InvalidSegment) ↔
   N.of_nat (length (segments s)) ≤ segIdx) ∧
  (accessAddress s segIdx offset = Some (s, OffsetOutOfBounds) ↔
   ∃ seg, vec_get (segments s) segIdx = Some seg ∧ limit seg ≤ offset) ∧
  (∀ s' r, accessAddress s segIdx offset = Some (s', r) →
     (r = InvalidSegment ∨ r = OffsetOutOfBounds ↔ ¬ accepted s segIdx offset) ∧
     (r = InvalidSegment ∨ r = OffsetOutOfBounds → s' = s)) ∧
  (∀ seg, vec_get (segments s) segIdx = Some seg →
     accessAddress s segIdx (limit seg) = Some (s, OffsetOutOfBounds) ∧
     (0 < limit seg →
      accepted s segIdx (limit seg - 1) ∧
      accessAddress s segIdx (limit seg - 1) ≠ Some (s, OffsetOutOfBounds) ∧
      accessAddress s segIdx (limit seg - 1) ≠ Some (s, InvalidSegment))).
Proof.
  split; [|split; [|split]].
  - split; [|apply accessAddress_invalid_segment].
    intros [(? & _) | [(? & _ & _ & _ & ?) | (? & ? & ? & ? & Hr)]]%accessAddress_inv;
      [done|done|].
    by destruct Hr as (_ & _ & _ & _ & _ & _ & _ & ?).
  - split; [|by intros (seg & ? & ?); eapply accessAddress_out_of_bounds].
    intros [(_ & _ & ?) | [(seg & ? & ? & _) | (? & ? & ? & ? & Hr)]]%accessAddress_inv;
      [done|eauto|].
    by destruct Hr as (_ & _ & _ & _ & _ & _ & _ & ?).
  - intros s' r Ha. by apply accessAddress_rejected.
  - intros seg Hseg. split.
    { by eapply accessAddress_out_of_bounds. }
    intros Hpos.
    assert (accepted s segIdx (limit seg - 1)) as Hacc.
    { apply accepted_iff. split; [apply vec_get_is_Some; eauto|].
      exists seg. split; [done|lia]. }
    split; [done|].
    split; intros Ha;
      destruct (accessAddress_accepted_translated _ _ _ _ _ Hacc Ha); done.
Qed.

(** ** Construction *)

Lemma construct_Some memSize pageSz segNames pol E :
  construct memSize pageSz segNames pol = Some E ↔
  pageSz ≠ 0 ∧ segNames ≠ [] ∧
  E = mkVMM pageSz (memSize / pageSz) (memSize / pageSz)
        (make_segments 0 (memSize / N.of_nat (length segNames)) segNames)
        (replicate (N.to_nat (memSize / pageSz)) emptyPTE)
        (replicate (N.to_nat (memSize / pageSz)) (-1)%Z)
        pol [] [] ∅ 0%nat 0 0.
Proof.
  unfold construct, construct_within.
  destruct (N.eqb_spec pageSz 0) as [Hz|Hz].
  { split; [done|]. by intros [? _]. }
  rewrite N.ltb_irrefl. simpl.
  destruct (N.eqb_spec (N.of_nat (length segNames)) 0) as [Hn|Hn].
  { split; [done|]. intros (_ & Hne & _). by destruct segNames. }
  split.
  - intros [= <-]. split; [done|]. split; [|done]. by intros ->.
  - by intros (_ & _ & ->).
Qed.


Lemma construct_within_Built capacity memSize pageSz segNames pol E :
  construct_within capacity memSize pageSz segNames pol = Built E ↔
  memSize / pageSz ≤ capacity ∧ construct memSize pageSz segNames pol = Some E.
Proof.
  rewrite construct_Some. unfold construct_within.
  destruct (N.eqb_spec pageSz 0) as [Hz|Hz].
  { split; [done|]. by intros (_ & ? & _). }
  rewrite orb_diag.
  destruct (N.ltb_spec capacity (memSize / pageSz)) as [Hlt|Hge].
  { split; [done|]. intros [? _]. lia. }
  destruct (N.eqb_spec (N.of_nat (length segNames)) 0) as [Hn|Hn].
  { split; [done|]. intros (_ & _ & Hne & _). by destruct segNames. }
  split.
  - intros [= <-]. split; [done|]. split; [done|]. split; [|done]. by intros ->.
  - by intros (_ & _ & _ & ->).
Qed.

(** C7 (as the code has it).  The constructor validates nothing and reports
    no configuration error.  It ends in one of three ways.  It divides by
    zero when the page size is zero, or when the list of segment names is
    empty and the tables were granted.  [resize] or [assign] throws when
    the allocator does not grant [memSize / pageSz] elements.  Otherwise it
    leaves a manager; every manager it leaves has [memSize / pageSz] frames
    and as many pages, and one segment per name; a zero memory size and a
    memory smaller than a page are among these cases, with both tables
    empty.  [construct] is the construction whose tables are granted. *)
Theorem construct_outcomes capacity memSize pageSz segNames pol :
  (construct_within capacity memSize pageSz segNames pol = Undefined ↔
   pageSz = 0 ∨ (memSize / pageSz ≤ capacity ∧ segNames = [])) ∧
  (construct_within capacity memSize pageSz segNames pol = Throws ↔
   pageSz ≠ 0 ∧ capacity < memSize / pageSz) ∧
  (∀ E, construct_within capacity memSize pageSz segNames pol = Built E →
     pageSz ≠ 0 ∧ segNames ≠ [] ∧ memSize / pageSz ≤ capacity ∧
     construct memSize pageSz segNames pol = Some E ∧
     numFrames E = memSize / pageSz ∧ numPages E = memSize / pageSz ∧
     N.of_nat (length (frameTable E)) = memSize / pageSz ∧
     N.of_nat (length (pageTable E)) = memSize / pageSz ∧
     length (segments E) = length segNames ∧
     (memSize < pageSz → pageTable E = [] ∧ frameTable E = [])) ∧
  (∀ E, construct memSize pageSz segNames pol = Some E ↔
        construct_within (memSize / pageSz) memSize pageSz segNames pol
        = Built E).
Proof.
  split; [|split; [|split]].
  - unfold construct_within.
    destruct (N.eqb_spec pageSz 0) as [Hz|Hz]; [split; [by left | done]|].
    rewrite orb_diag.
    destruct (N.ltb_spec capacity (memSize / pageSz)) as [Hlt|Hge].
    { split; [done|]. intros [? | [? _]]; [done | lia]. }
    destruct (N.eqb_spec (N.of_nat (length segNames)) 0) as [Hn|Hn].
    + split; [|done]. intros _. right. split; [done|]. by destruct segNames.
    + split; [done|]. intros [? | [_ ->]]; done.
  - unfold construct_within.
    destruct (N.eqb_spec pageSz 0) as [Hz|Hz]; [split; [done | by intros [? _]]|].
    rewrite orb_diag.
    destruct (N.ltb_spec capacity (memSize / pageSz)) as [Hlt|Hge].
    { split; done. }
    destruct (N.eqb_spec (N.of_nat (length segNames)) 0) as [Hn|Hn];
      (split; [done|]); intros [_ ?]; lia.
  - intros E [Hcap HE]%construct_within_Built.
    pose proof HE as (Hz & Hne & ->)%construct_Some. simpl.
    rewrite !length_replicate, N2Nat.id.
    split; [done|]. split; [done|]. split; [done|]. split; [done|].
    split; [done|]. split; [done|]. split; [done|]. split; [done|].
    split; [|split].
    + generalize 0 (memSize / N.of_nat (length segNames)).
      clear. induction segNames as [|n names IH]; intros k sz; [done|].
      simpl. f_equal. apply IH.
    + by rewrite N.div_small.
    + by rewrite N.div_small.
  - intros E. rewrite construct_within_Built. split; [by split | by intros [_ ?]].
Qed.


(** ** Counters *)

Lemma size_wrap_small n : n < 2 ^ 64 → size_wrap n = n.
Proof. intros H. unfold size_wrap. by apply N.mod_small. Qed.

Lemma size_wrap_le n : size_wrap n ≤ n.
Proof. unfold size_wrap. apply N.Div0.mod_le. Qed.



Lemma select_frame_counters s s1 f :
  select_frame s = Some (s1, f) →
  pageFaults s1 = pageFaults s ∧ accesses s1 = accesses s.
Proof.
  intros [(i & _ & _ & -> & _) | (s0 & v & _ & Hp & He)]%select_frame_inv;
    [done|].
  apply evict_inv in He as (e & _ & _ & _ & ->).
  by apply pop_victim_inv in Hp as [(_ & rest & _ & ->) | (_ & nd & l & _ & ->)].
Qed.

Lemma load_page_counters s f p s' :
  load_page s f p = Some s' →
  pageFaults s' = pageFaults s ∧ accesses s' = accesses s.
Proof. intros (_ & _ & ->)%load_page_inv. by destruct (policy s). Qed.

Lemma load_page_entry s f p s' :
  load_page s f p = Some s' →
  pageTable s' = <[N.to_nat p := mkPTE f true]> (pageTable s) ∧
  pageTable s' !! N.to_nat p = Some (mkPTE f true).
Proof.
  intros (Hp & _ & ->)%load_page_inv.
  assert (∀ s2, pageTable (match policy s with
                           | FIFO => set_fifoQueue s2 (fifoQueue s ++ [p])
                           | LRU => addLRU s2 p
                           end) = pageTable s2) as -> by (by destruct (policy s)).
  simpl. split; [done|]. by apply list_lookup_insert_eq.
Qed.

Lemma handlePageFault_counters s p s' :
  handlePageFault s p = Some s' →
  pageFaults s' = pageFaults s ∧ accesses s' = accesses s.
Proof.
  intros (s1 & f & [? ?]%select_frame_counters & [? ?]%load_page_counters)
    %handlePageFault_inv.
  split; congruence.
Qed.

Lemma handlePageFault_entry s p s' :
  handlePageFault s p = Some s' →
  ∃ f, pageTable s' !! N.to_nat p = Some (mkPTE f true).
Proof.
  intros (s1 & f & _ & [_ ?]%load_page_entry)%handlePageFault_inv. eauto.
Qed.

Lemma resident_lookup s p :
  resident s p ↔ ∃ e, pageTable s !! N.to_nat p = Some e ∧ valid e = true.
Proof. unfold resident. by setoid_rewrite vec_get_Some. Qed.

(** The effect of a translated request on the counters and on the entry of
    its page. *)
Lemma accessAddress_translated s segIdx offset s' t :
  accessAddress s segIdx offset = Some (s', Translated t) →
  accesses s' = size_wrap (accesses s + 1) ∧
  pageFaults s' = (if t_fault t then size_wrap (pageFaults s + 1)
                   else pageFaults s) ∧
  (t_fault t = false ↔ resident s (t_page t)) ∧
  (t_fault t = false → pageTable s' = pageTable s ∧
                       frameTable s' = frameTable s) ∧
  vec_get (pageTable s') (t_page t) = Some (mkPTE (t_frameNum t) true) ∧
  t_pageOffset t = t_logicalAddr t mod pageSize s ∧
  t_physicalAddr t =
    size_wrap (to_size_t (t_frameNum t) * pageSize s + t_pageOffset t).
Proof.
  intros [(_ & _ & ?) | [(seg & _ & _ & _ & ?) |
    (seg & e & s2 & e' & Hseg & Ho & Hz & He & Hs2 & Hs' & He' & Hr)]]
    %accessAddress_inv; [done|done|].
  simplify_eq/=.
  set (pn := size_wrap (base seg + offset) / pageSize s) in *.
  assert (pageTable s' = pageTable s2 ∧ frameTable s' = frameTable s2 ∧
          pageFaults s' = pageFaults s2 ∧ accesses s' = accesses s2)
    as (Hpt & Hft & Hpf & Hacc).
  { destruct (policy s2); [by simplify_eq|].
    apply updateLRU_tables in Hs'. by destruct Hs' as (? & ? & _ & ? & ?). }
  rewrite Hpf, Hacc. apply vec_get_Some in He'. rewrite Hpt in He'.
  rewrite vec_get_Some, Hpt, resident_lookup.
  apply vec_get_Some in He.
  destruct (valid e) eqn:Hv; simpl.
  - subst s2. simpl in *. simplify_eq. repeat split; eauto.
    by destruct e as [? []]; simplify_eq/=.
  - destruct (handlePageFault_counters _ _ _ Hs2) as [-> ->].
    destruct (handlePageFault_entry _ _ _ Hs2) as [f Hf]. simpl.
    simplify_eq/=. repeat split; try done.
    intros (e0 & ? & ?). simplify_eq. congruence.
Qed.


(** ** A hit *)




(** ** The tracker invariant *)

Lemma tracker_ok_set_accesses s n : tracker_ok (set_accesses s n) ↔ tracker_ok s.
Proof. done. Qed.

Lemma tracker_ok_set_pageFaults s n : tracker_ok (set_pageFaults s n) ↔ tracker_ok s.
Proof. done. Qed.

Lemma resident_insert s s' (p q : N) e :
  pageTable s' = <[N.to_nat p := e]> (pageTable s) →
  (N.to_nat p < length (pageTable s))%nat →
  resident s' q ↔ (q = p ∧ valid e = true) ∨ (q ≠ p ∧ resident s q).
Proof.
  intros Hpt Hlt. rewrite !resident_lookup, Hpt.
  destruct (decide (q = p)) as [->|Hne].
  - rewrite list_lookup_insert_eq by done. naive_solver.
  - rewrite list_lookup_insert_ne by lia. naive_solver.
Qed.

Lemma count_resident_insert s s' (p : N) e e0 :
  pageTable s' = <[N.to_nat p := e]> (pageTable s) →
  pageTable s !! N.to_nat p = Some e0 →
  (count_resident s' + (if valid e0 then 1 else 0)
   = count_resident s + (if valid e then 1 else 0))%nat.
Proof.
  intros Hpt He0. unfold count_resident. rewrite Hpt.
  pose proof (count_insert (λ e, valid e = true) _ _ e _ He0) as H.
  cbv beta in H.
  destruct (valid e0), (valid e); repeat case_decide; simplify_eq; lia.
Qed.

Lemma load_page_tracker s f p s' :
  tracker_ok s → ¬ resident s p → load_page s f p = Some s' →
  tracker_ok s' ∧ resident s' p ∧
  (∀ q, q ≠ p → (resident s' q ↔ resident s q)) ∧
  tracker s' = match policy s with
               | FIFO => tracker s ++ [p]
               | LRU => p :: tracker s
               end.
Proof.
  intros (Hnd & Hmem & Hlen & Hlru) Hnr Hload.
  pose proof (load_page_entry _ _ _ _ Hload) as [Hpt _].
  pose proof (load_page_config _ _ _ _ Hload) as (_ & _ & _ & _ & Hpol & _).
  apply load_page_inv in Hload as (Hp & _ & Hs'). cbv zeta in Hs'.
  destruct (lookup_lt_is_Some_2 _ _ Hp) as [e0 He0].
  assert (valid e0 = false) as Hv0.
  { destruct (valid e0) eqn:Hv; [|done]. destruct Hnr.
    apply resident_lookup. eauto. }
  pose proof (count_resident_insert _ _ _ _ _ Hpt He0) as Hcnt.
  rewrite Hv0 in Hcnt. simpl in Hcnt.
  assert (∀ q, resident s' q ↔ q = p ∨ resident s q) as Hres.
  { intros q. rewrite (resident_insert s s' p q _ Hpt Hp). simpl.
    destruct (decide (q = p)); naive_solver. }
  assert (p ∉ tracker s) as Hnotin by (by rewrite Hmem).
  assert (tracker s' = match policy s with
                       | FIFO => tracker s ++ [p]
                       | LRU => p :: tracker s
                       end) as Htr.
  { unfold tracker. rewrite Hpol. subst s'. by destruct (policy s). }
  split; [|split; [|split]].
  - unfold tracker_ok. rewrite Htr.
    destruct (policy s) eqn:Hpols.
    + split; [|split; [|split]].
      * apply NoDup_app. split; [done|]. split; [|apply NoDup_singleton].
        intros q Hq ->%list_elem_of_singleton. done.
      * intros q. rewrite elem_of_app, list_elem_of_singleton, Hres, Hmem.
        naive_solver.
      * rewrite length_app. simpl. lia.
      * intros Hl. congruence.
    + split; [|split; [|split]].
      * by apply NoDup_cons.
      * intros q. rewrite elem_of_cons, Hres, Hmem. naive_solver.
      * simpl. lia.
      * intros _. destruct (Hlru Hpols) as (Hids & Hfresh & Hmap).
        subst s'. unfold tracker in Hnotin. rewrite Hpols in Hnotin.
        simpl. split; [|split].
        -- apply NoDup_cons. split; [|done].
           intros Hin%Hfresh. lia.
        -- intros nd [->|Hin%Hfresh]%elem_of_cons; lia.
        -- intros q nd. rewrite elem_of_cons.
           destruct (decide (q = p)) as [->|Hne].
           ++ rewrite lookup_insert_eq. split; [naive_solver|].
              intros [?|Hin]; [naive_solver|].
              destruct Hnotin. apply list_elem_of_fmap. by exists (nd, p).
           ++ rewrite lookup_insert_ne by done. rewrite Hmap. naive_solver.
  - apply Hres. by left.
  - intros q Hne. rewrite Hres. naive_solver.
  - done.
Qed.

(** Popping the victim and evicting it keeps the tracker in step with the
    page table. *)
Lemma eviction_tracker s s0 v s1 f :
  tracker_ok s → pop_victim s = Some (s0, v) → evict s0 v = Some (s1, f) →
  tracker_ok s1 ∧ resident s v ∧ ¬ resident s1 v ∧
  (∀ q, q ≠ v → (resident s1 q ↔ resident s q)) ∧
  tracker s = match policy s with
              | FIFO => v :: tracker s1
              | LRU => tracker s1 ++ [v]
              end ∧
  ∃ e, pageTable s !! N.to_nat v = Some e ∧ valid e = true ∧
       f = frameNumber e ∧
       (N.to_nat (to_size_t f) < length (frameTable s))%nat ∧
       pageTable s1 = <[N.to_nat v := mkPTE f false]> (pageTable s) ∧
       frameTable s1 = <[N.to_nat (to_size_t f) := (-1)%Z]> (frameTable s).
Proof.
  intros (Hnd & Hmem & Hlen & Hlru) Hpop Hev.
  apply evict_inv in Hev as (e & He & Hf & Hidx & Hs1).
  assert (pageTable s0 = pageTable s ∧ frameTable s0 = frameTable s ∧
          policy s0 = policy s) as (Hpt0 & Hft0 & Hpol0).
  { by apply pop_victim_inv in Hpop
      as [(_ & rest & _ & ->) | (_ & nd & l & _ & ->)]. }
  rewrite Hpt0 in He, Hs1. rewrite Hft0 in Hidx, Hs1.
  assert (tracker s = match policy s with
                      | FIFO => v :: tracker s1
                      | LRU => tracker s1 ++ [v]
                      end) as Htr.
  { unfold tracker. subst s1. simpl. rewrite Hpol0.
    apply pop_victim_inv in Hpop
      as [(Hpol & rest & Hq & ->) | (Hpol & nd & l & Hl & ->)];
      rewrite Hpol; simpl; [done|].
    by rewrite Hl, fmap_app. }
  assert (v ∈ tracker s) as Hin.
  { rewrite Htr. destruct (policy s); [apply elem_of_cons; by left|].
    apply elem_of_app. right. by apply list_elem_of_singleton. }
  assert (resident s v) as Hres by (by apply Hmem).
  assert (valid e = true) as Hv.
  { apply resident_lookup in Hres as (e1 & ? & ?). by simplify_eq. }
  assert (pageTable s1 = <[N.to_nat v := mkPTE f false]> (pageTable s)) as Hpt1
    by (by subst s1).
  assert (N.to_nat v < length (pageTable s))%nat as Hvlt
    by (by eapply lookup_lt_Some).
  assert (∀ q, resident s1 q ↔ q ≠ v ∧ resident s q) as Hres1.
  { intros q. rewrite (resident_insert s s1 v q _ Hpt1 Hvlt). simpl.
    naive_solver. }
  pose proof (count_resident_insert _ _ _ _ _ Hpt1 He) as Hcnt.
  rewrite Hv in Hcnt. simpl in Hcnt.
  assert (policy s1 = policy s) as Hpol1 by (by subst s1).
  split; [|split; [done|split; [|split; [|split]]]].
  - unfold tracker_ok. rewrite Htr in Hnd, Hmem, Hlen.
    destruct (policy s) eqn:Hpols.
    + apply NoDup_cons in Hnd as [Hnv Hnd]. simpl in Hlen.
      split; [done|]. split; [|split; [lia|]].
      * intros q. rewrite Hres1, <- Hmem, elem_of_cons. naive_solver.
      * intros ?. congruence.
    + apply NoDup_app in Hnd as (Hnd & Hnv & _).
      rewrite length_app in Hlen. simpl in Hlen.
      split; [done|]. split; [|split; [lia|]].
      * intros q. rewrite Hres1, <- Hmem, elem_of_app, list_elem_of_singleton.
        split; [|naive_solver].
        intros Hq. split; [|by left]. intros ->.
        by apply (Hnv v); [|apply list_elem_of_singleton].
      * intros _. destruct (Hlru Hpols) as (Hids & Hfresh & Hmap).
        apply pop_victim_inv in Hpop
          as [(Hpol & _) | (_ & nd & l & Hl & ->)]; [congruence|].
        subst s1. simpl in *. unfold tracker in Hnv. simpl in Hnv.
        rewrite Hpols in Hnv.
        rewrite Hl, fmap_app in Hids. rewrite Hl in Hfresh, Hmap.
        apply NoDup_app in Hids as (Hids & _ & _).
        split; [done|]. split.
        -- intros n Hn. apply Hfresh. rewrite fmap_app, elem_of_app. by left.
        -- intros q n. destruct (decide (q = v)) as [->|Hne].
           ++ rewrite lookup_delete_eq. split; [done|].
              intros Hq. exfalso. apply (Hnv v).
              ** apply list_elem_of_fmap. by exists (n, v).
              ** by apply list_elem_of_singleton.
           ++ rewrite lookup_delete_ne by done.
              rewrite Hmap, elem_of_app, list_elem_of_singleton. naive_solver.
  - intros Hr. apply Hres1 in Hr. naive_solver.
  - intros q Hq. rewrite Hres1. naive_solver.
  - done.
  - exists e. by subst s1.
Qed.

Lemma select_frame_tracker s s1 f :
  tracker_ok s → select_frame s = Some (s1, f) →
  tracker_ok s1 ∧ ∀ q, resident s1 q → resident s q.
Proof.
  intros Hok [(i & _ & _ & -> & _) | (s0 & v & _ & Hp & He)]%select_frame_inv;
    [by split|].
  destruct (eviction_tracker _ _ _ _ _ Hok Hp He) as (? & _ & Hnv & Hres & _).
  split; [done|]. intros q Hq. apply Hres; [|done]. by intros ->.
Qed.

(** [updateLRU] moves the node of the page to the front. *)
Lemma updateLRU_tracker s p s' :
  tracker_ok s → policy s = LRU → updateLRU s p = Some s' →
  tracker_ok s' ∧
  (((p ∉ tracker s) ∧ s' = s) ∨
   (∃ l1 l2, tracker s = l1 ++ p :: l2 ∧ tracker s' = p :: l1 ++ l2)).
Proof.
  intros Hok Hpol Hup. pose proof Hok as (Hnd & Hmem & Hlen & Hlru).
  destruct (Hlru Hpol) as (Hids & Hfresh & Hmap). clear Hlru.
  unfold tracker in Hnd, Hmem, Hlen |- *. rewrite Hpol in Hnd, Hmem, Hlen |- *.
  apply updateLRU_inv in Hup as [[Hno ->] | (nd & l & Hnd' & Hl & ->)].
  - split; [done|]. left. split; [|done].
    intros ([n q] & -> & Hin)%list_elem_of_fmap. simpl in Hno.
    apply Hmap in Hin. congruence.
  - apply erase_node_inv in Hl as (l1 & v & l2 & Hl & -> & Hnot).
    assert (v = p) as ->.
    { apply Hmap in Hnd'. rewrite Hl in Hnd', Hids.
      rewrite fmap_app, fmap_cons in Hids. simpl in Hids.
      apply NoDup_app in Hids as (_ & Hd1 & Hd2).
      apply NoDup_cons in Hd2 as [Hd2 _].
      apply elem_of_app in Hnd' as [Hin|Hin].
      - destruct Hnot. apply list_elem_of_fmap. by exists (nd, p).
      - apply elem_of_cons in Hin as [Heq|Hin]; [by simplify_eq|].
        destruct Hd2. apply list_elem_of_fmap. by exists (nd, p). }
    clear Hok. rewrite Hl in *. clear Hl.
    rewrite fmap_app, fmap_cons in Hnd. rewrite fmap_app, fmap_cons in Hlen.
    rewrite fmap_app, fmap_cons in Hids.
    setoid_rewrite fmap_app in Hmem. setoid_rewrite fmap_cons in Hmem.
    simpl in *.
    assert ((p ∉ l1.*2) ∧ (p ∉ l2.*2) ∧ NoDup (l1.*2 ++ l2.*2))
      as (Hp1 & Hp2 & Hnd12).
    { apply NoDup_app in Hnd as (Hn1 & Hdisj & Hn2).
      apply NoDup_cons in Hn2 as [Hp2 Hn2].
      split; [|split; [done|]].
      - intros Hin. apply (Hdisj p Hin). apply elem_of_cons; by left.
      - apply NoDup_app. split; [done|]. split; [|done].
        intros q Hq Hq2. apply (Hdisj q Hq). apply elem_of_cons; by right. }
    split.
    + unfold tracker_ok, tracker. simpl.
      rewrite Hpol. rewrite !fmap_app.
      split; [|split; [|split]].
      * apply NoDup_cons. split; [|done]. rewrite elem_of_app. tauto.
      * intros q.
        change (resident (push_front_lru s (l1 ++ l2) (lruMap s) p) q)
          with (resident s q).
        rewrite <- Hmem.
        rewrite elem_of_cons, !elem_of_app, elem_of_cons. tauto.
      * change (count_resident (push_front_lru s (l1 ++ l2) (lruMap s) p))
          with (count_resident s).
        rewrite <- Hlen. simpl. rewrite !length_app. simpl. lia.
      * intros _. simpl.
        apply NoDup_app in Hids as (Hi1 & Hdisj & Hi2).
        apply NoDup_cons in Hi2 as [Hnd2 Hi2].
        split; [|split].
        -- apply NoDup_cons. split.
           ++ intros Hin. assert (nextNode s < nextNode s)%nat; [|lia].
              apply Hfresh. rewrite fmap_app, fmap_cons.
              rewrite fmap_app in Hin. rewrite elem_of_app in *.
              rewrite elem_of_cons. tauto.
           ++ rewrite fmap_app. apply NoDup_app. split; [done|]. split; [|done].
              intros n Hn Hn2. apply (Hdisj n Hn). apply elem_of_cons; by right.
        -- intros n [->|Hin]%elem_of_cons; [lia|].
           assert (n < nextNode s)%nat; [|lia]. apply Hfresh.
           rewrite fmap_app, fmap_cons. rewrite fmap_app in Hin.
           rewrite elem_of_app in *. rewrite elem_of_cons. tauto.
        -- intros q n. rewrite elem_of_cons, elem_of_app.
           destruct (decide (q = p)) as [->|Hne].
           ++ rewrite lookup_insert_eq. split; [naive_solver|].
              intros [?|[Hin|Hin]]; [naive_solver| |].
              ** destruct Hp1. apply list_elem_of_fmap. by exists (n, p).
              ** destruct Hp2. apply list_elem_of_fmap. by exists (n, p).
           ++ rewrite lookup_insert_ne by done.
              rewrite Hmap, elem_of_app, elem_of_cons. naive_solver.
    + right. exists l1.*2, l2.*2. simpl. by rewrite Hpol, !fmap_app.
Qed.

Lemma updateLRU_completes s p :
  tracker_ok s → policy s = LRU → is_Some (updateLRU s p).
Proof.
  intros (_ & _ & _ & Hlru) Hpol. destruct (Hlru Hpol) as (_ & _ & Hmap).
  unfold updateLRU. destruct (lruMap s !! p) as [nd|] eqn:Hnd; [|eauto].
  apply Hmap in Hnd. destruct (erase_node_present _ _ _ Hnd) as [l ->].
  simpl. eauto.
Qed.

(** ** One translated request, seen from the tracker *)

Lemma eviction_order_tracker s :
  eviction_order s = match policy s with
                     | FIFO => tracker s
                     | LRU => reverse (tracker s)
                     end.
Proof. unfold eviction_order, tracker. by destruct (policy s). Qed.

Lemma elem_of_eviction_order s q : q ∈ eviction_order s ↔ q ∈ tracker s.
Proof.
  rewrite eviction_order_tracker. destruct (policy s); [done|].
  apply elem_of_reverse.
Qed.

Lemma length_eviction_order s : length (eviction_order s) = length (tracker s).
Proof.
  rewrite eviction_order_tracker. destruct (policy s); [done|].
  apply length_reverse.
Qed.

(** The fault handler, on a page that is not resident. *)
Lemma handlePageFault_step s p s' :
  tracker_ok s → ¬ resident s p → handlePageFault s p = Some s' →
  tracker_ok s' ∧
  ∃ victim,
    order_step (policy s) p true victim (eviction_order s) (eviction_order s') ∧
    (∀ q, resident s' q ↔ q = p ∨ (resident s q ∧ victim ≠ Some q)) ∧
    (∀ v, victim = Some v → resident s v) ∧
    (victim = None ↔
     ∃ i, find_free (frameTable s) 0 = Some i ∧ to_int i ≠ (-1)%Z).
Proof.
  intros Hok Hnr (s1 & f & Hsel & Hload)%handlePageFault_inv.
  pose proof (select_frame_config _ _ _ Hsel) as (_ & _ & _ & _ & Hpol1 & _).
  destruct (select_frame_tracker _ _ _ Hok Hsel) as [Hok1 Hsub].
  assert (¬ resident s1 p) as Hnr1 by (intros ?%Hsub; done).
  destruct (load_page_tracker _ _ _ _ Hok1 Hnr1 Hload)
    as (Hok' & Hp' & Hres' & Htr').
  pose proof (load_page_config _ _ _ _ Hload) as (_ & _ & _ & _ & Hpol' & _).
  assert (eviction_order s' = eviction_order s1 ++ [p]) as Hord'.
  { rewrite !eviction_order_tracker, Hpol', Htr'.
    destruct (policy s1); [done|]. by rewrite reverse_cons. }
  split; [done|].
  apply select_frame_inv in Hsel
    as [(i & Hi & Hni & -> & ->) | (s0 & v & Hfree & Hpop & Hev)].
  - exists None. split; [|split; [|split]].
    + rewrite Hord'. constructor.
    + intros q. destruct (decide (q = p)) as [->|Hne]; [naive_solver|].
      rewrite Hres' by done. naive_solver.
    + done.
    + split; [eauto|done].
  - destruct (eviction_tracker _ _ _ _ _ Hok Hpop Hev)
      as (_ & Hrv & Hnv & Hres1 & Htr & _).
    assert (eviction_order s = v :: eviction_order s1) as Hord.
    { rewrite !eviction_order_tracker, Hpol1, Htr.
      destruct (policy s); [done|]. by rewrite reverse_app. }
    exists (Some v). split; [|split; [|split]].
    + rewrite Hord, Hord'. constructor.
    + intros q. destruct (decide (q = p)) as [->|Hne]; [naive_solver|].
      rewrite Hres' by done.
      destruct (decide (q = v)) as [->|Hnv']; [naive_solver|].
      rewrite Hres1 by done. naive_solver.
    + by intros ? [= <-].
    + split; [done|]. intros (i & Hi & Hni).
      destruct Hfree as [Hno | (i' & Hi' & ?)]; congruence.
Qed.

Lemma handlePageFault_step_counted s p s' a b :
  tracker_ok s → ¬ resident s p →
  handlePageFault (set_pageFaults (set_accesses s a) b) p = Some s' →
  tracker_ok s' ∧
  ∃ victim,
    order_step (policy s) p true victim (eviction_order s) (eviction_order s') ∧
    (∀ q, resident s' q ↔ q = p ∨ (resident s q ∧ victim ≠ Some q)) ∧
    (∀ v, victim = Some v → resident s v) ∧
    (victim = None ↔
     ∃ i, find_free (frameTable s) 0 = Some i ∧ to_int i ≠ (-1)%Z).
Proof. exact (handlePageFault_step (set_pageFaults (set_accesses s a) b) p s'). Qed.

Lemma accessAddress_step s segIdx offset s' t :
  tracker_ok s → accessAddress s segIdx offset = Some (s', Translated t) →
  tracker_ok s' ∧
  ∃ victim,
    order_step (policy s) (t_page t) (t_fault t) victim
      (eviction_order s) (eviction_order s') ∧
    (∀ q, resident s' q ↔ q = t_page t ∨ (resident s q ∧ victim ≠ Some q)) ∧
    (∀ v, victim = Some v → resident s v ∧ t_fault t = true) ∧
    (t_fault t = true →
     (victim = None ↔
      ∃ i, find_free (frameTable s) 0 = Some i ∧ to_int i ≠ (-1)%Z)).
Proof.
  intros Hok Ha.
  pose proof (accessAddress_translated _ _ _ _ _ Ha) as (_ & _ & Hres & _).
  apply accessAddress_inv in Ha
    as [(_ & _ & ?) | [(seg & _ & _ & _ & ?) |
        (seg & e & s2 & e' & Hseg & Ho & Hz & He & Hs2 & Hs' & He' & Hr)]];
    [done|done|].
  simplify_eq/=.
  set (p := size_wrap (base seg + offset) / pageSize s) in *.
  (* the state before the LRU update *)
  assert (tracker_ok s2 ∧
          ∃ victim o2,
            (policy s2 = policy s) ∧
            eviction_order s2 = o2 ∧
            (if valid e then victim = None ∧ o2 = eviction_order s
             else order_step (policy s) p true victim (eviction_order s) o2) ∧
            (∀ q, resident s2 q ↔ q = p ∨ (resident s q ∧ victim ≠ Some q)) ∧
            (∀ v, victim = Some v → resident s v ∧ valid e = false) ∧
            (valid e = false →
             (victim = None ↔
              ∃ i, find_free (frameTable s) 0 = Some i ∧ to_int i ≠ (-1)%Z)))
    as (Hok2 & victim & o2 & Hpol2 & Ho2 & Hstep2 & Hres2 & Hvic & Hfree).
  { destruct (valid e) eqn:Hv.
    - subst s2. split; [done|]. exists None, (eviction_order s).
      repeat split; try done.
      + intros Hq. right. split; [|done]. exact Hq.
      + intros [->|[? _]]; [|done]. by apply Hres.
    - assert (¬ resident s p) as Hnr.
      { intros Hr%Hres. done. }
      pose proof (handlePageFault_config _ _ _ Hs2) as (_ & _ & _ & _ & Hpol & _).
      destruct (handlePageFault_step_counted _ _ _ _ _ Hok Hnr Hs2)
        as (Hok2 & victim & Hstep & Hr2 & Hvic & Hfree).
      split; [done|]. exists victim, (eviction_order s2).
      repeat split; try done.
      + by apply Hr2.
      + by apply Hr2.
      + by eapply Hvic.
      + by apply Hfree.
      + by apply Hfree. }
  assert (p ∈ eviction_order s2) as Hin2.
  { apply elem_of_eviction_order. destruct Hok2 as (_ & Hmem & _).
    apply Hmem, Hres2. by left. }
  assert (∀ q, resident s' q ↔ resident s2 q) as Hres'.
  { intros q. rewrite !resident_lookup.
    destruct (policy s2); [by simplify_eq|].
    apply updateLRU_tables in Hs' as (-> & _). done. }
  destruct (policy s2) eqn:Hp2.
  - (* FIFO *)
    simplify_eq. split; [done|]. exists victim.
    split; [|split; [|split]].
    + destruct (valid e); simpl.
      * destruct Hstep2 as [-> ->]. by constructor.
      * done.
    + intros q. etrans; [apply Hres'|apply Hres2].
    + intros v Hv. destruct (Hvic v Hv) as [? ->]. done.
    + intros Hf. apply Hfree. by destruct (valid e).
  - (* LRU *)
    destruct (updateLRU_tracker _ _ _ Hok2 Hp2 Hs')
      as [Hok' [[Hnot _] | (l1 & l2 & Htr2 & Htr')]].
    { destruct Hnot. by apply elem_of_eviction_order. }
    pose proof (updateLRU_config _ _ _ Hs') as (_ & _ & _ & _ & Hpol' & _).
    assert (eviction_order s2 = reverse l2 ++ p :: reverse l1) as Ho2'.
    { rewrite eviction_order_tracker, Hp2, Htr2, reverse_app, reverse_cons.
      by rewrite <- app_assoc. }
    assert (eviction_order s' = reverse l2 ++ reverse l1 ++ [p]) as Ho'.
    { rewrite eviction_order_tracker, Hpol', Hp2, Htr', reverse_cons, reverse_app.
      by rewrite <- app_assoc. }
    split; [done|]. exists victim.
    split; [|split; [|split]].
    + rewrite Ho', <- Hpol2.
      destruct (valid e); simpl.
      * destruct Hstep2 as [-> Heq]. rewrite <- Heq, <- Ho2, Ho2'.
        by constructor.
      * (* the page was pushed last by the handler and stays last *)
        assert ((p ∉ reverse l2) ∧ reverse l1 = []) as [Hnl2 Hl1].
        { destruct Hok2 as (Hnd & _).
          assert (NoDup (eviction_order s2)) as Hnd2.
          { rewrite eviction_order_tracker, Hp2. by rewrite reverse_Permutation. }
          assert (∃ o, eviction_order s2 = o ++ [p]) as [o Hlast].
          { rewrite Ho2. inversion Hstep2; subst; eauto. }
          rewrite Ho2' in Hnd2, Hlast.
          apply NoDup_app in Hnd2 as (_ & Hdisj & Hnd2).
          apply NoDup_cons in Hnd2 as [Hnp _].
          split.
          - intros Hin. apply (Hdisj _ Hin). apply elem_of_cons. by left.
          - destruct (reverse l1) as [|x r] using rev_ind; [done|].
            exfalso. rewrite app_comm_cons, app_assoc in Hlast.
            apply app_inj_tail in Hlast as [_ ->].
            apply Hnp. apply elem_of_app. right.
            by apply list_elem_of_singleton. }
        rewrite Hl1 in Ho2' |- *. simpl in Ho2' |- *.
        rewrite Ho2' in Ho2. subst o2. by rewrite <- Hpol2 in Hstep2.
    + intros q. etrans; [apply Hres'|apply Hres2].
    + intros v Hv. destruct (Hvic v Hv) as [? ->]. done.
    + intros Hf. apply Hfree. by destruct (valid e).
Qed.

(** ** Histories *)

Lemma last_load_lt log p t : last_load log p = Some t → (t < length log)%nat.
Proof.
  induction log as [|[q b] log IH]; simpl; [done|].
  destruct ((q =? p) && b); [intros [= <-]; lia|].
  intros ?%IH. lia.
Qed.

Lemma last_access_lt log p t : last_access log p = Some t → (t < length log)%nat.
Proof.
  induction log as [|[q b] log IH]; simpl; [done|].
  destruct (q =? p); [intros [= <-]; lia|].
  intros ?%IH. lia.
Qed.

Lemma policy_time_lt pol log p t :
  policy_time pol log p = Some t → (t < length log)%nat.
Proof. destruct pol; [apply last_load_lt | apply last_access_lt]. Qed.

Lemma policy_time_other pol log p b q :
  q ≠ p → policy_time pol ((p, b) :: log) q = policy_time pol log q.
Proof.
  intros Hne. destruct pol; simpl;
    by destruct (N.eqb_spec p q) as [->|_].
Qed.

Lemma policy_time_hit_fifo log p q :
  policy_time FIFO ((p, false) :: log) q = policy_time FIFO log q.
Proof. simpl. by rewrite andb_false_r. Qed.

Lemma policy_time_fault pol log p :
  policy_time pol ((p, true) :: log) p = Some (length log).
Proof. destruct pol; simpl; by rewrite N.eqb_refl. Qed.

Lemma policy_time_access_lru log p b :
  policy_time LRU ((p, b) :: log) p = Some (length log).
Proof. simpl. by rewrite N.eqb_refl. Qed.

Section ordered.
Implicit Types (time : N → option nat) (o : list N).

Lemma ordered_by_nil time : ordered_by time [].
Proof. split; constructor. Qed.

Lemma ordered_by_ext time time' o :
  (∀ q, q ∈ o → time' q = time q) → ordered_by time o → ordered_by time' o.
Proof.
  intros Hext [Hs Hf]. split.
  - induction Hs as [|a l Hs IH Hall]; [constructor|].
    constructor.
    + apply IH; [|by inversion Hf]. intros q Hq. apply Hext. by right.
    + rewrite Forall_forall in Hall |- *. intros q Hq.
      destruct (Hall q Hq) as (ta & tb & Ha & Hb & Hlt).
      exists ta, tb. rewrite !Hext; [done|by right|by left].
  - rewrite Forall_forall in Hf |- *. intros q Hq. rewrite Hext by done.
    by apply Hf.
Qed.

Lemma ordered_by_snoc time o p t :
  ordered_by time o → time p = Some t →
  (∀ q tq, q ∈ o → time q = Some tq → (tq < t)%nat) →
  ordered_by time (o ++ [p]).
Proof.
  intros [Hs Hf] Hp Hlt. split.
  - apply StronglySorted_app. split; [|split; [done|]].
    + intros q r Hq ->%list_elem_of_singleton.
      rewrite Forall_forall in Hf. destruct (Hf q Hq) as [tq Htq].
      exists tq, t. eauto.
    + repeat constructor.
  - apply Forall_app. split; [done|]. constructor; [eauto|constructor].
Qed.

Lemma ordered_by_tail time v o : ordered_by time (v :: o) → ordered_by time o.
Proof.
  intros [Hs Hf]. apply StronglySorted_cons in Hs as [_ Hs].
  apply Forall_cons in Hf as [_ Hf]. by split.
Qed.

Lemma ordered_by_head time v o q :
  ordered_by time (v :: o) → q ∈ o → earlier time v q.
Proof.
  intros [Hs _] Hq. apply StronglySorted_cons in Hs as [Hall _].
  rewrite Forall_forall in Hall. by apply Hall.
Qed.

Lemma ordered_by_delete time o1 p o2 :
  ordered_by time (o1 ++ p :: o2) → ordered_by time (o1 ++ o2).
Proof.
  intros [Hs Hf]. apply StronglySorted_app in Hs as (Hcross & Hs1 & Hs2).
  apply StronglySorted_cons in Hs2 as [_ Hs2].
  apply Forall_app in Hf as [Hf1 Hf2]. apply Forall_cons in Hf2 as [_ Hf2].
  split.
  - apply StronglySorted_app. split; [|done].
    intros a b Ha Hb. apply Hcross; [done|by right].
  - by apply Forall_app.
Qed.
End ordered.

Lemma fresh_tracker_ok s : fresh s → tracker_ok s.
Proof.
  intros (Hpt & _ & Hq & Hl & Hm).
  assert (∀ p, ¬ resident s p) as Hnr.
  { intros p (e & He & Hv)%resident_lookup.
    rewrite Forall_forall in Hpt. apply list_elem_of_lookup_2 in He.
    apply Hpt in He. congruence. }
  assert (tracker s = []) as Htr.
  { unfold tracker. rewrite Hq, Hl. by destruct (policy s). }
  unfold tracker_ok. rewrite Htr. split; [constructor|].
  split; [|split].
  - intros p. split; [by intros ?%elem_of_nil | by intros ?%Hnr].
  - unfold count_resident. rewrite count_none; [done|].
    eapply Forall_impl; [exact Hpt|]. simpl. intros e ->. done.
  - intros _. rewrite Hl, Hm. split; [constructor|].
    split; [by intros ? ?%elem_of_nil|].
    intros p nd. rewrite lookup_empty. split; [done | by intros ?%elem_of_nil].
Qed.

Lemma fresh_history_ok s : fresh s → history_ok s [].
Proof.
  intros Hf. split; [by apply fresh_tracker_ok|].
  destruct Hf as (_ & _ & Hq & Hl & _).
  unfold eviction_order. rewrite Hq, Hl. destruct (policy s); apply ordered_by_nil.
Qed.

Lemma accessAddress_tracker_ok s segIdx offset s' r :
  tracker_ok s → accessAddress s segIdx offset = Some (s', r) → tracker_ok s'.
Proof.
  intros Hok Ha. destruct r as [| |t].
  - apply accessAddress_rejected in Ha as [_ ->]; [done|by left].
  - apply accessAddress_rejected in Ha as [_ ->]; [done|by right].
  - by apply (accessAddress_step _ _ _ _ _ Hok Ha).
Qed.

Lemma accessAddress_history_ok s log segIdx offset s' r :
  history_ok s log → accessAddress s segIdx offset = Some (s', r) →
  history_ok s' (events r ++ log).
Proof.
  intros [Hok Hord] Ha.
  pose proof (accessAddress_config _ _ _ _ _ Ha) as (_ & _ & _ & _ & Hpol & _).
  destruct r as [| |t]; simpl.
  - apply accessAddress_rejected in Ha as [_ ->]; [done|by left].
  - apply accessAddress_rejected in Ha as [_ ->]; [done|by right].
  - pose proof (accessAddress_translated _ _ _ _ _ Ha) as (_ & _ & Hhit & _).
    destruct (accessAddress_step _ _ _ _ _ Hok Ha)
      as (Hok' & victim & Hstep & Hres & Hvic & _).
    split; [done|]. rewrite Hpol.
    set (p := t_page t) in *. set (pol := policy s) in *.
    set (time := policy_time pol log) in *.
    set (time' := policy_time pol ((p, t_fault t) :: log)).
    assert (∀ q, q ≠ p → time' q = time q) as Hother.
    { intros q Hq. by apply policy_time_other. }
    assert (∀ q tq, time q = Some tq → (tq < length log)%nat) as Hlt.
    { intros q tq. apply policy_time_lt. }
    assert (NoDup (eviction_order s)) as Hnd.
    { destruct Hok as (Hnd & _). rewrite eviction_order_tracker.
      fold pol. destruct pol; [done|]. by rewrite reverse_Permutation. }
    assert (∀ q, q ∈ eviction_order s ↔ resident s q) as Hmem.
    { intros q. rewrite elem_of_eviction_order. by apply Hok. }
    assert (∀ o, ordered_by time o → p ∉ o → time' p = Some (length log) →
                 ordered_by time' (o ++ [p])) as Hpush.
    { intros o Ho Hnot Hp. eapply ordered_by_snoc; [|exact Hp|].
      - eapply ordered_by_ext; [|exact Ho].
        intros q Hq. apply Hother. by intros ->.
      - intros q tq Hq. rewrite Hother by (by intros ->). apply Hlt. }
    clear Hres Hvic.
    remember (t_fault t) as b eqn:Hb.
    remember (eviction_order s) as o eqn:Ho.
    remember (eviction_order s') as o' eqn:Ho'.
    destruct Hstep as [o Hp | o1 o2 Hp | o | v o].
    + (* hit, FIFO *)
      eapply ordered_by_ext; [|exact Hord].
      intros q _. subst time' time. rewrite Hp. apply policy_time_hit_fifo.
    + (* hit, LRU *)
      rewrite app_assoc. apply Hpush.
      * by eapply ordered_by_delete.
      * apply NoDup_app in Hnd as (_ & Hdisj & Hnd2).
        apply NoDup_cons in Hnd2 as [Hnp _].
        intros [Hin|Hin]%elem_of_app; [|done].
        apply (Hdisj _ Hin). by left.
      * subst time'. rewrite Hp. apply policy_time_access_lru.
    + (* fault into a free frame *)
      apply Hpush; [done| |].
      * rewrite Hmem. intros Hr%Hhit. congruence.
      * subst time'. apply policy_time_fault.
    + (* fault with an eviction *)
      apply Hpush.
      * by eapply ordered_by_tail.
      * intros Hin. assert (p ∈ v :: o) as Hin' by (by right).
        apply Hmem, Hhit in Hin'. congruence.
      * subst time'. apply policy_time_fault.
Qed.

Lemma run_history_ok s0 reqs s log :
  fresh s0 → run s0 [] reqs = Some (s, log) → history_ok s log.
Proof.
  intros Hf Hrun.
  eapply (run_invariant history_ok); [|by apply fresh_history_ok|exact Hrun].
  intros. by eapply accessAddress_history_ok.
Qed.

(** ** Replacement policies *)

(** What a translated request does when the handler finds no free frame:
    the head of the eviction order leaves, and it is earlier than every
    other resident page in the time of the active policy. *)
Lemma eviction_takes_earliest s log segIdx offset s' t :
  history_ok s log →
  accessAddress s segIdx offset = Some (s', Translated t) →
  t_fault t = true → find_free (frameTable s) 0 = None →
  ∃ victim rest,
    eviction_order s = victim :: rest ∧
    eviction_order s' = rest ++ [t_page t] ∧
    resident s victim ∧ ¬ resident s' victim ∧
    (∀ q, resident s q → q ≠ victim →
          earlier (policy_time (policy s) log) victim q) ∧
    (∀ q, q ≠ victim → q ≠ t_page t → (resident s' q ↔ resident s q)).
Proof.
  intros [Hok Hord] Ha Hf Hfree.
  pose proof (accessAddress_translated _ _ _ _ _ Ha) as (_ & _ & Hhit & _).
  destruct (accessAddress_step _ _ _ _ _ Hok Ha)
    as (Hok' & victim & Hstep & Hres & Hvic & Hnone).
  assert (∀ q, q ∈ eviction_order s ↔ resident s q) as Hmem.
  { intros q. rewrite elem_of_eviction_order. by apply Hok. }
  assert (NoDup (eviction_order s)) as Hnd.
  { destruct Hok as (Hnd & _). rewrite eviction_order_tracker.
    destruct (policy s); [done|]. by rewrite reverse_Permutation. }
  destruct victim as [v|]; last first.
  { destruct (proj1 (Hnone Hf) eq_refl) as (i & Hi & _). congruence. }
  destruct (Hvic v eq_refl) as [Hrv _].
  assert (v ≠ t_page t) as Hvp.
  { intros ->. apply Hhit in Hrv. congruence. }
  remember (t_fault t) as b eqn:Hb.
  remember (eviction_order s) as o eqn:Ho.
  remember (eviction_order s') as o' eqn:Ho'.
  remember (Some v) as ov eqn:Hov.
  destruct Hstep as [o Hp | o1 o2 Hp | o | v' o]; simplify_eq.
  exists v, o. split; [done|]. split; [done|]. split; [done|].
  split; [|split].
  - rewrite Hres. intros [?|[_ ?]]; done.
  - intros q Hq Hne. eapply ordered_by_head; [exact Hord|].
    apply Hmem in Hq. apply elem_of_cons in Hq as [?|?]; done.
  - intros q Hqv Hqp. rewrite Hres. split; [|naive_solver].
    intros [?|[? _]]; done.
Qed.

(** C3.  Under FIFO, in any state reached from a fresh manager: a hit
    leaves the queue as it is; a fault that finds no free frame evicts the
    head of the queue, which is resident and was loaded before every other
    resident page (by the time of its last load), and appends the new page;
    no other page changes residency. *)
Theorem fifo_evicts_earliest_loaded s0 reqs s log segIdx offset s' t :
  fresh s0 → policy s0 = FIFO →
  run s0 [] reqs = Some (s, log) →
  accessAddress s segIdx offset = Some (s', Translated t) →
  (∀ q, q ∈ fifoQueue s ↔ resident s q) ∧
  (t_fault t = false → fifoQueue s' = fifoQueue s) ∧
  (t_fault t = true → find_free (frameTable s) 0 = None →
   ∃ victim,
     head (fifoQueue s) = Some victim ∧
     fifoQueue s' = tail (fifoQueue s) ++ [t_page t] ∧
     resident s victim ∧ ¬ resident s' victim ∧
     (∀ q, resident s q → q ≠ victim → loaded_before log victim q) ∧
     (∀ q, q ≠ victim → q ≠ t_page t → (resident s' q ↔ resident s q))).
Proof.
  intros Hfresh Hpol0 Hrun Ha.
  pose proof (run_history_ok _ _ _ _ Hfresh Hrun) as Hhist.
  pose proof (run_config _ _ _ _ _ Hrun) as (_ & _ & _ & _ & Hpol & _).
  rewrite Hpol0 in Hpol.
  pose proof (accessAddress_config _ _ _ _ _ Ha) as (_ & _ & _ & _ & Hpol' & _).
  rewrite Hpol in Hpol'.
  assert (eviction_order s = fifoQueue s) as Ho
    by (unfold eviction_order; by rewrite Hpol).
  assert (eviction_order s' = fifoQueue s') as Ho'
    by (unfold eviction_order; by rewrite Hpol').
  split; [|split].
  - intros q. rewrite <- Ho, elem_of_eviction_order. by apply Hhist.
  - intros Hhit. destruct Hhist as [Hok _].
    destruct (accessAddress_step _ _ _ _ _ Hok Ha) as (_ & victim & Hstep & _).
    rewrite Ho, Ho', Hhit, Hpol in Hstep.
    remember (fifoQueue s) as o. remember (fifoQueue s') as o'.
    remember false as b.
    by destruct Hstep as [o Hp | o1 o2 Hp | o | v o].
  - intros Hf Hfree.
    destruct (eviction_takes_earliest _ _ _ _ _ _ Hhist Ha Hf Hfree)
      as (v & rest & Hs & Hs' & Hrv & Hnv & Hearly & Hkeep).
    rewrite Ho in Hs. rewrite Ho' in Hs'. rewrite Hpol in Hearly.
    exists v. rewrite Hs, Hs'. done.
Qed.




Lemma three_pages_two_frames_fresh pol : fresh (three_pages_two_frames pol).
Proof. repeat split; repeat constructor. Qed.

(** Pages 0 and 1 are loaded, page 0 is hit, then page 2 faults: FIFO evicts
    page 0, the earliest loaded, in spite of the hit. *)
Lemma fifo_evicts_earliest_loaded_witness :
  ∃ s log s' t,
    run (three_pages_two_frames FIFO) [] [(0, 0); (0, 1); (0, 0)] = Some (s, log) ∧
    accessAddress s 0 2 = Some (s', Translated t) ∧
    t_fault t = true ∧ find_free (frameTable s) 0 = None ∧
    fifoQueue s = [0; 1] ∧ fifoQueue s' = [1; 2] ∧
    resident s 1 ∧ ¬ resident s' 0 ∧ loaded_before log 0 1.
Proof.
  eexists _, _, _, _.
  split; [vm_compute; reflexivity|].
  split; [vm_compute; reflexivity|].
  split; [reflexivity|]. split; [reflexivity|].
  split; [reflexivity|]. split; [reflexivity|].
  match goal with
  | |- resident ?s _ ∧ ¬ resident ?s' _ ∧ loaded_before ?log _ _ =>
      destruct (fifo_evicts_earliest_loaded (three_pages_two_frames FIFO)
                  [(0, 0); (0, 1); (0, 0)] s log 0 2 s' _
                  (three_pages_two_frames_fresh FIFO) eq_refl eq_refl eq_refl)
        as (Hmem & _ & Hev)
  end.
  destruct (Hev eq_refl eq_refl) as (v & Hhead & _ & _ & Hnv & Hearly & _).
  injection Hhead as <-.
  assert (Hr1 : 1 ∈ [0; 1]) by (right; left).
  apply Hmem in Hr1.
  split; [exact Hr1|]. split; [exact Hnv|].
  apply Hearly; [exact Hr1 | discriminate].
Defined.


(** ** Conversions between [size_t] and [int] *)

Lemma to_int_range n : (- 2 ^ 31 ≤ to_int n < 2 ^ 31)%Z.
Proof.
  unfold to_int. pose proof (Z.mod_pos_bound (Z.of_N n) (2 ^ 32)) as H.
  destruct (Z.ltb_spec (Z.of_N n mod 2 ^ 32) (2 ^ 31)); lia.
Qed.

Lemma to_int_small n : (Z.of_N n < 2 ^ 31)%Z → to_int n = Z.of_N n.
Proof.
  intros H. unfold to_int. rewrite Z.mod_small by lia.
  destruct (Z.ltb_spec (Z.of_N n) (2 ^ 31)); lia.
Qed.

Lemma to_int_first_wide : to_int (2 ^ 31) = (- 2 ^ 31)%Z.
Proof. reflexivity. Qed.

Lemma to_size_t_nonneg z : (0 ≤ z < 2 ^ 64)%Z → to_size_t z = Z.to_N z.
Proof. intros H. unfold to_size_t. by rewrite Z.mod_small. Qed.

Lemma to_size_t_neg z :
  (- 2 ^ 64 ≤ z < 0)%Z → Z.of_N (to_size_t z) = (2 ^ 64 + z)%Z.
Proof.
  intros H. unfold to_size_t.
  rewrite Z2N.id by (apply Z.mod_pos_bound; lia).
  symmetry. apply (Z.mod_unique z (2 ^ 64) (-1)); lia.
Qed.

Lemma to_size_t_of_nat (j : nat) :
  (Z.of_nat j < 2 ^ 64)%Z → N.to_nat (to_size_t (Z.of_nat j)) = j.
Proof. intros H. rewrite to_size_t_nonneg by lia. lia. Qed.

(** ** The frame invariant *)

Lemma count_split (ft : list Z) :
  (length (filter (λ z, z = (-1)%Z) ft)
   + length (filter (λ z, z ≠ (-1)%Z) ft) = length ft)%nat.
Proof.
  induction ft as [|x ft IH]; [done|].
  rewrite !filter_cons. repeat case_decide; simpl; lia.
Qed.

Lemma count_occupied_insert s s' (j : nat) z z0 :
  frameTable s' = <[j := z]> (frameTable s) →
  frameTable s !! j = Some z0 →
  (count_occupied s' + (if decide (z0 = (-1)%Z) then 0 else 1)
   = count_occupied s + (if decide (z = (-1)%Z) then 0 else 1))%nat.
Proof.
  intros Hft Hz0. unfold count_occupied. rewrite Hft.
  pose proof (count_insert (λ z, z ≠ (-1)%Z) _ _ z _ Hz0) as H.
  cbv beta in H. repeat case_decide; simplify_eq; lia.
Qed.

(** Loading a non-resident page into a free frame. *)
Lemma load_page_frames s (j : nat) p s' :
  frames_ok s → frameTable s !! j = Some (-1)%Z → ¬ resident s p →
  load_page s (Z.of_nat j) p = Some s' → frames_ok s'.
Proof.
  intros (Hlf & Hlp & Ha & Hb & Hc) Hj Hnr Hload.
  pose proof (load_page_entry _ _ _ _ Hload) as [Hpt _].
  apply load_page_inv in Hload as (Hp & Hidx & Hs'). cbv zeta in Hs'.
  pose proof (lookup_lt_Some _ _ _ Hj) as Hjlt.
  rewrite to_size_t_of_nat in Hs' by lia.
  assert (to_int p = Z.of_nat (N.to_nat p)) as Hip.
  { rewrite to_int_small by lia. lia. }
  rewrite Hip in Hs'.
  assert (frameTable s' = <[j := Z.of_nat (N.to_nat p)]> (frameTable s)) as Hft.
  { subst s'. by destruct (policy s). }
  destruct (lookup_lt_is_Some_2 _ _ Hp) as [e0 He0].
  assert (valid e0 = false) as Hv0.
  { destruct (valid e0) eqn:Hv; [|done]. destruct Hnr.
    apply resident_lookup. eauto. }
  unfold frames_ok. rewrite Hpt, Hft, !length_insert.
  split; [done|]. split; [done|]. split; [|split].
  - intros q e Hq Hv. destruct (decide (q = N.to_nat p)) as [->|Hne].
    + rewrite list_lookup_insert_eq in Hq by done. simplify_eq/=.
      exists j. split; [done|]. by apply list_lookup_insert_eq.
    + rewrite list_lookup_insert_ne in Hq by done.
      destruct (Ha q e Hq Hv) as (f & Hf & Hfq). exists f. split; [done|].
      rewrite list_lookup_insert_ne; [done|]. intros ->. simplify_eq; lia.
  - intros f z Hf Hz. destruct (decide (f = j)) as [->|Hne].
    + rewrite list_lookup_insert_eq in Hf by done. simplify_eq.
      exists (N.to_nat p), (mkPTE (Z.of_nat j) true).
      split; [done|]. split; [|done]. by apply list_lookup_insert_eq.
    + rewrite list_lookup_insert_ne in Hf by done.
      destruct (Hb f z Hf Hz) as (q & e & -> & Hq & Hv & Hfn).
      exists q, e. split; [done|]. split; [|done].
      rewrite list_lookup_insert_ne; [done|]. intros <-. congruence.
  - pose proof (count_resident_insert s s' p _ _ Hpt He0) as H1.
    pose proof (count_occupied_insert s s' j _ _ Hft Hj) as H2.
    rewrite Hv0 in H1. simpl in H1. repeat case_decide; lia.
Qed.

(** Evicting the victim frees its frame. *)
Lemma eviction_frames s s0 v s1 f :
  frames_ok s → tracker_ok s →
  pop_victim s = Some (s0, v) → evict s0 v = Some (s1, f) →
  frames_ok s1 ∧ ∃ j : nat, f = Z.of_nat j ∧ frameTable s1 !! j = Some (-1)%Z.
Proof.
  intros (Hlf & Hlp & Ha & Hb & Hc) Hok Hpop Hev.
  destruct (eviction_tracker _ _ _ _ _ Hok Hpop Hev)
    as (_ & _ & _ & _ & _ & e & He & Hv & Hf & Hidx & Hpt & Hft).
  destruct (Ha _ _ He Hv) as (j & Hj & Hjv).
  rewrite Hj in Hf. subst f.
  pose proof (lookup_lt_Some _ _ _ Hjv) as Hjlt.
  rewrite to_size_t_of_nat in Hft by lia.
  split; [|exists j; split; [done|]; rewrite Hft; by apply list_lookup_insert_eq].
  unfold frames_ok. rewrite Hpt, Hft, !length_insert.
  split; [done|]. split; [done|]. split; [|split].
  - intros q e1 Hq Hv1. destruct (decide (q = N.to_nat v)) as [->|Hne].
    + rewrite list_lookup_insert_eq in Hq by (by eapply lookup_lt_Some).
      by simplify_eq/=.
    + rewrite list_lookup_insert_ne in Hq by done.
      destruct (Ha q e1 Hq Hv1) as (f & Hf & Hfq). exists f. split; [done|].
      rewrite list_lookup_insert_ne; [done|]. intros ->. simplify_eq; lia.
  - intros f z Hf Hz. destruct (decide (f = j)) as [->|Hne].
    + rewrite list_lookup_insert_eq in Hf by done. by simplify_eq.
    + rewrite list_lookup_insert_ne in Hf by done.
      destruct (Hb f z Hf Hz) as (q & e1 & -> & Hq & Hv1 & Hfn).
      exists q, e1. split; [done|]. split; [|done].
      rewrite list_lookup_insert_ne; [done|]. intros <-. simplify_eq; lia.
  - pose proof (count_resident_insert s s1 v _ _ Hpt He) as H1.
    pose proof (count_occupied_insert s s1 j _ _ Hft Hjv) as H2.
    rewrite Hv in H1. simpl in H1. repeat case_decide; lia.
Qed.

Lemma select_frame_frames s s1 f :
  frames_ok s → tracker_ok s → select_frame s = Some (s1, f) →
  frames_ok s1 ∧ ∃ j : nat, f = Z.of_nat j ∧ frameTable s1 !! j = Some (-1)%Z.
Proof.
  intros Hfr Hok [(i & Hi & _ & -> & ->) | (s0 & v & _ & Hp & He)]%select_frame_inv.
  - split; [done|]. apply find_free_Some in Hi as (j & -> & Hj & _).
    exists j. split; [|done]. destruct Hfr as (Hlf & _).
    pose proof (lookup_lt_Some _ _ _ Hj). rewrite to_int_small; lia.
  - by eapply eviction_frames.
Qed.

Lemma handlePageFault_frames s p s' :
  frames_ok s → tracker_ok s → ¬ resident s p →
  handlePageFault s p = Some s' → frames_ok s'.
Proof.
  intros Hfr Hok Hnr (s1 & f & Hsel & Hload)%handlePageFault_inv.
  destruct (select_frame_frames _ _ _ Hfr Hok Hsel) as (Hfr1 & j & -> & Hj).
  destruct (select_frame_tracker _ _ _ Hok Hsel) as [_ Hsub].
  eapply load_page_frames; [done|done| |done]. by intros ?%Hsub.
Qed.

Lemma handlePageFault_frames_counted s p s' a b :
  frames_ok s → tracker_ok s → ¬ resident s p →
  handlePageFault (set_pageFaults (set_accesses s a) b) p = Some s' →
  frames_ok s'.
Proof. exact (handlePageFault_frames (set_pageFaults (set_accesses s a) b) p s'). Qed.

Lemma accessAddress_frames_ok s segIdx offset s' r :
  frames_ok s → tracker_ok s →
  accessAddress s segIdx offset = Some (s', r) → frames_ok s'.
Proof.
  intros Hfr Hok Ha.
  apply accessAddress_inv in Ha
    as [(_ & -> & _) | [(seg & _ & _ & -> & _) |
        (seg & e & s2 & e' & Hseg & Ho & Hz & He & Hs2 & Hs' & He' & Hr)]];
    [done|done|].
  cbv zeta in *.
  assert (frames_ok s2) as Hfr2.
  { destruct (valid e) eqn:Hv; [by subst|].
    eapply handlePageFault_frames_counted; [done|done| |done].
    intros (e1 & He1 & Hv1)%resident_lookup. apply vec_get_Some in He.
    congruence. }
  destruct (policy s2); [by simplify_eq|].
  apply updateLRU_tables in Hs' as (Hpt & Hft & _).
  unfold frames_ok, count_resident, count_occupied in *.
  by rewrite Hpt, Hft.
Qed.

(** ** The calls complete *)

Lemma no_free_all_occupied s :
  find_free (frameTable s) 0 = None →
  count_occupied s = length (frameTable s) ∧ count_free s = 0%nat.
Proof.
  intros Hall%find_free_None.
  pose proof (count_split (frameTable s)) as Hsplit.
  assert (count_free s = 0%nat) as Hfree.
  { unfold count_free. apply count_none.
    eapply Forall_impl; [exact Hall|]. naive_solver. }
  unfold count_free, count_occupied in *. lia.
Qed.

Lemma pop_victim_completes s :
  tracker_ok s → tracker s ≠ [] →
  ∃ s0 v, pop_victim s = Some (s0, v) ∧ resident s v.
Proof.
  intros Hok Hne. pose proof Hok as (_ & Hmem & _).
  unfold pop_victim, tracker in *. destruct (policy s).
  - destruct (fifoQueue s) as [|v q] eqn:Hq; [done|].
    eexists _, v. split; [done|]. apply Hmem. by left.
  - destruct (lruList s) as [|x l] eqn:Hl using rev_ind; [done|].
    destruct x as [nd v]. rewrite last_snoc. simpl.
    eexists _, v. split; [done|]. apply Hmem.
    rewrite fmap_app. apply elem_of_app. right. by left.
Qed.

Lemma select_frame_completes s :
  frames_ok s → tracker_ok s → frameTable s ≠ [] → is_Some (select_frame s).
Proof.
  intros Hfr Hok Hne. unfold select_frame.
  destruct (find_free (frameTable s) 0) as [i|] eqn:Hi.
  - apply find_free_Some in Hi as (j & -> & Hj & _).
    destruct Hfr as (Hlf & _). pose proof (lookup_lt_Some _ _ _ Hj).
    rewrite to_int_small by lia.
    destruct (Z.eqb_spec (Z.of_N (0 + N.of_nat j)) (-1)); [lia|]. eauto.
  - simpl.
    destruct (no_free_all_occupied _ Hi) as [Hocc _].
    assert (tracker s ≠ []) as Htr.
    { intros Htr. destruct Hok as (_ & _ & Hlen & _).
      destruct Hfr as (_ & _ & _ & _ & Hc). rewrite Htr in Hlen. simpl in Hlen.
      destruct (frameTable s); [done|]. simpl in *. lia. }
    destruct (pop_victim_completes _ Hok Htr) as (s0 & v & Hpop & Hrv).
    rewrite Hpop. simpl.
    assert (pageTable s0 = pageTable s ∧ frameTable s0 = frameTable s)
      as [Hpt0 Hft0].
    { by apply pop_victim_inv in Hpop
        as [(_ & rest & _ & ->) | (_ & nd & l & _ & ->)]. }
    apply resident_lookup in Hrv as (e & He & Hv).
    destruct Hfr as (Hlf & _ & Ha & _).
    destruct (Ha _ _ He Hv) as (j & Hj & Hjv).
    pose proof (lookup_lt_Some _ _ _ Hjv). pose proof (lookup_lt_Some _ _ _ He).
    unfold evict. rewrite Hpt0, Hft0.
    rewrite (proj2 (vec_get_Some _ _ _) He). simpl.
    destruct (vec_set_is_Some (pageTable s) v (mkPTE (frameNumber e) false))
      as [_ [pt ->]]; [lia|]. simpl.
    destruct (vec_set_is_Some (frameTable s) (to_size_t (frameNumber e)) (-1)%Z)
      as [_ [ft ->]]; [|simpl; eauto].
    rewrite Hj, to_size_t_nonneg by lia. lia.
Qed.

Lemma load_page_completes s f p :
  p < N.of_nat (length (pageTable s)) →
  to_size_t f < N.of_nat (length (frameTable s)) →
  is_Some (load_page s f p).
Proof.
  intros Hp Hf. unfold load_page.
  destruct (vec_set_is_Some (pageTable s) p (mkPTE f true)) as [_ [pt ->]];
    [done|]. simpl.
  destruct (vec_set_is_Some (frameTable s) (to_size_t f) (to_int p))
    as [_ [ft ->]]; [done|]. simpl. eauto.
Qed.

Lemma handlePageFault_completes s p :
  frames_ok s → tracker_ok s → frameTable s ≠ [] →
  p < N.of_nat (length (pageTable s)) → is_Some (handlePageFault s p).
Proof.
  intros Hfr Hok Hne Hp. unfold handlePageFault.
  destruct (select_frame_completes _ Hfr Hok Hne) as [[s1 f] Hsel].
  rewrite Hsel. simpl.
  destruct (select_frame_frames _ _ _ Hfr Hok Hsel)
    as ((Hlf & _) & j & -> & Hj).
  pose proof (select_frame_config _ _ _ Hsel) as (_ & _ & _ & _ & _ & Hlp & _).
  pose proof (lookup_lt_Some _ _ _ Hj).
  apply load_page_completes; [by rewrite Hlp|].
  rewrite to_size_t_nonneg by lia. lia.
Qed.

Lemma handlePageFault_completes_counted s p a b :
  frames_ok s → tracker_ok s → frameTable s ≠ [] →
  p < N.of_nat (length (pageTable s)) →
  is_Some (handlePageFault (set_pageFaults (set_accesses s a) b) p).
Proof. exact (handlePageFault_completes (set_pageFaults (set_accesses s a) b) p). Qed.

Lemma accessAddress_completes s segIdx offset la pn :
  frames_ok s → tracker_ok s → frameTable s ≠ [] → pageSize s ≠ 0 →
  target s segIdx offset = Some (la, pn) →
  pn < N.of_nat (length (pageTable s)) →
  ∃ s' t, accessAddress s segIdx offset = Some (s', Translated t).
Proof.
  intros Hfr Hok Hne Hz (seg & Hseg & Ho & -> & ->)%target_Some Hpn.
  set (la := size_wrap (base seg + offset)) in *.
  set (pn := la / pageSize s) in *.
  assert (is_Some (accessAddress s segIdx offset)) as [[s' r] Ha].
  { unfold accessAddress.
    assert (segIdx < N.of_nat (length (segments s)))
      by (apply vec_get_is_Some; eauto).
    destruct (N.leb_spec (N.of_nat (length (segments s))) segIdx); [lia|].
    rewrite Hseg. simpl. destruct (N.leb_spec (limit seg) offset); [lia|].
    destruct (N.eqb_spec (pageSize s) 0); [done|]. simpl. fold la. fold pn.
    destruct (proj2 (vec_get_is_Some (pageTable s) pn) Hpn) as [e He].
    rewrite He. simpl.
    assert (∃ s2 b,
      (if valid e then Some (set_accesses s (size_wrap (accesses s + 1)), false)
       else handlePageFault
              (set_pageFaults (set_accesses s (size_wrap (accesses s + 1)))
                 (size_wrap (pageFaults s + 1))) pn
            ≫= λ s', Some (s', true)) = Some (s2, b) ∧
      tracker_ok s2 ∧ length (pageTable s2) = length (pageTable s))
      as (s2 & b & -> & Hok2 & Hlen2).
    { destruct (valid e) eqn:Hv; [by eexists _, _|].
      destruct (handlePageFault_completes_counted s pn
                  (size_wrap (accesses s + 1)) (size_wrap (pageFaults s + 1))
                  Hfr Hok Hne Hpn) as [s2 Hs2].
      rewrite Hs2. simpl. eexists _, _. split; [done|].
      assert (¬ resident s pn) as Hnr.
      { intros (e1 & He1 & Hv1). congruence. }
      split; [by apply (handlePageFault_step_counted _ _ _ _ _ Hok Hnr Hs2)|].
      by apply handlePageFault_config in Hs2 as (_ & _ & _ & _ & _ & ? & _). }
    simpl.
    assert (∃ s3, match policy s2 with
                  | FIFO => Some s2
                  | LRU => updateLRU s2 pn
                  end = Some s3 ∧ pageTable s3 = pageTable s2)
      as (s3 & -> & Hpt3).
    { destruct (policy s2) eqn:Hp2; [eauto|].
      destruct (updateLRU_completes s2 pn Hok2 Hp2) as [s3 Hs3].
      exists s3. split; [done|]. by apply updateLRU_tables in Hs3 as (? & _). }
    simpl.
    destruct (proj2 (vec_get_is_Some (pageTable s3) pn)) as [e' ->];
      [by rewrite Hpt3, Hlen2|].
    simpl. eauto. }
  assert (accepted s segIdx offset) as Hacc.
  { eexists (_, _). apply target_Some. eauto. }
  destruct (accessAddress_accepted_translated _ _ _ _ _ Hacc Ha) as [t ->].
  eauto.
Qed.

(** ** Constructed managers *)

Lemma construct_fresh memSize pageSz segNames pol E :
  construct memSize pageSz segNames pol = Some E → fresh E.
Proof.
  intros (_ & _ & ->)%construct_Some. unfold fresh. simpl.
  split; [|split; [|done]]; by apply Forall_replicate.
Qed.

Lemma construct_fields memSize pageSz segNames pol E :
  construct memSize pageSz segNames pol = Some E →
  pageSz ≠ 0 ∧ segNames ≠ [] ∧ pageSize E = pageSz ∧
  numFrames E = memSize / pageSz ∧ numPages E = memSize / pageSz ∧
  N.of_nat (length (pageTable E)) = numPages E ∧
  N.of_nat (length (frameTable E)) = numFrames E ∧
  segments E = make_segments 0 (memSize / N.of_nat (length segNames)) segNames ∧
  policy E = pol.
Proof.
  intros (Hz & Hn & ->)%construct_Some. simpl.
  rewrite !length_replicate, N2Nat.id. done.
Qed.

Lemma fresh_frames_ok s :
  fresh s →
  (Z.of_nat (length (frameTable s)) ≤ 2 ^ 31)%Z →
  (Z.of_nat (length (pageTable s)) ≤ 2 ^ 31)%Z →
  frames_ok s.
Proof.
  intros (Hpt & Hft & _) Hlf Hlp.
  rewrite Forall_forall in Hpt. rewrite Forall_forall in Hft.
  split; [done|]. split; [done|]. split; [|split].
  - intros p e He Hv. apply list_elem_of_lookup_2, Hpt in He. congruence.
  - intros f z Hz Hne. apply list_elem_of_lookup_2, Hft in Hz. congruence.
  - unfold count_resident, count_occupied. rewrite !count_none; [done| |].
    + apply Forall_forall. intros z Hz%Hft. naive_solver.
    + apply Forall_forall. intros e He%Hpt. congruence.
Qed.

(** Every state reached from a manager built with at most [2^31] pages
    satisfies both invariants and has the tables of the manager's sizes. *)
Lemma constructed_invariants memSize pageSz segNames pol E s :
  construct memSize pageSz segNames pol = Some E →
  numPages E ≤ 2 ^ 31 → reachable E s →
  frames_ok s ∧ tracker_ok s.
Proof.
  intros Hc Hsmall Hreach.
  pose proof (construct_fresh _ _ _ _ _ Hc) as Hfresh.
  pose proof (construct_fields _ _ _ _ _ Hc)
    as (_ & _ & _ & Hnf & Hnp & Hlp & Hlf & _).
  eapply (reachable_invariant (λ s, frames_ok s ∧ tracker_ok s));
    [|split|exact Hreach].
  - intros s1 segIdx offset s2 r [Hfr Hok] Ha. split.
    + by eapply accessAddress_frames_ok.
    + by eapply accessAddress_tracker_ok.
  - apply fresh_frames_ok; [done|lia|lia].
  - by apply fresh_tracker_ok.
Qed.

(** *** Segments *)

Lemma make_segments_lookup names k segSize (j : nat) seg :
  make_segments k segSize names !! j = Some seg →
  limit seg = segSize ∧ (j < length names)%nat ∧
  ∃ i, i ≤ k + N.of_nat j ∧ base seg = size_wrap (i * segSize).
Proof.
  revert k j. induction names as [|n names IH]; intros k [|j] H;
    simplify_eq/=.
  - split; [done|]. split; [lia|]. exists k. split; [lia|done].
  - destruct (IH _ _ H) as (Hl & Hj & i & Hi & Hb).
    split; [done|]. split; [lia|]. exists i. split; [|done].
    pose proof (size_wrap_le (k + 1)). lia.
Qed.

(** An accepted request addresses a byte below [memSize]; the sum of base
    and offset does not wrap. *)
Lemma constructed_logical_bound memSize pageSz segNames pol E s segIdx offset la pn :
  construct memSize pageSz segNames pol = Some E →
  segments s = segments E →
  target s segIdx offset = Some (la, pn) →
  la < memSize ∧
  ∃ seg, vec_get (segments s) segIdx = Some seg ∧ base seg + offset < memSize.
Proof.
  intros Hc Hsegs (seg & Hseg & Ho & -> & _)%target_Some.
  apply construct_fields in Hc as (_ & Hne & _ & _ & _ & _ & _ & Hs & _).
  pose proof Hseg as Hseg'.
  apply vec_get_Some in Hseg. rewrite Hsegs, Hs in Hseg.
  apply make_segments_lookup in Hseg as (Hl & Hj & i & Hi & Hb).
  set (n := N.of_nat (length segNames)) in *.
  set (segSize := memSize / n) in *.
  assert (n ≠ 0) by (subst n; destruct segNames; [done|simpl; lia]).
  pose proof (N.Div0.mul_div_le memSize n) as Hle. fold segSize in Hle.
  pose proof (size_wrap_le (base seg + offset)).
  pose proof (size_wrap_le (i * segSize)).
  assert ((i + 1) * segSize ≤ n * segSize) by (apply N.mul_le_mono_r; lia).
  assert (base seg + offset < memSize) by nia.
  split; [lia|]. eauto.
Qed.

Lemma constructed_page_bound memSize pageSz segNames pol E s segIdx offset la pn :
  construct memSize pageSz segNames pol = Some E →
  (pageSz | memSize) →
  segments s = segments E → pageSize s = pageSize E →
  target s segIdx offset = Some (la, pn) →
  pn < numPages E.
Proof.
  intros Hc [c ->] Hsegs Hps Ht.
  pose proof (constructed_logical_bound _ _ _ _ _ _ _ _ _ _ Hc Hsegs Ht)
    as [Hla _].
  apply construct_fields in Hc as (Hz & _ & Hpz & _ & -> & _).
  apply target_Some in Ht as (seg & _ & _ & _ & ->).
  rewrite Hps, Hpz, N.div_mul by done.
  apply N.Div0.div_lt_upper_bound. lia.
Qed.

(** The frame invariant, read through [vec_get]. *)
Lemma frames_ok_inverse s :
  frames_ok s →
  count_resident s = count_occupied s ∧
  (∀ p, resident s p ↔
        ∃ e f, vec_get (pageTable s) p = Some e ∧ frameNumber e = Z.of_N f ∧
               vec_get (frameTable s) f = Some (Z.of_N p)) ∧
  (∀ f z, vec_get (frameTable s) f = Some z → z ≠ (-1)%Z →
        ∃ p e, z = Z.of_N p ∧ vec_get (pageTable s) p = Some e ∧
               valid e = true ∧ frameNumber e = Z.of_N f) ∧
  (∀ p q e e', vec_get (pageTable s) p = Some e → valid e = true →
        vec_get (pageTable s) q = Some e' → valid e' = true →
        frameNumber e = frameNumber e' → p = q).
Proof.
  intros (Hlf & Hlp & Ha & Hb & Hc). split; [done|]. split; [|split].
  - intros p. split.
    + intros (e & He & Hv). pose proof He as He'. apply vec_get_Some in He'.
      destruct (Ha _ _ He' Hv) as (f & Hf & Hfp).
      exists e, (N.of_nat f). split; [done|]. split; [lia|].
      rewrite vec_get_of_nat, Hfp. f_equal. lia.
    + intros (e & f & He & Hf & Hfp). exists e. split; [done|].
      apply vec_get_Some in Hfp, He.
      destruct (Hb _ _ Hfp) as (q & e' & Hq & Hq' & Hv & _); [lia|].
      assert (q = N.to_nat p) as -> by lia. congruence.
  - intros f z Hz Hne. apply vec_get_Some in Hz.
    destruct (Hb _ _ Hz Hne) as (q & e & -> & Hq & Hv & Hf).
    exists (N.of_nat q), e. split; [lia|]. split; [by rewrite vec_get_of_nat|].
    split; [done|lia].
  - intros p q e e' He Hv He' Hv' Heq.
    apply vec_get_Some in He, He'.
    destruct (Ha _ _ He Hv) as (f & Hf & Hfp).
    destruct (Ha _ _ He' Hv') as (f' & Hf' & Hfq).
    assert (f' = f) as -> by lia. rewrite Hfp in Hfq. simplify_eq. lia.
Qed.

(** C2 (for managers whose page numbers fit [int]).  In every state reached
    from a manager built with at most [2^31] pages, as many pages are
    resident as frames are occupied; a page is resident exactly when its
    entry names a frame whose entry names the page back; every occupied
    frame holds a resident page whose entry names that frame; and two
    resident pages never share a frame. *)
Theorem tables_mutually_inverse memSize pageSz segNames pol E s :
  construct memSize pageSz segNames pol = Some E →
  numPages E ≤ 2 ^ 31 →
  reachable E s →
  count_resident s = count_occupied s ∧
  (∀ p, resident s p ↔
        ∃ e f, vec_get (pageTable s) p = Some e ∧ frameNumber e = Z.of_N f ∧
               vec_get (frameTable s) f = Some (Z.of_N p)) ∧
  (∀ f z, vec_get (frameTable s) f = Some z → z ≠ (-1)%Z →
        ∃ p e, z = Z.of_N p ∧ vec_get (pageTable s) p = Some e ∧
               valid e = true ∧ frameNumber e = Z.of_N f) ∧
  (∀ p q e e', vec_get (pageTable s) p = Some e → valid e = true →
        vec_get (pageTable s) q = Some e' → valid e' = true →
        frameNumber e = frameNumber e' → p = q).
Proof.
  intros Hc Hsmall Hreach.
  apply frames_ok_inverse.
  by apply (constructed_invariants _ _ _ _ _ _ Hc Hsmall Hreach).
Qed.

(** Two segments of 512 bytes over four pages of 256 bytes; the request
    (1, 10) loads page 2 into frame 0. *)
Lemma tables_mutually_inverse_witness :
  ∃ E s,
    construct 1024 256 ["code"; "data"]%string FIFO = Some E ∧
    numPages E ≤ 2 ^ 31 ∧
    run E [] [(1, 10)] = Some (s, [(2, true)]) ∧
    count_resident s = count_occupied s ∧
    (resident s 2 ↔
     ∃ e f, vec_get (pageTable s) 2 = Some e ∧ frameNumber e = Z.of_N f ∧
            vec_get (frameTable s) f = Some (Z.of_N 2)).
Proof.
  eexists _, _.
  split; [reflexivity|]. split; [vm_compute; discriminate|].
  split; [vm_compute; reflexivity|].
  match goal with
  | |- count_resident ?s = _ ∧ _ =>
      destruct (tables_mutually_inverse 1024 256 ["code"; "data"]%string FIFO
                  _ s eq_refl) as (Hcount & Hinv & _)
  end.
  - vm_compute; discriminate.
  - exists [(1, 10)], [(2, true)]. vm_compute; reflexivity.
  - split; [exact Hcount | exact (Hinv 2)].
Defined.

(** C10 (for managers whose frame numbers fit [int]).  For a manager built
    with a page size that divides the memory size, in every reachable state
    the page number of an accepted request is below [numPages], hence
    inside the page table; and when the manager has at most [2^31] pages
    every index the call uses is inside its vector: the call completes with
    a translation. *)
Theorem accepted_request_in_bounds memSize pageSz segNames pol E s segIdx offset :
  construct memSize pageSz segNames pol = Some E →
  (pageSz | memSize) →
  reachable E s →
  accepted s segIdx offset →
  ∃ la pn,
    target s segIdx offset = Some (la, pn) ∧
    pn < numPages E ∧
    is_Some (vec_get (pageTable s) pn) ∧
    (numPages E ≤ 2 ^ 31 →
     ∃ s' t, accessAddress s segIdx offset = Some (s', Translated t)).
Proof.
  intros Hc Hdiv Hreach [[la pn] Ht]. exists la, pn. split; [done|].
  pose proof (reachable_config _ _ Hreach)
    as (Hps & _ & _ & Hsegs & _ & Hlp & Hlf).
  pose proof (constructed_page_bound _ _ _ _ _ _ _ _ _ _ Hc Hdiv Hsegs Hps Ht)
    as Hpn.
  pose proof (construct_fields _ _ _ _ _ Hc)
    as (Hz & _ & Hpz & Hnf & Hnp & HlpE & HlfE & _).
  assert (pn < N.of_nat (length (pageTable s))) as Hpn' by lia.
  split; [done|]. split; [by apply vec_get_is_Some|].
  intros Hsmall.
  destruct (constructed_invariants _ _ _ _ _ _ Hc Hsmall Hreach) as [Hfr Hok].
  eapply accessAddress_completes; try done.
  - intros Hnil. rewrite Hnil in Hlf. simpl in Hlf. lia.
  - by rewrite Hps, Hpz.
Qed.

Lemma accepted_request_in_bounds_witness :
  ∃ E la pn s' t,
    construct 1024 256 ["code"; "data"]%string FIFO = Some E ∧
    (256 | 1024) ∧ reachable E E ∧ accepted E 1 511 ∧
    target E 1 511 = Some (la, pn) ∧ pn < numPages E ∧
    accessAddress E 1 511 = Some (s', Translated t).
Proof.
  eexists _.
  match goal with
  | |- ∃ la pn s' t, _ = Some ?E ∧ _ =>
      destruct (accepted_request_in_bounds 1024 256 ["code"; "data"]%string
                  FIFO E E 1 511 eq_refl)
        as (la & pn & Ht & Hpn & _ & Hdone)
  end.
  - by exists 4.
  - apply reachable_refl.
  - by eexists.
  - destruct Hdone as (s' & t & Ha); [vm_compute; discriminate|].
    exists la, pn, s', t. split; [reflexivity|].
    split; [by exists 4|]. split; [apply reachable_refl|].
    split; [by eexists|]. done.
Defined.

(** ** Frame numbers of resident pages *)

Lemma select_frame_range s s1 f :
  frame_range s → select_frame s = Some (s1, f) →
  frame_range s1 ∧ (- 2 ^ 31 ≤ f < 2 ^ 31)%Z.
Proof.
  intros [Hlen Hent] [(i & _ & _ & -> & ->) | (s0 & v & _ & Hp & He)]%select_frame_inv.
  { split; [by split | apply to_int_range]. }
  apply evict_inv in He as (e & He & -> & Hidx & ->).
  assert (pageTable s0 = pageTable s ∧ frameTable s0 = frameTable s)
    as [Hpt0 Hft0].
  { by apply pop_victim_inv in Hp
      as [(_ & rest & _ & ->) | (_ & nd & l & _ & ->)]. }
  rewrite Hpt0 in He |- *. rewrite Hft0 in Hidx |- *.
  destruct (Hent _ _ He) as [Hr _]. split; [|done].
  split; simpl; rewrite !length_insert; [done|].
  intros q e1 Hq. destruct (decide (q = N.to_nat v)) as [->|Hne].
  - rewrite list_lookup_insert_eq in Hq by (by eapply lookup_lt_Some).
    by simplify_eq/=.
  - rewrite list_lookup_insert_ne in Hq by done. by apply Hent in Hq.
Qed.

Lemma load_page_range s f p s' :
  frame_range s → (- 2 ^ 31 ≤ f < 2 ^ 31)%Z →
  load_page s f p = Some s' → frame_range s'.
Proof.
  intros [Hlen Hent] Hf Hload.
  pose proof (load_page_entry _ _ _ _ Hload) as [Hpt _].
  pose proof (load_page_config _ _ _ _ Hload) as (_ & _ & _ & _ & _ & _ & Hlf).
  apply load_page_inv in Hload as (Hp & Hidx & _).
  assert (0 ≤ f < Z.of_nat (length (frameTable s)))%Z as Hfr.
  { destruct (Z.lt_ge_cases f 0) as [Hneg|Hpos].
    - pose proof (to_size_t_neg f). lia.
    - rewrite to_size_t_nonneg in Hidx by lia. lia. }
  split; rewrite Hlf; [done|]. rewrite Hpt.
  intros q e Hq. destruct (decide (q = N.to_nat p)) as [->|Hne].
  - rewrite list_lookup_insert_eq in Hq by done. by simplify_eq/=.
  - rewrite list_lookup_insert_ne in Hq by done. by apply Hent in Hq.
Qed.

Lemma handlePageFault_range s p s' :
  frame_range s → handlePageFault s p = Some s' → frame_range s'.
Proof.
  intros Hr (s1 & f & Hsel & Hload)%handlePageFault_inv.
  destruct (select_frame_range _ _ _ Hr Hsel) as [Hr1 Hf].
  by eapply load_page_range.
Qed.

Lemma handlePageFault_range_counted s p s' a b :
  frame_range s →
  handlePageFault (set_pageFaults (set_accesses s a) b) p = Some s' →
  frame_range s'.
Proof. exact (handlePageFault_range (set_pageFaults (set_accesses s a) b) p s'). Qed.

Lemma accessAddress_frame_range s segIdx offset s' r :
  frame_range s → accessAddress s segIdx offset = Some (s', r) →
  frame_range s'.
Proof.
  intros Hr Ha.
  apply accessAddress_inv in Ha
    as [(_ & -> & _) | [(seg & _ & _ & -> & _) |
        (seg & e & s2 & e' & Hseg & Ho & Hz & He & Hs2 & Hs' & He' & _)]];
    [done|done|].
  cbv zeta in *.
  assert (frame_range s2) as Hr2.
  { destruct (valid e); [by subst|]. by eapply handlePageFault_range_counted. }
  destruct (policy s2); [by simplify_eq|].
  apply updateLRU_tables in Hs' as (Hpt & Hft & _).
  unfold frame_range in *. by rewrite Hpt, Hft.
Qed.

Lemma constructed_frame_range memSize pageSz segNames pol E s :
  construct memSize pageSz segNames pol = Some E →
  numFrames E ≤ 2 ^ 64 - 2 ^ 31 → reachable E s → frame_range s.
Proof.
  intros Hc Hsmall Hreach.
  pose proof (construct_fresh _ _ _ _ _ Hc) as (Hpt & _).
  pose proof (construct_fields _ _ _ _ _ Hc) as (_ & _ & _ & _ & _ & _ & Hlf & _).
  eapply (reachable_invariant frame_range); [| |exact Hreach].
  - intros. by eapply accessAddress_frame_range.
  - split; [lia|]. intros p e He.
    apply construct_Some in Hc as (_ & _ & ->). simpl in He.
    apply lookup_replicate in He as [-> _]. simpl. split; [lia|done].
Qed.

(** The translation made by a call that returns, in a state reached from a
    constructed manager; the call does return when the page size divides
    the memory size and the manager has at most [2^31] pages.  ([memSize]
    is a [size_t], and no vector has more than [2^64 - 2^31] elements.) *)
Lemma translation_of_result memSize pageSz segNames pol E s segIdx offset :
  construct memSize pageSz segNames pol = Some E →
  memSize < 2 ^ 64 →
  numFrames E ≤ 2 ^ 64 - 2 ^ 31 →
  reachable E s →
  accepted s segIdx offset →
  (∀ s' t, accessAddress s segIdx offset = Some (s', Translated t) →
     ∃ seg frame,
       vec_get (segments s) segIdx = Some seg ∧
       t_logicalAddr t = base seg + offset ∧
       t_page t = t_logicalAddr t / pageSize s ∧
       vec_get (pageTable s') (t_page t) = Some (mkPTE (Z.of_N frame) true) ∧
       t_frameNum t = Z.of_N frame ∧
       frame < numFrames E ∧
       t_physicalAddr t = frame * pageSize s + t_logicalAddr t mod pageSize s) ∧
  ((pageSz | memSize) → numPages E ≤ 2 ^ 31 →
   ∃ s' t, accessAddress s segIdx offset = Some (s', Translated t)) ∧
  (numPages E ≤ 2 ^ 31 →
   ∀ s' t, accessAddress s segIdx offset = Some (s', Translated t) →
     ∀ f, vec_get (frameTable s') f = Some (Z.of_N (t_page t)) ↔
          Z.of_N f = t_frameNum t).
Proof.
  intros Hc Hmem Hsmall Hreach Hacc. split; [|split].
  - intros s' t Ha.
    pose proof (reachable_step _ _ _ _ _ _ Hreach Ha) as Hreach'.
    pose proof (constructed_frame_range _ _ _ _ _ _ Hc Hsmall Hreach')
      as [_ Hent].
    pose proof (reachable_config _ _ Hreach) as (Hps & _ & _ & Hsegs & _).
    pose proof (reachable_config _ _ Hreach') as (_ & _ & _ & _ & _ & _ & Hlf').
    pose proof (construct_fields _ _ _ _ _ Hc)
      as (Hz & _ & Hpz & Hnf & _ & _ & HlfE & _).
    destruct (accessAddress_translated_accepted _ _ _ _ _ Ha)
      as (seg & Hseg & Ho & Hla & Hpn & Ht).
    destruct (constructed_logical_bound _ _ _ _ _ _ _ _ _ _ Hc Hsegs Ht)
      as (Hlt & seg' & Hseg' & Hsum).
    assert (seg' = seg) as -> by congruence.
    rewrite size_wrap_small in Hla by lia.
    destruct (accessAddress_translated _ _ _ _ _ Ha)
      as (_ & _ & _ & _ & Hent' & Hoff & Hphys).
    pose proof Hent' as Hent''. apply vec_get_Some in Hent''.
    destruct (Hent _ _ Hent'') as [_ Hfr]. specialize (Hfr eq_refl).
    simpl in Hfr.
    exists seg, (Z.to_N (t_frameNum t)).
    rewrite Z2N.id by lia. split; [done|]. split; [done|]. split; [done|].
    split; [done|]. split; [done|]. split; [lia|].
    rewrite Hphys, Hoff, to_size_t_nonneg by lia.
    apply size_wrap_small.
    rewrite Hps, Hpz.
    pose proof (N.mod_lt (t_logicalAddr t) pageSz Hz).
    pose proof (N.Div0.mul_div_le memSize pageSz).
    assert ((Z.to_N (t_frameNum t) + 1) * pageSz ≤ (memSize / pageSz) * pageSz)
      by (apply N.mul_le_mono_r; lia).
    nia.
  - intros Hdiv Hpages.
    destruct (constructed_invariants _ _ _ _ _ _ Hc Hpages Hreach) as [Hfr Hok].
    destruct Hacc as [[la pn] Ht].
    pose proof (reachable_config _ _ Hreach)
      as (Hps & _ & _ & Hsegs & _ & Hlp & Hlf).
    pose proof (constructed_page_bound _ _ _ _ _ _ _ _ _ _ Hc Hdiv Hsegs Hps Ht).
    pose proof (construct_fields _ _ _ _ _ Hc)
      as (Hz & _ & Hpz & Hnf & Hnp & HlpE & HlfE & _).
    eapply accessAddress_completes; try done.
    + intros Hnil. rewrite Hnil in Hlf. simpl in Hlf. lia.
    + by rewrite Hps, Hpz.
    + lia.
  - intros Hpages s' t Ha f.
    pose proof (reachable_step _ _ _ _ _ _ Hreach Ha) as Hreach'.
    destruct (constructed_invariants _ _ _ _ _ _ Hc Hpages Hreach') as [Hfr _].
    destruct (frames_ok_inverse _ Hfr) as (_ & Hres & Hocc & _).
    destruct (accessAddress_translated _ _ _ _ _ Ha)
      as (_ & _ & _ & _ & Hent & _).
    split.
    + intros Hf.
      destruct (Hocc _ _ Hf) as (p & e & Hp & He & _ & Hfn); [lia|].
      assert (p = t_page t) as -> by lia.
      rewrite Hent in He. by simplify_eq.
    + intros Hf.
      destruct (proj1 (Hres (t_page t))) as (e & f0 & He & Hfn & Hback).
      { by eexists. }
      rewrite Hent in He. simplify_eq/=.
      assert (f0 = f) as -> by lia. done.
Qed.

(** ** Translation and counters of a constructed manager *)

(** An accepted request completes in a constructed manager whose page size
    divides the memory size and whose pages [int] can number. *)
Lemma constructed_access_completes memSize pageSz segNames pol E s segIdx offset :
  construct memSize pageSz segNames pol = Some E →
  (pageSz | memSize) → numPages E ≤ 2 ^ 31 →
  reachable E s → accepted s segIdx offset →
  ∃ s' t, accessAddress s segIdx offset = Some (s', Translated t).
Proof.
  intros Hc Hdiv Hpages Hreach Hacc.
  destruct (constructed_invariants _ _ _ _ _ _ Hc Hpages Hreach) as [Hfr Hok].
  destruct Hacc as [[la pn] Ht].
  pose proof (reachable_config _ _ Hreach)
    as (Hps & _ & _ & Hsegs & _ & Hlp & Hlf).
  pose proof (constructed_page_bound _ _ _ _ _ _ _ _ _ _ Hc Hdiv Hsegs Hps Ht).
  pose proof (construct_fields _ _ _ _ _ Hc)
    as (Hz & _ & Hpz & Hnf & Hnp & HlpE & HlfE & _).
  eapply accessAddress_completes; try done.
  - intros Hnil. rewrite Hnil in Hlf. simpl in Hlf. lia.
  - by rewrite Hps, Hpz.
  - lia.
Qed.

(** C1 (within the domain of C10).  In every state reached from a
    constructed manager whose page size divides the memory size and which
    has at most [2^31] pages, a call with an accepted request returns; it
    has translated the logical address [base + offset] to
    [frame * pageSize + logicalAddress mod pageSize], nothing wrapping,
    where [frame] is the frame number, below [numFrames], that the valid
    page-table entry of the page [logicalAddress / pageSize] holds after
    the call, and the one frame whose frame-table entry names that page;
    the call faulted exactly when the page was not resident before.
    ([memSize] is a [size_t].) *)
Theorem translation_formula memSize pageSz segNames pol E s segIdx offset :
  construct memSize pageSz segNames pol = Some E →
  memSize < 2 ^ 64 →
  (pageSz | memSize) →
  numPages E ≤ 2 ^ 31 →
  reachable E s →
  accepted s segIdx offset →
  ∃ s' t seg frame,
    accessAddress s segIdx offset = Some (s', Translated t) ∧
    vec_get (segments s) segIdx = Some seg ∧
    t_logicalAddr t = base seg + offset ∧
    t_page t = t_logicalAddr t / pageSize s ∧
    (t_fault t = true ↔ ¬ resident s (t_page t)) ∧
    vec_get (pageTable s') (t_page t) = Some (mkPTE (Z.of_N frame) true) ∧
    t_frameNum t = Z.of_N frame ∧
    frame < numFrames E ∧
    t_physicalAddr t = frame * pageSize s + t_logicalAddr t mod pageSize s ∧
    (∀ f, vec_get (frameTable s') f = Some (Z.of_N (t_page t)) ↔ f = frame).
Proof.
  intros Hc Hmem Hdiv Hpages Hreach Hacc.
  destruct (constructed_access_completes _ _ _ _ _ _ _ _ Hc Hdiv Hpages Hreach Hacc)
    as (s' & t & Ha).
  destruct (construct_fields _ _ _ _ _ Hc) as (_ & _ & _ & HnF & HnP & _).
  assert (numFrames E ≤ 2 ^ 64 - 2 ^ 31) as Hwide by (rewrite HnF, <- HnP; lia).
  destruct (translation_of_result _ _ _ _ _ _ _ _ Hc Hmem Hwide Hreach Hacc)
    as (Hformula & _ & Hunique).
  destruct (Hformula _ _ Ha)
    as (seg & frame & Hseg & Hla & Hpn & Hent & Hfn & Hlt & Hphys).
  destruct (accessAddress_translated _ _ _ _ _ Ha) as (_ & _ & Hhit & _).
  exists s', t, seg, frame.
  repeat split; try done.
  - intros Hf Hr%Hhit. congruence.
  - intros Hnr. destruct (t_fault t); [done|]. destruct Hnr. by apply Hhit.
  - intros Hf%(Hunique Hpages _ _ Ha). lia.
  - intros ->. by apply (Hunique Hpages _ _ Ha).
Qed.




(** ** Frame tables longer than [int] can index *)

Lemma handlePageFault_spare_frame s p s' :
  spare_frame s → handlePageFault s p = Some s' → spare_frame s'.
Proof.
  intros Hsp Hpf k Hk Hklt.
  pose proof (handlePageFault_config _ _ _ Hpf) as (_ & _ & _ & _ & _ & _ & Hlf).
  rewrite Hlf in Hklt. specialize (Hsp k Hk Hklt).
  apply handlePageFault_inv in Hpf as (s1 & f & Hsel & Hload).
  assert (∃ j : nat, (j ≤ k)%nat ∧ find_free (frameTable s) 0 = Some (N.of_nat j))
    as (j & Hjk & Hfree).
  { destruct (find_free (frameTable s) 0) as [i|] eqn:Hi.
    - apply find_free_Some in Hi as (j & -> & Hj & Hmin).
      exists j. split; [|f_equal; lia].
      destruct (Nat.le_gt_cases j k) as [|Hlt]; [done|].
      by destruct (Hmin k (-1)%Z Hlt Hsp).
    - apply find_free_None in Hi. rewrite Forall_forall in Hi.
      apply list_elem_of_lookup_2 in Hsp. by apply Hi in Hsp. }
  assert (to_int (N.of_nat j) ≠ (-1)%Z ∧
          N.to_nat (to_size_t (to_int (N.of_nat j))) ≠ k) as [Hni Hidx].
  { destruct (decide (j = k)) as [->|Hne].
    - assert (N.of_nat k = 2 ^ 31) as -> by lia.
      rewrite to_int_first_wide. split; [done|].
      pose proof (to_size_t_neg (- 2 ^ 31)). lia.
    - rewrite to_int_small by lia. split; [lia|].
      rewrite to_size_t_nonneg by lia. lia. }
  apply select_frame_inv in Hsel
    as [(i & Hi & _ & -> & ->) | (s0 & v & [Hno | (i & Hi & Hm)] & _)];
    [|congruence|congruence].
  assert (i = N.of_nat j) as -> by congruence.
  apply load_page_inv in Hload as (_ & _ & ->). cbv zeta.
  assert (∀ s2, frameTable (match policy s with
                            | FIFO => set_fifoQueue s2 (fifoQueue s ++ [p])
                            | LRU => addLRU s2 p
                            end) = frameTable s2) as -> by (by destruct (policy s)).
  simpl. by rewrite list_lookup_insert_ne.
Qed.

Lemma handlePageFault_spare_frame_counted s p s' a b :
  spare_frame s →
  handlePageFault (set_pageFaults (set_accesses s a) b) p = Some s' →
  spare_frame s'.
Proof.
  exact (handlePageFault_spare_frame (set_pageFaults (set_accesses s a) b) p s').
Qed.

Lemma accessAddress_spare_frame s segIdx offset s' r :
  spare_frame s → accessAddress s segIdx offset = Some (s', r) →
  spare_frame s'.
Proof.
  intros Hsp Ha.
  apply accessAddress_inv in Ha
    as [(_ & -> & _) | [(seg & _ & _ & -> & _) |
        (seg & e & s2 & e' & Hseg & Ho & Hz & He & Hs2 & Hs' & He' & _)]];
    [done|done|].
  cbv zeta in *.
  assert (spare_frame s2) as Hsp2.
  { destruct (valid e); [by subst|].
    by eapply handlePageFault_spare_frame_counted. }
  destruct (policy s2); [by simplify_eq|].
  apply updateLRU_tables in Hs' as (_ & Hft & _).
  unfold spare_frame in *. by rewrite Hft.
Qed.

Lemma constructed_spare_frame memSize pageSz segNames pol E s :
  construct memSize pageSz segNames pol = Some E →
  reachable E s → spare_frame s.
Proof.
  intros Hc Hreach.
  eapply (reachable_invariant spare_frame); [| |exact Hreach].
  - intros. by eapply accessAddress_spare_frame.
  - apply construct_Some in Hc as (_ & _ & ->). intros k _ Hlt. simpl in *.
    rewrite length_replicate in Hlt. by apply lookup_replicate.
Qed.

(** In a constructed manager with more than [2^31] frames some frame is
    always free. *)
Lemma wide_table_has_free_frame memSize pageSz segNames pol E s :
  construct memSize pageSz segNames pol = Some E →
  2 ^ 31 < numFrames E → reachable E s →
  find_free (frameTable s) 0 ≠ None.
Proof.
  intros Hc Hwide Hreach Hnone.
  pose proof (constructed_spare_frame _ _ _ _ _ _ Hc Hreach) as Hsp.
  pose proof (reachable_config _ _ Hreach) as (_ & _ & _ & _ & _ & _ & Hlf).
  pose proof (construct_fields _ _ _ _ _ Hc) as (_ & _ & _ & _ & _ & _ & HlfE & _).
  assert (∃ k : nat, Z.of_nat k = (2 ^ 31)%Z) as [k Hk]
    by (exists (Z.to_nat (2 ^ 31)); lia).
  assert (k < length (frameTable s))%nat as Hlt by lia.
  specialize (Hsp k Hk Hlt).
  apply find_free_None in Hnone. rewrite Forall_forall in Hnone.
  apply list_elem_of_lookup_2 in Hsp. by apply Hnone in Hsp.
Qed.

(** ** When no frame is free *)

(** In a constructed manager the handler is never entered with every frame
    occupied: when no frame is free every page is already resident. *)
Lemma full_table_all_resident memSize pageSz segNames pol E s p :
  construct memSize pageSz segNames pol = Some E →
  reachable E s → find_free (frameTable s) 0 = None →
  p < numPages E → resident s p.
Proof.
  intros Hc Hreach Hnone Hp.
  pose proof (construct_fields _ _ _ _ _ Hc)
    as (_ & _ & _ & Hnf & Hnp & HlpE & HlfE & _).
  destruct (N.le_gt_cases (numPages E) (2 ^ 31)) as [Hsmall|Hwide].
  - destruct (constructed_invariants _ _ _ _ _ _ Hc Hsmall Hreach)
      as [(_ & _ & _ & _ & Hcount) _].
    pose proof (reachable_config _ _ Hreach) as (_ & _ & _ & _ & _ & Hlp & Hlf).
    destruct (no_free_all_occupied _ Hnone) as [Hocc _].
    assert (count_resident s = length (pageTable s)) as Hall by lia.
    apply count_all in Hall. rewrite Forall_forall in Hall.
    destruct (lookup_lt_is_Some_2 (pageTable s) (N.to_nat p)) as [e He]; [lia|].
    apply resident_lookup. exists e. split; [done|].
    apply Hall. by eapply list_elem_of_lookup_2.
  - destruct (wide_table_has_free_frame _ _ _ _ _ s Hc); [lia|done|done].
Qed.

(** C8.  In every state reached from a manager constructed with at least
    one frame in which the scan finds no free frame: the tracker of the
    active policy is not empty, its length is [numFrames] minus the number
    of free frames, so the victim can be read, and [handlePageFault]
    completes for every page of the page table. *)
Theorem victim_exists memSize pageSz segNames pol E s :
  construct memSize pageSz segNames pol = Some E →
  1 ≤ numFrames E →
  reachable E s →
  find_free (frameTable s) 0 = None →
  tracker s ≠ [] ∧
  N.of_nat (length (tracker s)) = numFrames E - N.of_nat (count_free s) ∧
  (∃ s0 v, pop_victim s = Some (s0, v)) ∧
  (∀ p, p < numPages E → is_Some (handlePageFault s p)).
Proof.
  intros Hc Hone Hreach Hnone.
  pose proof (construct_fields _ _ _ _ _ Hc)
    as (_ & _ & _ & Hnf & Hnp & HlpE & HlfE & _).
  destruct (N.le_gt_cases (numPages E) (2 ^ 31)) as [Hsmall|Hwide]; last first.
  { destruct (wide_table_has_free_frame _ _ _ _ _ s Hc); [lia|done|done]. }
  destruct (constructed_invariants _ _ _ _ _ _ Hc Hsmall Hreach) as [Hfr Hok].
  pose proof (reachable_config _ _ Hreach) as (_ & _ & _ & _ & _ & Hlp & Hlf).
  destruct (no_free_all_occupied _ Hnone) as [Hocc Hfree].
  pose proof Hok as (_ & _ & Hlen & _).
  pose proof Hfr as (_ & _ & _ & _ & Hcount).
  assert (tracker s ≠ []) as Hne.
  { intros Htr. rewrite Htr in Hlen. simpl in Hlen. lia. }
  split; [done|]. split; [lia|]. split.
  - destruct (pop_victim_completes _ Hok Hne) as (s0 & v & Hpop & _). eauto.
  - intros p Hp. apply handlePageFault_completes; [done|done| |lia].
    intros Hnil. rewrite Hnil in Hlf. simpl in Hlf. lia.
Qed.

(** One page, one frame: after the first request no frame is free and the
    queue holds page 0. *)
Lemma victim_exists_witness :
  ∃ E s,
    construct 256 256 ["only"]%string FIFO = Some E ∧
    1 ≤ numFrames E ∧
    run E [] [(0, 0)] = Some (s, [(0, true)]) ∧
    find_free (frameTable s) 0 = None ∧
    tracker s ≠ [] ∧
    N.of_nat (length (tracker s)) = numFrames E - N.of_nat (count_free s) ∧
    is_Some (handlePageFault s 0).
Proof.
  eexists _, _.
  split; [reflexivity|]. split; [vm_compute; discriminate|].
  split; [vm_compute; reflexivity|]. split; [reflexivity|].
  match goal with
  | |- tracker ?s ≠ [] ∧ _ =>
      destruct (victim_exists 256 256 ["only"]%string FIFO _ s eq_refl)
        as (Hne & Hlen & _ & Hdone)
  end.
  - vm_compute; discriminate.
  - exists [(0, 0)], [(0, true)]. vm_compute; reflexivity.
  - reflexivity.
  - split; [exact Hne|]. split; [exact Hlen|]. apply Hdone. reflexivity.
Defined.

(** ** Page and frame numbers that do not fit [int] *)

(** A FIFO fault that finds the free frame [i]: the call as a function of
    the state, whatever the sizes of the tables. *)
Lemma select_frame_free s i :
  find_free (frameTable s) 0 = Some i → to_int i ≠ (-1)%Z →
  select_frame s = Some (s, to_int i).
Proof.
  intros Hi Hne. unfold select_frame. rewrite Hi.
  by destruct (Z.eqb_spec (to_int i) (-1)).
Qed.

Lemma accessAddress_fault_free s segIdx offset la pn e i :
  target s segIdx offset = Some (la, pn) → pageSize s ≠ 0 → policy s = FIFO →
  pageTable s !! N.to_nat pn = Some e → valid e = false →
  find_free (frameTable s) 0 = Some i → to_int i ≠ (-1)%Z →
  (N.to_nat (to_size_t (to_int i)) < length (frameTable s))%nat →
  ∃ s' t,
    accessAddress s segIdx offset = Some (s', Translated t) ∧
    pageTable s' = <[N.to_nat pn := mkPTE (to_int i) true]> (pageTable s) ∧
    frameTable s' =
      <[N.to_nat (to_size_t (to_int i)) := to_int pn]> (frameTable s) ∧
    t_page t = pn ∧ t_fault t = true.
Proof.
  intros (seg & Hseg & Ho & -> & ->)%target_Some Hz Hpol He Hv Hi Hni Hidx.
  set (la := size_wrap (base seg + offset)) in *.
  set (pn := la / pageSize s) in *.
  pose proof (lookup_lt_Some _ _ _ He) as Hplt.
  unfold accessAddress.
  assert (segIdx < N.of_nat (length (segments s)))
    by (apply vec_get_is_Some; eauto).
  destruct (N.leb_spec (N.of_nat (length (segments s))) segIdx); [lia|].
  rewrite Hseg. simpl. destruct (N.leb_spec (limit seg) offset); [lia|].
  destruct (N.eqb_spec (pageSize s) 0); [done|]. simpl. fold la. fold pn.
  rewrite (proj2 (vec_get_Some _ _ _) He). simpl. rewrite Hv.
  unfold handlePageFault.
  rewrite (select_frame_free _ i) by done. simpl.
  unfold load_page. simpl.
  destruct (vec_set_is_Some (pageTable s) pn (mkPTE (to_int i) true))
    as [_ [pt Hpt]]; [lia|]. rewrite Hpt. simpl.
  destruct (vec_set_is_Some (frameTable s) (to_size_t (to_int i)) (to_int pn))
    as [_ [ft Hft]]; [lia|]. rewrite Hft. simpl.
  apply vec_set_Some in Hpt as [_ ->]. apply vec_set_Some in Hft as [_ ->].
  rewrite Hpol. simpl. rewrite Hpol. simpl.
  rewrite (proj2 (vec_get_Some _ pn (mkPTE (to_int i) true)));
    [|by apply list_lookup_insert_eq].
  simpl. eexists _, _. split; [done|]. done.
Qed.

(** The same fault when [freeFrame], converted back to an index, is outside
    the frame table: the write [frameTable[freeFrame]] is undefined. *)
Lemma accessAddress_fault_outside s segIdx offset la pn e i :
  target s segIdx offset = Some (la, pn) → pageSize s ≠ 0 →
  pageTable s !! N.to_nat pn = Some e → valid e = false →
  find_free (frameTable s) 0 = Some i → to_int i ≠ (-1)%Z →
  N.of_nat (length (frameTable s)) ≤ to_size_t (to_int i) →
  accessAddress s segIdx offset = None.
Proof.
  intros (seg & Hseg & Ho & -> & ->)%target_Some Hz He Hv Hi Hni Hidx.
  set (la := size_wrap (base seg + offset)) in *.
  set (pn := la / pageSize s) in *.
  pose proof (lookup_lt_Some _ _ _ He) as Hplt.
  unfold accessAddress.
  assert (segIdx < N.of_nat (length (segments s)))
    by (apply vec_get_is_Some; eauto).
  destruct (N.leb_spec (N.of_nat (length (segments s))) segIdx); [lia|].
  rewrite Hseg. simpl. destruct (N.leb_spec (limit seg) offset); [lia|].
  destruct (N.eqb_spec (pageSize s) 0); [done|]. simpl. fold la. fold pn.
  rewrite (proj2 (vec_get_Some _ _ _) He). simpl. rewrite Hv.
  unfold handlePageFault.
  rewrite (select_frame_free _ i) by done. simpl.
  unfold load_page. simpl.
  destruct (vec_set_is_Some (pageTable s) pn (mkPTE (to_int i) true))
    as [_ [pt Hpt]]; [lia|]. rewrite Hpt. simpl.
  destruct (vec_set (frameTable s) (to_size_t (to_int i)) (to_int pn))
    as [ft|] eqn:Hft; [|done].
  apply vec_set_Some in Hft as [Hlt _]. lia.
Qed.

Lemma construct_flat n pol :
  construct n 1 ["all"]%string pol = Some (flat_manager n pol).
Proof.
  apply construct_Some. split; [done|]. split; [done|].
  unfold flat_manager. simpl. by rewrite !N.div_1_r.
Qed.

Lemma flat_target n pol s offset :
  same_config (flat_manager n pol) s → offset < n → n < 2 ^ 64 →
  target s 0 offset = Some (offset, offset).
Proof.
  intros (Hps & _ & _ & Hsegs & _) Ho Hn. apply target_Some.
  exists (mkSegment "all" 0 n). rewrite Hsegs, Hps. simpl.
  split; [done|]. split; [done|].
  rewrite size_wrap_small by lia. by rewrite N.div_1_r.
Qed.

Lemma find_free_replicate (m : nat) :
  find_free (replicate (S m) (-1)%Z) 0 = Some 0.
Proof. done. Qed.

(** The first request to [flat_manager n FIFO], for byte [p]: page [p]
    goes to frame 0, whose entry receives [static_cast<int>(p)]. *)
Lemma flat_first_access n p :
  p < n → n < 2 ^ 64 →
  ∃ s t,
    accessAddress (flat_manager n FIFO) 0 p = Some (s, Translated t) ∧
    pageTable s = <[N.to_nat p := mkPTE 0 true]> (replicate (N.to_nat n) emptyPTE) ∧
    frameTable s = <[0%nat := to_int p]> (replicate (N.to_nat n) (-1)%Z).
Proof.
  intros Hp Hn.
  assert (∃ m, N.to_nat n = S m) as [m Hm] by (exists (pred (N.to_nat n)); lia).
  assert (target (flat_manager n FIFO) 0 p = Some (p, p)) as Ht
    by (by apply (flat_target n FIFO)).
  destruct (accessAddress_fault_free (flat_manager n FIFO) 0 p p p emptyPTE 0)
    as (s & t & Ha & Hpt & Hft & _); try done.
  - simpl. apply lookup_replicate. split; [done|lia].
  - simpl. by rewrite Hm.
  - simpl. rewrite length_replicate. change (to_size_t (to_int 0)) with 0. lia.
  - exists s, t. split; [done|]. done.
Qed.

(** A page whose number converts to [-1] is loaded into a frame that goes
    on looking free. *)
Lemma narrowed_page_leaves_frame_free n p :
  p < n → n < 2 ^ 64 → to_int p = (-1)%Z →
  ∃ s t,
    accessAddress (flat_manager n FIFO) 0 p = Some (s, Translated t) ∧
    resident s p ∧
    count_resident s = 1%nat ∧ count_occupied s = 0%nat ∧
    find_free (frameTable s) 0 = Some 0.
Proof.
  intros Hp Hn Hint.
  assert (∃ m, N.to_nat n = S m) as [m Hm] by (exists (pred (N.to_nat n)); lia).
  destruct (flat_first_access n p Hp Hn) as (s & t & Ha & Hpt & Hft).
  exists s, t. split; [done|].
  rewrite Hint in Hft.
  assert (frameTable s = replicate (N.to_nat n) (-1)%Z) as Hft'.
  { rewrite Hft. apply list_insert_id. apply lookup_replicate. split; [done|lia]. }
  split; [|split; [|split]].
  - apply resident_lookup. exists (mkPTE 0 true). split; [|done].
    rewrite Hpt. apply list_lookup_insert_eq. rewrite length_replicate. lia.
  - pose proof (count_resident_insert (flat_manager n FIFO) s p _ emptyPTE Hpt)
      as Hc.
    simpl in Hc.
    assert (count_resident (flat_manager n FIFO) = 0%nat) as Hz.
    { unfold count_resident. simpl. apply count_none.
      apply Forall_replicate. done. }
    rewrite Hz in Hc. simpl in Hc.
    specialize (Hc ltac:(apply lookup_replicate; split; [done|lia])). lia.
  - unfold count_occupied. rewrite Hft'. apply count_none.
    apply Forall_replicate. naive_solver.
  - rewrite Hft', Hm. done.
Qed.

(** C2 fails beyond [int]: in the manager with [2^32] one-byte pages the
    request for the last byte makes page [2^32 - 1] resident and stores
    [static_cast<int>(2^32 - 1) = -1] in frame 0, so one page is resident
    and no frame is occupied. *)
Lemma tables_mutually_inverse_fails_beyond_int :
  ∃ E s t,
    construct 4294967296 1 ["all"]%string FIFO = Some E ∧
    accessAddress E 0 4294967295 = Some (s, Translated t) ∧
    resident s 4294967295 ∧
    count_resident s = 1%nat ∧ count_occupied s = 0%nat ∧
    find_free (frameTable s) 0 = Some 0.
Proof.
  exists (flat_manager 4294967296 FIFO).
  destruct (narrowed_page_leaves_frame_free 4294967296 4294967295)
    as (s & t & H); [lia|lia|reflexivity|].
  exists s, t. split; [apply construct_flat | exact H].
Qed.

(** With [2^31 + 1] pages already, the frame given to page [2^31] records
    [-2^31], not the page number. *)
Lemma frame_entry_negative_beyond_int :
  ∃ E s t,
    construct 2147483649 1 ["all"]%string FIFO = Some E ∧
    accessAddress E 0 2147483648 = Some (s, Translated t) ∧
    resident s 2147483648 ∧
    vec_get (frameTable s) 0 = Some (-2147483648)%Z.
Proof.
  exists (flat_manager 2147483649 FIFO).
  destruct (flat_first_access 2147483649 2147483648)
    as (s & t & Ha & Hpt & Hft); [lia|lia|].
  exists s, t. split; [apply construct_flat|]. split; [exact Ha|]. split.
  - apply resident_lookup. exists (mkPTE 0 true). split; [|done].
    rewrite Hpt. apply list_lookup_insert_eq. rewrite length_replicate. lia.
  - apply vec_get_Some. rewrite Hft.
    change (N.to_nat 0) with 0%nat.
    rewrite list_lookup_insert_eq by (rewrite length_replicate; lia).
    reflexivity.
Qed.

Lemma flat_manager_swept n : swept n 0 (flat_manager n FIFO).
Proof.
  split; [done|]. split; [intros j ?; lia|]. split.
  - intros j _ Hj. simpl. by apply lookup_replicate.
  - intros p e _ He. simpl in He. by apply lookup_replicate in He as [-> _].
Qed.

Lemma swept_first_free n k s :
  swept n k s → (k < N.to_nat n)%nat →
  find_free (frameTable s) 0 = Some (N.of_nat k).
Proof.
  intros (_ & Hocc & Hfree & _) Hk. apply find_free_Some.
  exists k. split; [lia|]. split; [by apply Hfree|].
  intros j z Hj Hz. destruct (Hocc j Hj) as (z' & Hz' & Hne). congruence.
Qed.

Lemma swept_step n k s :
  swept n k s → (k < N.to_nat n)%nat → (Z.of_nat k < 2 ^ 31)%Z → n < 2 ^ 64 →
  ∃ s' t, accessAddress s 0 (N.of_nat k) = Some (s', Translated t) ∧
          swept n (S k) s'.
Proof.
  intros Hsw Hk Hint Hn. pose proof Hsw as (Hcfg & Hocc & Hfree & Hpages).
  pose proof Hcfg as (Hps & _ & _ & _ & Hpol & Hlp & Hlf).
  simpl in Hps, Hpol, Hlp, Hlf. rewrite length_replicate in Hlp.
  rewrite length_replicate in Hlf.
  assert (target s 0 (N.of_nat k) = Some (N.of_nat k, N.of_nat k)) as Ht
    by (apply (flat_target n FIFO); [done|lia|done]).
  destruct (lookup_lt_is_Some_2 (pageTable s) k) as [e He]; [lia|].
  pose proof (Hpages k e (le_n k) He) as Hv.
  pose proof (swept_first_free _ _ _ Hsw Hk) as Hff.
  assert (to_int (N.of_nat k) = Z.of_nat k) as Hti
    by (rewrite to_int_small; lia).
  destruct (accessAddress_fault_free s 0 (N.of_nat k) _ _ e (N.of_nat k) Ht)
    as (s' & t & Ha & Hpt & Hft & _); try done.
  { by rewrite Hps. }
  { by rewrite Nat2N.id. }
  { rewrite Hti. lia. }
  { rewrite Hti, to_size_t_of_nat; lia. }
  exists s', t. split; [done|].
  rewrite Hti, to_size_t_of_nat in Hft by lia.
  rewrite Nat2N.id in Hpt.
  split; [|split; [|split]].
  - etrans; [exact Hcfg|]. by eapply accessAddress_config.
  - intros j Hj. rewrite Hft. destruct (decide (j = k)) as [->|Hne].
    + exists (Z.of_nat k). rewrite list_lookup_insert_eq by lia.
      split; [done|lia].
    + rewrite list_lookup_insert_ne by done. apply Hocc. lia.
  - intros j Hj Hjn. rewrite Hft, list_lookup_insert_ne by lia.
    apply Hfree; lia.
  - intros p e' Hp. rewrite Hpt, list_lookup_insert_ne by lia.
    apply Hpages. lia.
Qed.

Lemma swept_run n (k j0 : nat) s log :
  swept n j0 s → (j0 + k ≤ N.to_nat n)%nat → (Z.of_nat (j0 + k) ≤ 2 ^ 31)%Z →
  n < 2 ^ 64 →
  ∃ s' log',
    run s log ((λ i : nat, (0, N.of_nat i)) <$> seq j0 k) = Some (s', log') ∧
    swept n (j0 + k) s'.
Proof.
  revert j0 s log. induction k as [|k IH]; intros j0 s log Hsw Hle Hint Hn.
  { exists s, log. split; [done|]. by rewrite Nat.add_0_r. }
  destruct (swept_step n j0 s) as (s1 & t & Ha & Hsw1); [done|lia|lia|done|].
  destruct (IH (S j0) s1 (events (Translated t) ++ log)) as (s' & log' & Hrun & Hsw');
    [done|lia|lia|done|].
  exists s', log'. split.
  - simpl. rewrite Ha. simpl. exact Hrun.
  - by replace (j0 + S k)%nat with (S j0 + k)%nat by lia.
Qed.

(** Once the frames below [2^31] are occupied, the next fault computes
    [freeFrame = static_cast<int>(2^31) = -2^31] and writes
    [frameTable[freeFrame]] outside the table. *)
Lemma wide_sweep_is_undefined n w :
  w < n → Z.of_N w = (2 ^ 31)%Z → n ≤ 2 ^ 64 - 2 ^ 31 →
  ∃ s log,
    run (flat_manager n FIFO) [] (sweep (N.to_nat w)) = Some (s, log) ∧
    accepted s 0 w ∧
    target s 0 w = Some (w, w) ∧ w < numPages (flat_manager n FIFO) ∧
    accessAddress s 0 w = None.
Proof.
  intros Hw Hwide Hn.
  destruct (swept_run n (N.to_nat w) 0 (flat_manager n FIFO) [])
    as (s & log & Hrun & Hsw); [apply flat_manager_swept|lia|lia|lia|].
  simpl in Hsw. exists s, log. split; [exact Hrun|].
  pose proof Hsw as (Hcfg & Hocc & Hfree & Hpages).
  pose proof Hcfg as (Hps & _ & _ & _ & Hpol & Hlp & Hlf).
  simpl in Hps, Hpol, Hlp, Hlf. rewrite length_replicate in Hlp.
  rewrite length_replicate in Hlf.
  assert (target s 0 w = Some (w, w)) as Ht
    by (apply (flat_target n FIFO); [done|lia|lia]).
  split; [by eexists|]. split; [done|]. split; [done|].
  destruct (lookup_lt_is_Some_2 (pageTable s) (N.to_nat w)) as [e He]; [lia|].
  pose proof (Hpages _ e (le_n _) He) as Hv.
  pose proof (swept_first_free _ _ _ Hsw ltac:(lia)) as Hff.
  rewrite N2Nat.id in Hff.
  assert (to_int w = (- 2 ^ 31)%Z) as Hti.
  { assert (w = 2 ^ 31) as -> by lia. apply to_int_first_wide. }
  eapply accessAddress_fault_outside; try done.
  - by rewrite Hps.
  - by rewrite Hti.
  - rewrite Hti. pose proof (to_size_t_neg (- 2 ^ 31)). lia.
Qed.

(** C10 fails beyond [int]: in the manager with [2^31 + 1] one-byte pages
    (the page size divides the memory size, the list of names is not
    empty), after the requests for the bytes [0 .. 2^31 - 1] the accepted
    request for byte [2^31], whose page number is inside the page table,
    indexes the frame table outside its bounds. *)
Lemma frame_index_outside_beyond_int :
  ∃ E s log,
    construct 2147483649 1 ["all"]%string FIFO = Some E ∧
    (1 | 2147483649) ∧
    run E [] (sweep (N.to_nat 2147483648)) = Some (s, log) ∧
    accepted s 0 2147483648 ∧
    target s 0 2147483648 = Some (2147483648, 2147483648) ∧
    2147483648 < numPages E ∧
    accessAddress s 0 2147483648 = None.
Proof.
  exists (flat_manager 2147483649 FIFO).
  destruct (wide_sweep_is_undefined 2147483649 2147483648)
    as (s & log & H); [lia|reflexivity|lia|].
  exists s, log. split; [apply construct_flat|].
  split; [apply N.divide_1_l | exact H].
Qed.

(** ** Concrete runs *)

(** The scenario of the specification: 1024 bytes, pages of 256, two
    segments of 512; the request (1, 10) is the logical address 522 in page
    2 at offset 10, faults, takes frame 0 and is translated to 10. *)
Example scenario_first_access :
  ∃ E s,
    construct 1024 256 ["code"; "data"]%string FIFO = Some E ∧
    accessAddress E 1 10 =
      Some (s, Translated (mkTranslation true 2 522 10 0 10)) ∧
    frameTable s = [2; -1; -1; -1]%Z ∧ fifoQueue s = [2] ∧
    pageFaults s = 1 ∧ accesses s = 1.
Proof. eexists _, _. split; [reflexivity|]. by vm_compute. Qed.

(** A memory size that the page size does not divide: the accepted request
    (0, 900) has page number 3 in a page table of 3 entries. *)
Example misaligned_request_is_undefined :
  ∃ E, construct 1000 256 ["all"]%string FIFO = Some E ∧
       accepted E 0 900 ∧ numPages E = 3 ∧
       target E 0 900 = Some (900, 3) ∧
       accessAddress E 0 900 = None.
Proof. eexists. split; [reflexivity|]. split; [by eexists|]. by vm_compute. Qed.

Lemma construct_scenario pol :
  construct 1024 256 ["code"; "data"]%string pol = Some (scenario_manager pol).
Proof. reflexivity. Qed.

(** Under LRU, after the request (1, 10) has loaded page 2 into frame 0:
    the request (1, 20) is a hit in the same page. *)
Lemma translation_formula_witness :
  ∃ s log s' t,
    construct 1024 256 ["code"; "data"]%string LRU = Some (scenario_manager LRU) ∧
    1024 < 2 ^ 64 ∧ (256 | 1024) ∧
    numPages (scenario_manager LRU) ≤ 2 ^ 31 ∧
    run (scenario_manager LRU) [] [(1, 10)] = Some (s, log) ∧
    accepted s 1 20 ∧
    accessAddress s 1 20 = Some (s', Translated t) ∧
    t_logicalAddr t = 512 + 20 ∧ t_page t = 532 / 256 ∧ t_fault t = false ∧
    vec_get (pageTable s') 2 = Some (mkPTE 0 true) ∧
    t_physicalAddr t = 0 * 256 + 532 mod 256.
Proof.
  assert (Hm : 1024 < 2 ^ 64) by (vm_compute; reflexivity).
  assert (Hd : (256 | 1024)) by (exists 4; reflexivity).
  assert (Hp : numPages (scenario_manager LRU) ≤ 2 ^ 31)
    by (vm_compute; discriminate).
  eexists _, _, _, _.
  split; [reflexivity|]. split; [exact Hm|]. split; [exact Hd|].
  split; [exact Hp|].
  match goal with |- ?R ∧ _ => assert R as Hrun by (vm_compute; reflexivity) end.
  split; [exact Hrun|].
  match goal with |- ?R ∧ _ => assert R as Hacc by (by eexists) end.
  split; [exact Hacc|].
  match goal with |- ?R ∧ _ => assert R as Ha by (vm_compute; reflexivity) end.
  split; [exact Ha|].
  destruct (translation_formula 1024 256 ["code"; "data"]%string LRU
              (scenario_manager LRU) _ 1 20
              (construct_scenario LRU) Hm Hd Hp
              (ex_intro _ _ (ex_intro _ _ Hrun)) Hacc)
    as (s' & t & seg & frame & Ha' & Hseg & Hla & Hpn & Hfault & Hent & Hfn
        & Hlt & Hphys & _).
  rewrite Ha in Ha'. injection Ha' as <- <-.
  injection Hseg as <-. simpl in Hfn.
  assert (frame = 0) as -> by lia.
  split; [exact Hla|]. split; [exact Hpn|]. split; [reflexivity|].
  split; [exact Hent|]. exact Hphys.
Defined.

(** C1 fails outside that domain: the page size 256 does not divide the
    memory size 1000; the accepted request (0, 900) of the manager just
    constructed has page number 3 in a page table of 3 entries, and the
    call has no result. *)
Lemma translation_without_result :
  ∃ E, construct 1000 256 ["all"]%string FIFO = Some E ∧
       1000 < 2 ^ 64 ∧ numPages E ≤ 2 ^ 31 ∧ ¬ (256 | 1000) ∧
       reachable E E ∧ accepted E 0 900 ∧
       target E 0 900 = Some (900, 3) ∧
       N.of_nat (length (pageTable E)) = 3 ∧
       accessAddress E 0 900 = None.
Proof.
  eexists. split; [reflexivity|]. split; [reflexivity|].
  split; [vm_compute; discriminate|].
  split; [intros [k Hk]; lia|].
  split; [apply reachable_refl|]. split; [by eexists|]. by vm_compute.
Qed.



(** C7 fails: a memory of 100 bytes with pages of 256 bytes has no frame,
    and the constructor returns a manager with empty tables, whatever the
    allocator grants. *)
Lemma construct_accepts_zero_frames :
  100 / 256 = 0 ∧
  ∃ E, construct 100 256 ["only"]%string FIFO = Some E ∧
       numFrames E = 0 ∧ pageTable E = [] ∧ frameTable E = [] ∧
       construct_within 0 100 256 ["only"]%string FIFO = Built E.
Proof. split; [reflexivity|]. eexists. split; [reflexivity|]. done. Qed.

(** ** The segments built by the constructor *)

Lemma length_make_segments names k segSize :
  length (make_segments k segSize names) = length names.
Proof. revert k. induction names as [|n rest IH]; intros k; simpl; [done|]. by rewrite IH. Qed.

Lemma make_segments_nth names k segSize (j : nat) nm :
  names !! j = Some nm →
  make_segments k segSize names !! j
  = Some (mkSegment nm (size_wrap (size_wrap (k + N.of_nat j) * segSize)) segSize).
Proof.
  revert k j. induction names as [|n rest IH]; intros k j Hj; [done|].
  destruct j as [|j]; simpl in *.
  - injection Hj as ->. do 2 f_equal. unfold size_wrap.
    rewrite N.add_0_r. by rewrite N.Div0.mul_mod_idemp_l.
  - rewrite (IH _ _ Hj). do 3 f_equal.
    replace (k + N.of_nat (S j)) with (k + 1 + N.of_nat j) by lia.
    unfold size_wrap. by rewrite N.Div0.add_mod_idemp_l.
Qed.

Lemma segment_size_bound (memSize n : N) :
  n ≠ 0 → n * (memSize / n) ≤ memSize ∧ memSize - n * (memSize / n) < n.
Proof.
  intros Hn. pose proof (N.div_mod memSize n Hn) as Hdm.
  pose proof (N.mod_lt memSize n Hn) as Hlt.
  set (q := memSize / n) in *. set (r := memSize mod n) in *.
  clearbody q r. lia.
Qed.

Lemma constructed_segment memSize pageSz segNames pol E (i : nat) seg :
  construct memSize pageSz segNames pol = Some E →
  memSize < 2 ^ 64 →
  segments E !! i = Some seg →
  segNames !! i = Some (name seg) ∧
  base seg = N.of_nat i * (memSize / N.of_nat (length segNames)) ∧
  limit seg = memSize / N.of_nat (length segNames) ∧
  base seg + limit seg ≤ memSize.
Proof.
  intros HE Hmem Hseg.
  destruct (construct_fields _ _ _ _ _ HE) as (_ & Hne & _ & _ & _ & _ & _ & Hsegs & _).
  rewrite Hsegs in Hseg.
  assert (i < length segNames)%nat as Hi.
  { apply lookup_lt_Some in Hseg. by rewrite length_make_segments in Hseg. }
  destruct (lookup_lt_is_Some_2 segNames i Hi) as [nm Hnm].
  rewrite (make_segments_nth _ _ _ _ _ Hnm) in Hseg. injection Hseg as <-. simpl.
  set (n := N.of_nat (length segNames)) in *.
  assert (n ≠ 0) as Hn by (destruct segNames; [done | subst n; simpl; lia]).
  destruct (segment_size_bound memSize n Hn) as [Hle _].
  assert (N.of_nat i + 1 ≤ n) as Hin by (subst n; lia).
  set (sz := memSize / n) in *. clearbody sz n.
  assert (N.of_nat i * sz + sz ≤ n * sz) as Hi'.
  { rewrite <- (N.mul_1_l sz) at 2.
    rewrite <- N.mul_add_distr_r. by apply N.mul_le_mono_r. }
  assert (size_wrap (size_wrap (0 + N.of_nat i) * sz) = N.of_nat i * sz) as ->.
  { destruct (decide (sz = 0)) as [->|Hsz].
    - rewrite !N.mul_0_r. by rewrite size_wrap_small by lia.
    - assert (N.of_nat i < 2 ^ 64).
      { assert (n * 1 ≤ n * sz) by (apply N.mul_le_mono_l; lia). lia. }
      rewrite (size_wrap_small (0 + N.of_nat i)) by lia.
      rewrite N.add_0_l. apply size_wrap_small. lia. }
  repeat split; [done | lia].
Qed.

(** X1.  The constructor cuts the memory into as many segments as names were
    given, all of size [memSize / n], laid out one after the other from
    address 0 in the order of the names; nothing wraps around, and what is
    left over behind the last segment is shorter than [n] bytes. *)
Theorem segments_tile_memory memSize pageSz segNames pol E :
  construct memSize pageSz segNames pol = Some E →
  memSize < 2 ^ 64 →
  length (segments E) = length segNames ∧
  (∀ (i : nat) seg, segments E !! i = Some seg →
     segNames !! i = Some (name seg) ∧
     base seg = N.of_nat i * (memSize / N.of_nat (length segNames)) ∧
     limit seg = memSize / N.of_nat (length segNames) ∧
     base seg + limit seg ≤ memSize) ∧
  (∀ (i : nat) seg seg',
     segments E !! i = Some seg → segments E !! S i = Some seg' →
     base seg' = base seg + limit seg) ∧
  N.of_nat (length segNames) * (memSize / N.of_nat (length segNames)) ≤ memSize ∧
  memSize - N.of_nat (length segNames) * (memSize / N.of_nat (length segNames))
    < N.of_nat (length segNames).
Proof.
  intros HE Hmem.
  destruct (construct_fields _ _ _ _ _ HE) as (_ & Hne & _ & _ & _ & _ & _ & Hsegs & _).
  split; [by rewrite Hsegs, length_make_segments|].
  split; [intros i seg; by apply (constructed_segment _ _ _ _ _ _ _ HE)|].
  split.
  - intros i seg seg' H1 H2.
    destruct (constructed_segment _ _ _ _ _ _ _ HE Hmem H1) as (_ & -> & -> & _).
    destruct (constructed_segment _ _ _ _ _ _ _ HE Hmem H2) as (_ & -> & _ & _).
    lia.
  - apply segment_size_bound. destruct segNames; [done | simpl; lia].
Qed.

Lemma segments_tile_memory_witness :
  ∃ E, construct 1000 256 ["a"; "b"; "c"]%string FIFO = Some E ∧
       1000 < 2 ^ 64 ∧
       length (segments E) = 3%nat ∧
       segments E !! 2%nat = Some (mkSegment "c" 666 333) ∧
       1000 - 3 * (1000 / 3) < 3.
Proof.
  eexists. split; [reflexivity|]. split; [reflexivity|].
  match goal with |- context [segments ?E] =>
    destruct (segments_tile_memory 1000 256 ["a"; "b"; "c"]%string FIFO E
                eq_refl eq_refl) as (Hlen & _ & _ & _ & Hrest)
  end.
  split; [exact Hlen|]. split; [reflexivity|]. exact Hrest.
Defined.

(** ** Logical addresses *)

Lemma constructed_vec_get memSize pageSz segNames pol E s segIdx seg :
  construct memSize pageSz segNames pol = Some E →
  memSize < 2 ^ 64 →
  segments s = segments E →
  vec_get (segments s) segIdx = Some seg →
  segIdx < N.of_nat (length segNames) ∧
  base seg = segIdx * (memSize / N.of_nat (length segNames)) ∧
  limit seg = memSize / N.of_nat (length segNames).
Proof.
  intros HE Hmem Hsegs Hget. rewrite Hsegs in Hget.
  apply vec_get_Some in Hget.
  destruct (constructed_segment _ _ _ _ _ _ _ HE Hmem Hget) as (Hnm & Hb & Hl & _).
  apply lookup_lt_Some in Hnm. rewrite N2Nat.id in Hb. split; [lia|done].
Qed.

Lemma constructed_vec_get_is_Some memSize pageSz segNames pol E s segIdx :
  construct memSize pageSz segNames pol = Some E →
  segments s = segments E →
  segIdx < N.of_nat (length segNames) → is_Some (vec_get (segments s) segIdx).
Proof.
  intros HE Hsegs Hlt. apply vec_get_is_Some. rewrite Hsegs.
  destruct (construct_fields _ _ _ _ _ HE) as (_ & _ & _ & _ & _ & _ & _ & -> & _).
  by rewrite length_make_segments.
Qed.

(** X2.  In a constructed manager a request is accepted exactly when its
    segment index is below the number of segments and its offset below the
    segment size; its logical address is [segIdx * segSize + offset],
    from which index and offset are recovered by division, so that two
    accepted requests with the same logical address are the same request;
    and every address below [n * segSize] is the address of a request. *)
Theorem logical_address_round_trip memSize pageSz segNames pol E s :
  construct memSize pageSz segNames pol = Some E →
  memSize < 2 ^ 64 →
  reachable E s →
  (∀ segIdx offset,
     accepted s segIdx offset ↔
     segIdx < N.of_nat (length segNames) ∧
     offset < memSize / N.of_nat (length segNames)) ∧
  (∀ segIdx offset la pn,
     target s segIdx offset = Some (la, pn) →
     la = segIdx * (memSize / N.of_nat (length segNames)) + offset ∧
     la < N.of_nat (length segNames) * (memSize / N.of_nat (length segNames)) ∧
     segIdx = la / (memSize / N.of_nat (length segNames)) ∧
     offset = la mod (memSize / N.of_nat (length segNames)) ∧
     pn = la / pageSz) ∧
  (∀ la,
     la < N.of_nat (length segNames) * (memSize / N.of_nat (length segNames)) →
     target s (la / (memSize / N.of_nat (length segNames)))
              (la mod (memSize / N.of_nat (length segNames)))
     = Some (la, la / pageSz)).
Proof.
  intros HE Hmem Hreach.
  destruct (reachable_config _ _ Hreach) as (Hps & _ & _ & Hsegs & _).
  destruct (construct_fields _ _ _ _ _ HE) as (_ & Hne & HpsE & _).
  set (n := N.of_nat (length segNames)) in *.
  set (sz := memSize / n) in *.
  assert (n ≠ 0) as Hn by (destruct segNames; [done | subst n; simpl; lia]).
  destruct (segment_size_bound memSize n Hn) as [Hle _]. fold sz in Hle.
  assert (∀ a o, a < n → o < sz → a * sz + o < n * sz) as Hin.
  { intros a o Ha Ho. assert ((a + 1) * sz ≤ n * sz) by (apply N.mul_le_mono_r; lia). lia. }
  assert (∀ segIdx offset la pn,
     target s segIdx offset = Some (la, pn) →
     segIdx < n ∧ offset < sz ∧ la = segIdx * sz + offset ∧ pn = la / pageSz) as Htgt.
  { intros a o la pn (seg & Hget & Hlt & -> & ->)%target_Some.
    destruct (constructed_vec_get _ _ _ _ _ _ _ _ HE Hmem Hsegs Hget) as (Ha & Hb & Hl).
    rewrite Hl in Hlt. rewrite Hb, Hps, HpsE. fold n sz.
    rewrite size_wrap_small by (specialize (Hin a o Ha Hlt); lia). done. }
  assert (∀ a o, a < n → o < sz →
     target s a o = Some (a * sz + o, (a * sz + o) / pageSz)) as Hmk.
  { intros a o Ha Ho.
    destruct (constructed_vec_get_is_Some _ _ _ _ _ s a HE Hsegs Ha) as [seg Hget].
    destruct (constructed_vec_get _ _ _ _ _ _ _ _ HE Hmem Hsegs Hget) as (_ & Hb & Hl).
    apply target_Some. exists seg. fold n sz in Hb, Hl.
    rewrite Hb, Hl, Hps, HpsE.
    rewrite size_wrap_small by (specialize (Hin a o Ha Ho); lia). done. }
  clear Hsegs HE Hreach. clearbody sz n.
  split; [|split].
  - intros a o. split.
    + intros [[la pn] H]. by destruct (Htgt _ _ _ _ H) as (? & ? & _).
    + intros [Ha Ho]. eexists. by apply Hmk.
  - intros a o la pn H. destruct (Htgt _ _ _ _ H) as (Ha & Ho & -> & ->).
    assert (sz ≠ 0) as Hsz by lia.
    split; [done|]. split; [by apply Hin|].
    split; [|split; [|done]].
    + apply (N.div_unique _ _ _ o); [done | lia].
    + apply (N.mod_unique _ _ a); [done | lia].
  - intros la Hla.
    assert (sz ≠ 0) as Hsz by (intros Hz; rewrite Hz, N.mul_0_r in Hla; lia).
    pose proof (N.div_mod la sz Hsz) as Hdm.
    pose proof (N.mod_lt la sz Hsz) as Hmod.
    assert (la / sz < n) as Hdiv.
    { apply N.Div0.div_lt_upper_bound. by rewrite N.mul_comm. }
    assert (la / sz * sz + la mod sz = la) as Heq.
    { rewrite (N.mul_comm _ sz). by symmetry. }
    by rewrite (Hmk _ _ Hdiv Hmod), Heq.
Qed.

Lemma logical_address_round_trip_witness :
  ∃ E, construct 1024 256 ["code"; "data"]%string FIFO = Some E ∧
       1024 < 2 ^ 64 ∧ reachable E E ∧
       (accepted E 1 511 ↔ 1 < 2 ∧ 511 < 512) ∧
       target E (1023 / 512) (1023 mod 512) = Some (1023, 3).
Proof.
  eexists. split; [reflexivity|]. split; [reflexivity|].
  match goal with |- reachable ?E _ ∧ _ =>
    destruct (logical_address_round_trip 1024 256 ["code"; "data"]%string FIFO E E
                eq_refl eq_refl (reachable_refl E)) as (Hacc & _ & Hsur)
  end.
  split; [apply reachable_refl|].
  split; [exact (Hacc 1 511)|]. exact (Hsur 1023 eq_refl).
Defined.

(** ** Runs *)

Lemma run_log_irrelevant s log1 log2 reqs s' log' :
  run s log1 reqs = Some (s', log') → ∃ log'', run s log2 reqs = Some (s', log'').
Proof.
  revert s log1 log2. induction reqs as [|[a o] rest IH]; intros s log1 log2 H.
  - injection H as <- <-. by eexists.
  - simpl in *. destruct (accessAddress s a o) as [[s1 r]|]; [|done]. simpl in *.
    by eapply IH.
Qed.

Lemma reachable_run s0 s log reqs s' log' :
  reachable s0 s → run s log reqs = Some (s', log') → reachable s0 s'.
Proof.
  intros (reqs0 & log0 & H0) H.
  destruct (run_log_irrelevant _ _ log0 _ _ _ H) as [log'' H'].
  exists (reqs0 ++ reqs), log''. rewrite run_app, H0. done.
Qed.

Lemma run_log_length s log reqs s' log' :
  run s log reqs = Some (s', log') →
  (length log ≤ length log' ≤ length log + length reqs)%nat.
Proof.
  revert s log. induction reqs as [|[a o] rest IH]; intros s log H.
  - injection H as <- <-. simpl. lia.
  - simpl in *. destruct (accessAddress s a o) as [[s1 r]|]; [|done]. simpl in *.
    apply IH in H. rewrite length_app in H.
    assert (length (events r) ≤ 1)%nat by (destruct r; simpl; lia).
    lia.
Qed.

(** X3.  No sequence of calls changes the page size, the numbers of frames
    and pages, the segment table, the policy or the lengths of the two
    tables. *)
Theorem configuration_is_fixed s log reqs s' log' :
  run s log reqs = Some (s', log') →
  pageSize s' = pageSize s ∧ numFrames s' = numFrames s ∧
  numPages s' = numPages s ∧ segments s' = segments s ∧
  policy s' = policy s ∧
  length (pageTable s') = length (pageTable s) ∧
  length (frameTable s') = length (frameTable s).
Proof. intros H. exact (run_config _ _ _ _ _ H). Qed.

Lemma configuration_is_fixed_witness :
  ∃ s' log',
    run (three_pages_two_frames LRU) [] [(0, 0); (0, 1); (0, 2); (0, 7)]
      = Some (s', log') ∧
    policy s' = LRU ∧ length (pageTable s') = 3%nat ∧
    length (frameTable s') = 2%nat.
Proof.
  eexists _, _.
  match goal with |- ?R ∧ _ => assert R as Hrun by (vm_compute; reflexivity) end.
  split; [exact Hrun|].
  destruct (configuration_is_fixed _ _ _ _ _ Hrun)
    as (_ & _ & _ & _ & Hpol & Hpt & Hft).
  split; [exact Hpol|]. split; [exact Hpt | exact Hft].
Defined.

(** ** Counters along a run *)

Lemma count_faults_le log : (count_faults log ≤ length log)%nat.
Proof. apply length_filter. Qed.

Lemma count_faults_cons p b log :
  count_faults ((p, b) :: log) = ((if b then 1 else 0) + count_faults log)%nat.
Proof.
  unfold count_faults. rewrite filter_cons. simpl.
  destruct b; case_decide; simpl; done.
Qed.

Lemma accessAddress_counts s log segIdx offset s' r :
  (N.of_nat (length log) < 2 ^ 64 →
   accesses s = N.of_nat (length log) ∧
   pageFaults s = N.of_nat (count_faults log)) →
  accessAddress s segIdx offset = Some (s', r) →
  N.of_nat (length (events r ++ log)) < 2 ^ 64 →
  accesses s' = N.of_nat (length (events r ++ log)) ∧
  pageFaults s' = N.of_nat (count_faults (events r ++ log)).
Proof.
  intros IH Hacc Hlen. destruct r as [| |t].
  - destruct (accessAddress_rejected _ _ _ _ _ Hacc) as [_ Hpure].
    rewrite (Hpure (or_introl eq_refl)). by apply IH.
  - destruct (accessAddress_rejected _ _ _ _ _ Hacc) as [_ Hpure].
    rewrite (Hpure (or_intror eq_refl)). by apply IH.
  - simpl in *.
    destruct (accessAddress_translated _ _ _ _ _ Hacc) as (Ha & Hf & _).
    destruct IH as [IHa IHf]; [lia|].
    pose proof (count_faults_le log) as Hle.
    rewrite Ha, Hf, IHa, IHf, count_faults_cons.
    split; [rewrite size_wrap_small; lia|].
    destruct (t_fault t); [rewrite size_wrap_small|]; lia.
Qed.

(** X4.  Starting from counters at zero, after a run of fewer than [2^64]
    requests [accesses] is the number of translated requests and
    [pageFaults] the number of those that faulted; so [pageFaults] never
    exceeds [accesses], and neither exceeds the number of requests. *)
Theorem counters_count_the_log s0 reqs s log :
  accesses s0 = 0 → pageFaults s0 = 0 →
  run s0 [] reqs = Some (s, log) →
  N.of_nat (length reqs) < 2 ^ 64 →
  accesses s = N.of_nat (length log) ∧
  pageFaults s = N.of_nat (count_faults log) ∧
  pageFaults s ≤ accesses s ∧
  accesses s ≤ N.of_nat (length reqs).
Proof.
  intros Ha0 Hf0 Hrun Hlen.
  pose proof (run_log_length _ _ _ _ _ Hrun) as Hll. simpl in Hll.
  assert (N.of_nat (length log) < 2 ^ 64 →
          accesses s = N.of_nat (length log) ∧
          pageFaults s = N.of_nat (count_faults log)) as H.
  { refine (run_invariant
      (λ s log, N.of_nat (length log) < 2 ^ 64 →
                accesses s = N.of_nat (length log) ∧
                pageFaults s = N.of_nat (count_faults log))
      _ reqs s0 [] s log _ Hrun).
    - intros s1 log1 a o s2 r IH Hacc. by apply (accessAddress_counts s1 log1 a o).
    - by intros _. }
  destruct H as [Ha Hf]; [lia|].
  pose proof (count_faults_le log). rewrite Ha, Hf. lia.
Qed.

Lemma counters_count_the_log_witness :
  ∃ s log,
    accesses (scenario_manager FIFO) = 0 ∧ pageFaults (scenario_manager FIFO) = 0 ∧
    run (scenario_manager FIFO) [] [(1, 10); (0, 600); (1, 20); (0, 0)]
      = Some (s, log) ∧
    accesses s = 3 ∧ pageFaults s = 2.
Proof.
  eexists _, _. split; [reflexivity|]. split; [reflexivity|].
  match goal with |- ?R ∧ _ => assert R as Hrun by (vm_compute; reflexivity) end.
  split; [exact Hrun|].
  destruct (counters_count_the_log (scenario_manager FIFO) _ _ _
              eq_refl eq_refl Hrun eq_refl)
    as (Ha & Hf & _).
  split; [exact Ha | exact Hf].
Defined.

(** ** The two trackers *)

Lemma handlePageFault_idle s p s' :
  idle_tracker_empty s → handlePageFault s p = Some s' → idle_tracker_empty s'.
Proof.
  intros Hidle (s1 & f & Hsel & Hload)%handlePageFault_inv.
  assert (idle_tracker_empty s1) as Hidle1.
  { apply select_frame_inv in Hsel as [(i & _ & _ & -> & _) | (s0 & v & _ & Hpop & Hev)];
      [done|].
    apply evict_inv in Hev as (e & _ & _ & _ & ->).
    unfold idle_tracker_empty in *.
    apply pop_victim_inv in Hpop
      as [(Hpol & rest & _ & ->) | (Hpol & nd & l & _ & ->)];
      simpl; rewrite Hpol in *; done. }
  apply load_page_inv in Hload as (_ & _ & Hs'). cbv zeta in Hs'. subst s'.
  unfold idle_tracker_empty in *. destruct (policy s1) eqn:Hpol; simpl;
    rewrite Hpol; done.
Qed.

Lemma handlePageFault_idle_counted s p s' a b :
  idle_tracker_empty s →
  handlePageFault (set_pageFaults (set_accesses s a) b) p = Some s' →
  idle_tracker_empty s'.
Proof. exact (handlePageFault_idle (set_pageFaults (set_accesses s a) b) p s'). Qed.

Lemma accessAddress_idle s segIdx offset s' r :
  idle_tracker_empty s → accessAddress s segIdx offset = Some (s', r) →
  idle_tracker_empty s'.
Proof.
  intros Hidle Hacc.
  destruct (accessAddress_inv _ _ _ _ _ Hacc)
    as [(_ & -> & _) | [(seg & _ & _ & -> & _) |
        (seg & e & s2 & e' & _ & _ & _ & H)]]; [done..|].
  cbv zeta in H. destruct H as (_ & Hs2 & Hs' & _).
  assert (idle_tracker_empty s2) as Hidle2.
  { destruct (valid e); [by subst s2|].
    by eapply handlePageFault_idle_counted. }
  destruct (policy s2) eqn:Hpol; [by injection Hs' as <-|].
  destruct (updateLRU_tables _ _ _ Hs') as (_ & _ & Hq & _).
  destruct (updateLRU_config _ _ _ Hs') as (_ & _ & _ & _ & Hpol' & _).
  unfold idle_tracker_empty in *. rewrite Hpol', Hpol in *. congruence.
Qed.

Lemma fresh_idle s : fresh s → idle_tracker_empty s.
Proof.
  intros (_ & _ & Hq & Hl & Hm). unfold idle_tracker_empty. by destruct (policy s).
Qed.

Lemma fresh_reachable_tracker s0 s :
  fresh s0 → reachable s0 s → tracker_ok s ∧ idle_tracker_empty s.
Proof.
  intros Hfresh Hreach.
  refine (reachable_invariant (λ s, tracker_ok s ∧ idle_tracker_empty s)
            s0 s _ _ Hreach).
  - intros s1 a o s2 r [Ht Hi] Hacc. split.
    + by eapply accessAddress_tracker_ok.
    + by eapply accessAddress_idle.
  - split; [by apply fresh_tracker_ok | by apply fresh_idle].
Qed.

(** X5.  In every state reached from a manager in which nothing is loaded,
    the container of the active policy lists exactly the resident pages,
    each once; under LRU the map holds, for exactly these pages, the node
    of the list that carries the page; the container of the other policy
    stays empty. *)
Theorem trackers_in_sync s0 s :
  fresh s0 → reachable s0 s →
  match policy s with
  | FIFO =>
      NoDup (fifoQueue s) ∧
      (∀ p, p ∈ fifoQueue s ↔ resident s p) ∧
      length (fifoQueue s) = count_resident s ∧
      lruList s = [] ∧ lruMap s = ∅
  | LRU =>
      NoDup (lruList s).*2 ∧
      (∀ p, p ∈ (lruList s).*2 ↔ resident s p) ∧
      length (lruList s) = count_resident s ∧
      (∀ p nd, lruMap s !! p = Some nd ↔ (nd, p) ∈ lruList s) ∧
      (∀ p, is_Some (lruMap s !! p) ↔ resident s p) ∧
      fifoQueue s = []
  end.
Proof.
  intros Hfresh Hreach.
  destruct (fresh_reachable_tracker _ _ Hfresh Hreach)
    as [(Hnd & Hmem & Hlen & Hlru) Hidle].
  unfold idle_tracker_empty, tracker, lru_ok in *.
  destruct (policy s) eqn:Hpol.
  - destruct Hidle as [Hl Hm]. done.
  - destruct (Hlru eq_refl) as (_ & _ & Hmap).
    rewrite length_fmap in Hlen.
    repeat split; try done; try apply Hmap; try apply Hmem.
    + intros [nd Hnd']. apply Hmem, list_elem_of_fmap.
      exists (nd, p). split; [done|]. by apply Hmap.
    + intros ((nd & q) & -> & Hin)%Hmem%list_elem_of_fmap. exists nd. by apply Hmap.
Qed.

Lemma trackers_in_sync_witness :
  ∃ s log,
    fresh (three_pages_two_frames LRU) ∧
    run (three_pages_two_frames LRU) [] [(0, 0); (0, 1); (0, 0); (0, 2)]
      = Some (s, log) ∧
    (lruList s).*2 = [2; 0] ∧
    NoDup (lruList s).*2 ∧ (∀ p, is_Some (lruMap s !! p) ↔ resident s p) ∧
    fifoQueue s = [].
Proof.
  eexists _, _. split; [apply three_pages_two_frames_fresh|].
  match goal with |- ?R ∧ _ => assert R as Hrun by (vm_compute; reflexivity) end.
  split; [exact Hrun|]. split; [vm_compute; reflexivity|].
  pose proof (trackers_in_sync _ _ (three_pages_two_frames_fresh LRU)
                (ex_intro _ _ (ex_intro _ _ Hrun))) as H.
  simpl in H. destruct H as (Hnd & _ & _ & _ & Hdom & Hq).
  split; [exact Hnd|]. split; [exact Hdom | exact Hq].
Defined.

(** ** The frame a fault takes *)

Lemma load_page_tables s f p s' :
  load_page s f p = Some s' →
  (N.to_nat p < length (pageTable s))%nat ∧
  (N.to_nat (to_size_t f) < length (frameTable s))%nat ∧
  pageTable s' = <[N.to_nat p := mkPTE f true]> (pageTable s) ∧
  frameTable s' = <[N.to_nat (to_size_t f) := to_int p]> (frameTable s).
Proof.
  intros (Hp & Hf & Hs')%load_page_inv. cbv zeta in Hs'. subst s'.
  by destruct (policy s).
Qed.

Lemma head_eviction_order s s1 v :
  tracker s = match policy s with
              | FIFO => v :: tracker s1
              | LRU => tracker s1 ++ [v]
              end →
  head (eviction_order s) = Some v.
Proof.
  intros Htr. rewrite eviction_order_tracker, Htr.
  destruct (policy s); [done|]. by rewrite reverse_snoc.
Qed.

(** What a translated request that faults does to the two tables: either
    the scan found a frame and nothing is evicted, or the victim at the
    head of the eviction order gives its frame. *)
Lemma accessAddress_fault_inv s segIdx offset s' t :
  tracker_ok s →
  accessAddress s segIdx offset = Some (s', Translated t) →
  t_fault t = true →
  (∃ e0, pageTable s !! N.to_nat (t_page t) = Some e0 ∧ valid e0 = false) ∧
  (N.to_nat (to_size_t (t_frameNum t)) < length (frameTable s))%nat ∧
  frameTable s' = <[N.to_nat (to_size_t (t_frameNum t)) := to_int (t_page t)]>
                    (frameTable s) ∧
  ((∃ i, find_free (frameTable s) 0 = Some i ∧ to_int i ≠ (-1)%Z ∧
         t_frameNum t = to_int i ∧
         pageTable s' = <[N.to_nat (t_page t) := mkPTE (t_frameNum t) true]>
                          (pageTable s)) ∨
   (∃ v e, (find_free (frameTable s) 0 = None ∨
            ∃ i, find_free (frameTable s) 0 = Some i ∧ to_int i = (-1)%Z) ∧
           head (eviction_order s) = Some v ∧
           pageTable s !! N.to_nat v = Some e ∧ valid e = true ∧
           t_frameNum t = frameNumber e ∧
           pageTable s' = <[N.to_nat (t_page t) := mkPTE (t_frameNum t) true]>
                            (<[N.to_nat v := mkPTE (t_frameNum t) false]>
                               (pageTable s)))).
Proof.
  intros Htok Hacc Hfault.
  destruct (accessAddress_inv _ _ _ _ _ Hacc)
    as [(_ & _ & [=]) | [(seg & _ & _ & _ & [=]) |
        (seg & e & s2 & e' & _ & _ & _ & H)]].
  cbv zeta in H. destruct H as (He & Hs2 & Hs' & He' & [= ->]).
  simpl in *.
  destruct (valid e) eqn:Hv; [done|].
  set (pn := size_wrap (base seg + offset) / pageSize s) in *.
  apply vec_get_Some in He. apply vec_get_Some in He'.
  assert (pageTable s' = pageTable s2 ∧ frameTable s' = frameTable s2)
    as [Hpt' Hft'].
  { destruct (policy s2); [by injection Hs' as <-|].
    by destruct (updateLRU_tables _ _ _ Hs') as (? & ? & _). }
  apply handlePageFault_inv in Hs2 as (s1 & f & Hsel & Hload).
  apply load_page_tables in Hload as (Hp & Hf & Hpt2 & Hft2).
  assert (frameNumber e' = f) as ->.
  { rewrite Hpt', Hpt2, list_lookup_insert_eq in He' by done.
    by injection He' as <-. }
  split; [by exists e|].
  apply select_frame_inv in Hsel
    as [(i & Hi & Hni & -> & ->) | (s0 & v & Hfull & Hpop & Hev)].
  - simpl in *. split; [done|]. split; [by rewrite Hft', Hft2|].
    left. exists i. by rewrite Hpt', Hpt2.
  - destruct (eviction_tracker
                (set_pageFaults (set_accesses s (size_wrap (accesses s + 1)))
                   (size_wrap (pageFaults s + 1))) _ _ _ _ Htok Hpop Hev)
      as (_ & _ & _ & _ & Htr & ev & Hev1 & Hev2 & -> & Hidx & Hpt1 & Hft1).
    simpl in *.
    split; [done|].
    split; [by rewrite Hft', Hft2, Hft1, list_insert_insert_eq|].
    right. exists v, ev. split; [done|].
    split; [by eapply (head_eviction_order s)|].
    by rewrite Hpt', Hpt2, Hpt1.
Qed.

Lemma fresh_reachable_frames s0 s :
  fresh s0 →
  (Z.of_nat (length (frameTable s0)) ≤ 2 ^ 31)%Z →
  (Z.of_nat (length (pageTable s0)) ≤ 2 ^ 31)%Z →
  reachable s0 s → frames_ok s ∧ tracker_ok s.
Proof.
  intros Hfresh Hft Hpt Hreach.
  refine (reachable_invariant (λ s, frames_ok s ∧ tracker_ok s) s0 s _ _ Hreach).
  - intros s1 a o s2 r [Hf Ht] Hacc. split.
    + by eapply accessAddress_frames_ok.
    + by eapply accessAddress_tracker_ok.
  - split; [by apply fresh_frames_ok | by apply fresh_tracker_ok].
Qed.

Lemma find_free_in_range (ft : list Z) i :
  (Z.of_nat (length ft) ≤ 2 ^ 31)%Z → find_free ft 0 = Some i →
  ∃ j : nat, i = N.of_nat j ∧ to_int i = Z.of_nat j ∧
             N.to_nat (to_size_t (to_int i)) = j ∧
             ft !! j = Some (-1)%Z ∧
             ∀ (j' : nat) z, (j' < j)%nat → ft !! j' = Some z → z ≠ (-1)%Z.
Proof.
  intros Hlen (j & -> & Hj & Hlow)%find_free_Some.
  pose proof (lookup_lt_Some _ _ _ Hj) as Hlt.
  exists j. rewrite N.add_0_l.
  assert (to_int (N.of_nat j) = Z.of_nat j) as ->
    by (rewrite to_int_small; lia).
  split; [done|]. split; [done|]. split; [apply to_size_t_of_nat; lia|].
  split; [done|]. exact Hlow.
Qed.

(** The frame of a fault in a state whose tables are inverse to each other. *)
Lemma fault_frame s segIdx offset s' t :
  frames_ok s → tracker_ok s →
  accessAddress s segIdx offset = Some (s', Translated t) →
  t_fault t = true →
  ∃ f : nat,
    t_frameNum t = Z.of_nat f ∧ (f < length (frameTable s))%nat ∧
    frameTable s' = <[f := Z.of_N (t_page t)]> (frameTable s) ∧
    match find_free (frameTable s) 0 with
    | Some i =>
        i = N.of_nat f ∧ frameTable s !! f = Some (-1)%Z ∧
        (∀ (j : nat) z, (j < f)%nat → frameTable s !! j = Some z → z ≠ (-1)%Z) ∧
        pageTable s' = <[N.to_nat (t_page t) := mkPTE (Z.of_nat f) true]>
                         (pageTable s)
    | None =>
        ∃ v e, head (eviction_order s) = Some v ∧
          pageTable s !! N.to_nat v = Some e ∧ valid e = true ∧
          frameNumber e = Z.of_nat f ∧
          frameTable s !! f = Some (Z.of_N v) ∧
          pageTable s' = <[N.to_nat (t_page t) := mkPTE (Z.of_nat f) true]>
                           (<[N.to_nat v := mkPTE (Z.of_nat f) false]>
                              (pageTable s))
    end.
Proof.
  intros Hfok Htok Hacc Hfault.
  destruct Hfok as (Hlenf & Hlenp & Hfwd & _ & _).
  destruct (accessAddress_fault_inv _ _ _ _ _ Htok Hacc Hfault)
    as ((e0 & He0 & _) & Hidx & Hft' & Hcase).
  pose proof (lookup_lt_Some _ _ _ He0) as Hplt.
  assert (to_int (t_page t) = Z.of_N (t_page t)) as Hp
    by (rewrite to_int_small; lia).
  rewrite Hp in Hft'.
  destruct Hcase as [(i & Hi & Hni & Hfn & Hpt') |
                     (v & e & Hfull & Hhead & Hv & Hvalid & Hfn & Hpt')].
  - destruct (find_free_in_range _ _ Hlenf Hi) as (j & -> & Hint & Hsz & Hj & Hlow).
    exists j. rewrite Hfn, Hint in *. rewrite Hi.
    rewrite to_size_t_of_nat in Hft' by lia.
    split; [done|]. split; [by eapply lookup_lt_Some|]. done.
  - assert (find_free (frameTable s) 0 = None) as Hnone.
    { destruct Hfull as [?|(i & Hi & Hneg)]; [done|].
      destruct (find_free_in_range _ _ Hlenf Hi) as (j & _ & Hint & _).
      lia. }
    destruct (Hfwd _ _ Hv Hvalid) as (f & Hf & Hfv).
    exists f. rewrite Hfn, Hf in *. rewrite Hnone.
    pose proof (lookup_lt_Some _ _ _ Hfv) as Hflt.
    rewrite to_size_t_of_nat in Hft' by lia.
    split; [done|]. split; [done|]. split; [done|].
    exists v, e. rewrite N_nat_Z in Hfv. done.
Qed.

(** X6.  From a manager in which nothing is loaded and whose tables [int]
    can index, a fault takes the lowest-numbered free frame and evicts
    nothing; when no frame is free it takes the frame of the page at the
    head of the eviction order, whose entry is invalidated.  Nothing else
    in the two tables changes. *)
Theorem fault_frame_choice s0 s segIdx offset s' t :
  fresh s0 →
  (Z.of_nat (length (frameTable s0)) ≤ 2 ^ 31)%Z →
  (Z.of_nat (length (pageTable s0)) ≤ 2 ^ 31)%Z →
  reachable s0 s →
  accessAddress s segIdx offset = Some (s', Translated t) →
  t_fault t = true →
  ∃ f : nat,
    t_frameNum t = Z.of_nat f ∧ (f < length (frameTable s))%nat ∧
    frameTable s' = <[f := Z.of_N (t_page t)]> (frameTable s) ∧
    match find_free (frameTable s) 0 with
    | Some i =>
        i = N.of_nat f ∧ frameTable s !! f = Some (-1)%Z ∧
        (∀ (j : nat) z, (j < f)%nat → frameTable s !! j = Some z → z ≠ (-1)%Z) ∧
        pageTable s' = <[N.to_nat (t_page t) := mkPTE (Z.of_nat f) true]>
                         (pageTable s)
    | None =>
        ∃ v e, head (eviction_order s) = Some v ∧
          pageTable s !! N.to_nat v = Some e ∧ valid e = true ∧
          frameNumber e = Z.of_nat f ∧
          frameTable s !! f = Some (Z.of_N v) ∧
          pageTable s' = <[N.to_nat (t_page t) := mkPTE (Z.of_nat f) true]>
                           (<[N.to_nat v := mkPTE (Z.of_nat f) false]>
                              (pageTable s))
    end.
Proof.
  intros Hfresh Hft Hpt Hreach Hacc Hfault.
  destruct (fresh_reachable_frames _ _ Hfresh Hft Hpt Hreach) as [Hfok Htok].
  by apply (fault_frame s segIdx offset).
Qed.

(** Pages 0 and 1 fill the two frames; the fault on page 2 then takes
    frame 0, that of page 0 at the head of the FIFO queue. *)
Lemma fault_frame_choice_witness :
  ∃ s log s' t,
    fresh (three_pages_two_frames FIFO) ∧
    run (three_pages_two_frames FIFO) [] [(0, 0); (0, 1)] = Some (s, log) ∧
    accessAddress s 0 2 = Some (s', Translated t) ∧
    t_fault t = true ∧
    find_free (frameTable s) 0 = None ∧
    head (eviction_order s) = Some 0 ∧
    t_frameNum t = 0%Z ∧
    frameTable s' = <[0%nat := 2%Z]> (frameTable s).
Proof.
  eexists _, _, _, _. split; [apply three_pages_two_frames_fresh|].
  match goal with |- ?R ∧ _ => assert R as Hrun by (vm_compute; reflexivity) end.
  split; [exact Hrun|].
  match goal with |- ?R ∧ _ => assert R as Hacc by (vm_compute; reflexivity) end.
  split; [exact Hacc|].
  split; [reflexivity|]. split; [reflexivity|]. split; [reflexivity|].
  destruct (fault_frame_choice (three_pages_two_frames FIFO) _ 0 2 _ _
              (three_pages_two_frames_fresh FIFO)
              ltac:(vm_compute; discriminate) ltac:(vm_compute; discriminate)
              (ex_intro _ _ (ex_intro _ _ Hrun)) Hacc eq_refl)
    as (f & Hfn & _ & Hft & _).
  simpl in Hfn. assert (f = 0%nat) as -> by lia.
  split; [reflexivity | exact Hft].
Defined.

(** ** Occupied frames *)

Lemma fresh_frames_in_order s : fresh s → frames_in_order s.
Proof.
  intros (_ & Hft & _) j z Hj.
  assert (count_occupied s = 0%nat) as ->.
  { unfold count_occupied. apply count_none.
    eapply Forall_impl; [exact Hft|]. intros x -> Hx. by apply Hx. }
  rewrite Forall_forall in Hft.
  assert (z = (-1)%Z) as -> by (apply Hft; by eapply list_elem_of_lookup_2).
  split; [done | lia].
Qed.

Lemma frames_in_order_first_free s (f : nat) :
  frames_in_order s → frameTable s !! f = Some (-1)%Z →
  (∀ (j : nat) z, (j < f)%nat → frameTable s !! j = Some z → z ≠ (-1)%Z) →
  f = count_occupied s.
Proof.
  intros Hord Hf Hlow.
  assert (¬ (f < count_occupied s)%nat) as H1.
  { intros Hlt. by apply (Hord _ _ Hf) in Hlt. }
  destruct (decide (count_occupied s < f)%nat) as [Hlt|]; [|lia].
  assert (count_occupied s < length (frameTable s))%nat as Hlen.
  { apply lookup_lt_Some in Hf. lia. }
  destruct (lookup_lt_is_Some_2 _ _ Hlen) as [z Hz].
  pose proof (Hlow _ _ Hlt Hz) as Hne.
  apply (Hord _ _ Hz) in Hne. lia.
Qed.

Lemma frames_in_order_insert s s' (f : nat) z0 z :
  frames_in_order s →
  frameTable s !! f = Some z0 → z ≠ (-1)%Z →
  (z0 = (-1)%Z → f = count_occupied s) →
  frameTable s' = <[f := z]> (frameTable s) →
  frames_in_order s'.
Proof.
  intros Hord Hf Hz Hfirst Hft' j y Hj.
  pose proof (count_occupied_insert s s' f z z0 Hft' Hf) as Hcount.
  pose proof (lookup_lt_Some _ _ _ Hf) as Hflt.
  rewrite Hft' in Hj.
  destruct (decide (f = j)) as [<-|Hne].
  - rewrite list_lookup_insert_eq in Hj by done. injection Hj as <-.
    pose proof (Hord _ _ Hf) as Hold.
    split; [intros _|done].
    destruct (decide (z0 = (-1)%Z)) as [Hz0|Hz0];
      destruct (decide (z = (-1)%Z)); try done.
    + specialize (Hfirst Hz0). lia.
    + apply Hold in Hz0. lia.
  - rewrite list_lookup_insert_ne in Hj by done.
    pose proof (Hord _ _ Hj) as Hold. rewrite Hold.
    destruct (decide (z0 = (-1)%Z)) as [Hz0|Hz0];
      destruct (decide (z = (-1)%Z)); try done.
    + specialize (Hfirst Hz0). lia.
    + lia.
Qed.

Lemma accessAddress_frames_in_order s segIdx offset s' r :
  frames_ok s → tracker_ok s → frames_in_order s →
  accessAddress s segIdx offset = Some (s', r) → frames_in_order s'.
Proof.
  intros Hfok Htok Hord Hacc.
  assert (frameTable s' = frameTable s → frames_in_order s') as Hsame.
  { intros Heq j z. unfold count_occupied. rewrite Heq. apply Hord. }
  destruct r as [| |t].
  - destruct (accessAddress_rejected _ _ _ _ _ Hacc) as [_ Hpure].
    by rewrite (Hpure (or_introl eq_refl)).
  - destruct (accessAddress_rejected _ _ _ _ _ Hacc) as [_ Hpure].
    by rewrite (Hpure (or_intror eq_refl)).
  - destruct (t_fault t) eqn:Hfault.
    + destruct (fault_frame _ _ _ _ _ Hfok Htok Hacc Hfault)
        as (f & _ & Hflt & Hft' & Hcase).
      assert (Z.of_N (t_page t) ≠ (-1)%Z) as Hp by lia.
      destruct (find_free (frameTable s) 0) as [i|].
      * destruct Hcase as (_ & Hf & Hlow & _).
        apply (frames_in_order_insert s s' f (-1)%Z (Z.of_N (t_page t)));
          try done.
        intros _. by apply frames_in_order_first_free.
      * destruct Hcase as (v & e & _ & _ & _ & _ & Hf & _).
        apply (frames_in_order_insert s s' f (Z.of_N v) (Z.of_N (t_page t)));
          try done.
        lia.
    + destruct (accessAddress_translated _ _ _ _ _ Hacc) as (_ & _ & _ & Hhit & _).
      apply Hsame. by apply Hhit.
Qed.

Lemma length_filter_Forall {A} (P : A → Prop) `{!∀ x, Decision (P x)} (l : list A) :
  Forall P l → length (filter P l) = length l.
Proof.
  induction 1 as [|x l Hx _ IH]; [done|].
  rewrite filter_cons. case_decide; [|done]. simpl. by rewrite IH.
Qed.

(** X7.  From a manager in which nothing is loaded and whose tables [int]
    can index, there are never more resident pages than frames: their
    number is that of the occupied frames, the occupied frames are the
    first ones of the frame table, and the scan finds no free frame exactly
    when as many pages are resident as there are frames. *)
Theorem resident_pages_fill_first_frames s0 s :
  fresh s0 →
  (Z.of_nat (length (frameTable s0)) ≤ 2 ^ 31)%Z →
  (Z.of_nat (length (pageTable s0)) ≤ 2 ^ 31)%Z →
  reachable s0 s →
  count_resident s = count_occupied s ∧
  (count_resident s ≤ length (frameTable s))%nat ∧
  (∀ (j : nat) z, frameTable s !! j = Some z →
     (z ≠ (-1)%Z ↔ (j < count_resident s)%nat)) ∧
  (find_free (frameTable s) 0 = None ↔
   count_resident s = length (frameTable s)).
Proof.
  intros Hfresh Hft Hpt Hreach.
  assert (frames_ok s ∧ tracker_ok s ∧ frames_in_order s) as (Hfok & Htok & Hord).
  { refine (reachable_invariant
              (λ s, frames_ok s ∧ tracker_ok s ∧ frames_in_order s) s0 s _ _ Hreach).
    - intros s1 a o s2 r (Hf & Ht & Ho) Hacc. split; [|split].
      + by eapply accessAddress_frames_ok.
      + by eapply accessAddress_tracker_ok.
      + by eapply accessAddress_frames_in_order.
    - split; [by apply fresh_frames_ok|].
      split; [by apply fresh_tracker_ok | by apply fresh_frames_in_order]. }
  destruct Hfok as (_ & _ & _ & _ & Hcount).
  rewrite Hcount. split; [done|].
  split; [apply length_filter|]. split; [exact Hord|].
  rewrite find_free_None. split.
  - apply length_filter_Forall.
  - apply count_all.
Qed.

Lemma resident_pages_fill_first_frames_witness :
  ∃ s log,
    fresh (three_pages_two_frames LRU) ∧
    run (three_pages_two_frames LRU) [] [(0, 2); (0, 0); (0, 1)] = Some (s, log) ∧
    count_resident s = 2%nat ∧ count_occupied s = 2%nat ∧
    find_free (frameTable s) 0 = None.
Proof.
  eexists _, _. split; [apply three_pages_two_frames_fresh|].
  match goal with |- ?R ∧ _ => assert R as Hrun by (vm_compute; reflexivity) end.
  split; [exact Hrun|].
  destruct (resident_pages_fill_first_frames (three_pages_two_frames LRU) _
              (three_pages_two_frames_fresh LRU)
              ltac:(vm_compute; discriminate) ltac:(vm_compute; discriminate)
              (ex_intro _ _ (ex_intro _ _ Hrun)))
    as (Hcount & _ & _ & Hfull).
  match goal with |- _ ∧ ?O ∧ _ =>
    assert O as Hocc by (vm_compute; reflexivity) end.
  split; [rewrite Hcount; exact Hocc|]. split; [exact Hocc|].
  apply Hfull. rewrite Hcount. exact Hocc.
Defined.

(** ** Constructed managers never evict *)

Lemma constructed_tracker_ok memSize pageSz segNames pol E s :
  construct memSize pageSz segNames pol = Some E →
  reachable E s → tracker_ok s.
Proof.
  intros HE Hreach.
  by destruct (fresh_reachable_tracker _ _ (construct_fresh _ _ _ _ _ HE) Hreach).
Qed.

Lemma constructed_table_lengths memSize pageSz segNames pol E s :
  construct memSize pageSz segNames pol = Some E →
  reachable E s →
  N.of_nat (length (pageTable s)) = numPages E ∧
  N.of_nat (length (frameTable s)) = numFrames E ∧
  numFrames E = numPages E.
Proof.
  intros HE Hreach.
  destruct (reachable_config _ _ Hreach) as (_ & _ & _ & _ & _ & -> & ->).
  destruct (construct_fields _ _ _ _ _ HE) as (_ & _ & _ & -> & -> & -> & -> & _).
  done.
Qed.

(** A fault in a constructed manager finds a free frame. *)
Lemma constructed_fault_free memSize pageSz segNames pol E s segIdx offset s' t :
  construct memSize pageSz segNames pol = Some E →
  reachable E s →
  accessAddress s segIdx offset = Some (s', Translated t) →
  t_fault t = true →
  (∃ e0, pageTable s !! N.to_nat (t_page t) = Some e0 ∧ valid e0 = false) ∧
  ∃ i, find_free (frameTable s) 0 = Some i ∧ to_int i ≠ (-1)%Z ∧
       t_frameNum t = to_int i ∧
       pageTable s' = <[N.to_nat (t_page t) := mkPTE (t_frameNum t) true]>
                        (pageTable s).
Proof.
  intros HE Hreach Hacc Hfault.
  pose proof (constructed_tracker_ok _ _ _ _ _ _ HE Hreach) as Htok.
  destruct (accessAddress_fault_inv _ _ _ _ _ Htok Hacc Hfault)
    as ((e0 & He0 & Hv0) & _ & _ & Hcase).
  split; [by exists e0|].
  destruct Hcase as [(i & Hi & Hni & Hfn & Hpt') | (v & e & Hfull & _)].
  { by exists i. }
  exfalso. destruct Hfull as [Hnone | (i & Hi & Hneg)].
  - destruct (constructed_table_lengths _ _ _ _ _ _ HE Hreach) as (Hlen & _ & _).
    pose proof (lookup_lt_Some _ _ _ He0) as Hplt.
    assert (t_page t < numPages E) as Hp by lia.
    destruct (full_table_all_resident _ _ _ _ _ _ _ HE Hreach Hnone Hp)
      as (e1 & He1 & Hv1).
    apply vec_get_Some in He1. congruence.
  - apply find_free_Some in Hi as (j & -> & Hj & Hlow).
    rewrite N.add_0_l in Hneg.
    pose proof (lookup_lt_Some _ _ _ Hj) as Hjlt.
    destruct (decide (Z.of_nat j < 2 ^ 31)%Z) as [Hsmall|Hbig].
    { rewrite to_int_small in Hneg by lia. lia. }
    destruct (decide (Z.of_nat j = 2 ^ 31)%Z) as [Heq|Hne].
    { assert (N.of_nat j = 2 ^ 31) as Hj31 by lia.
      rewrite Hj31, to_int_first_wide in Hneg. lia. }
    pose proof (constructed_spare_frame _ _ _ _ _ _ HE Hreach) as Hspare.
    assert (Z.of_nat (Z.to_nat (2 ^ 31)) = (2 ^ 31)%Z) as Hk by lia.
    specialize (Hspare (Z.to_nat (2 ^ 31)) Hk ltac:(lia)).
    by apply (Hlow (Z.to_nat (2 ^ 31)) (-1)%Z ltac:(lia)).
Qed.

Lemma constructed_step_keeps_entries memSize pageSz segNames pol E s segIdx offset s' r q e :
  construct memSize pageSz segNames pol = Some E →
  reachable E s →
  accessAddress s segIdx offset = Some (s', r) →
  pageTable s !! q = Some e → valid e = true →
  pageTable s' !! q = Some e.
Proof.
  intros HE Hreach Hacc Hq Hv.
  destruct r as [| |t].
  - destruct (accessAddress_rejected _ _ _ _ _ Hacc) as [_ Hpure].
    by rewrite (Hpure (or_introl eq_refl)).
  - destruct (accessAddress_rejected _ _ _ _ _ Hacc) as [_ Hpure].
    by rewrite (Hpure (or_intror eq_refl)).
  - destruct (t_fault t) eqn:Hfault.
    + destruct (constructed_fault_free _ _ _ _ _ _ _ _ _ _ HE Hreach Hacc Hfault)
        as ((e0 & He0 & Hv0) & i & _ & _ & _ & ->).
      rewrite list_lookup_insert_ne; [done|]. intros <-. congruence.
    + destruct (accessAddress_translated _ _ _ _ _ Hacc) as (_ & _ & _ & Hhit & _).
      destruct (Hhit Hfault) as [-> _]. done.
Qed.

Lemma constructed_run_keeps_entries memSize pageSz segNames pol E reqs :
  construct memSize pageSz segNames pol = Some E →
  ∀ s log s' log' q e,
    reachable E s →
    run s log reqs = Some (s', log') →
    pageTable s !! q = Some e → valid e = true →
    pageTable s' !! q = Some e.
Proof.
  intros HE. induction reqs as [|[a o] rest IH]; intros s log s' log' q e Hreach Hrun Hq Hv.
  - by injection Hrun as <- <-.
  - simpl in Hrun. destruct (accessAddress s a o) as [[s1 r]|] eqn:Hacc; [|done].
    simpl in Hrun. eapply IH; [|exact Hrun| |exact Hv].
    + by eapply reachable_step.
    + by eapply constructed_step_keeps_entries.
Qed.

(** X8.  A manager built by the constructor never evicts: whatever requests
    follow, a page that is resident stays resident, in the same frame. *)
Theorem constructed_manager_never_evicts memSize pageSz segNames pol E s log reqs s' log' :
  construct memSize pageSz segNames pol = Some E →
  reachable E s →
  run s log reqs = Some (s', log') →
  ∀ q e, vec_get (pageTable s) q = Some e → valid e = true →
         vec_get (pageTable s') q = Some e ∧ resident s' q.
Proof.
  intros HE Hreach Hrun q e Hq%vec_get_Some Hv.
  assert (vec_get (pageTable s') q = Some e) as Hq'.
  { apply vec_get_Some.
    by eapply (constructed_run_keeps_entries _ _ _ _ _ _ HE s log s' log'). }
  split; [done|]. by exists e.
Qed.

Lemma constructed_manager_never_evicts_witness :
  ∃ E s log s' log',
    construct 512 256 ["only"]%string LRU = Some E ∧
    run E [] [(0, 300)] = Some (s, log) ∧
    run s log [(0, 0); (0, 511); (0, 10)] = Some (s', log') ∧
    vec_get (pageTable s) 1 = Some (mkPTE 0 true) ∧
    vec_get (pageTable s') 1 = Some (mkPTE 0 true) ∧ resident s' 1.
Proof.
  eexists _, _, _, _, _. split; [reflexivity|].
  match goal with |- ?R ∧ _ => assert R as Hrun by (vm_compute; reflexivity) end.
  split; [exact Hrun|].
  match goal with |- ?R ∧ _ => assert R as Hrun2 by (vm_compute; reflexivity) end.
  split; [exact Hrun2|].
  match goal with |- ?R ∧ _ => assert R as Hq by (vm_compute; reflexivity) end.
  split; [exact Hq|].
  exact (constructed_manager_never_evicts 512 256 ["only"]%string LRU _ _ _ _ _ _
           eq_refl (ex_intro _ _ (ex_intro _ _ Hrun)) Hrun2 1 _ Hq eq_refl).
Defined.

(** ** Faults of a constructed manager *)

Lemma fresh_count_resident s : fresh s → count_resident s = 0%nat.
Proof.
  intros (Hpt & _). unfold count_resident. apply count_none.
  eapply Forall_impl; [exact Hpt|]. intros e He. by rewrite He.
Qed.

Lemma construct_counters memSize pageSz segNames pol E :
  construct memSize pageSz segNames pol = Some E →
  pageFaults E = 0 ∧ accesses E = 0.
Proof. by intros (_ & _ & ->)%construct_Some. Qed.

Lemma count_resident_le s : (count_resident s ≤ length (pageTable s))%nat.
Proof. apply length_filter. Qed.

Lemma constructed_fault_count memSize pageSz segNames pol E s :
  construct memSize pageSz segNames pol = Some E →
  numPages E ≤ 2 ^ 31 → reachable E s →
  frames_in_order s ∧ pageFaults s = N.of_nat (count_resident s).
Proof.
  intros HE Hsmall Hreach.
  assert (P : reachable E s ∧ frames_in_order s
              ∧ pageFaults s = N.of_nat (count_resident s));
    [|by destruct P as (_ & ? & ?)].
  refine (reachable_invariant
            (λ s, reachable E s ∧ frames_in_order s
                  ∧ pageFaults s = N.of_nat (count_resident s)) E s _ _ Hreach).
  - intros s1 a o s2 r (Hr1 & Hord & Hpf) Hacc.
    destruct (constructed_invariants _ _ _ _ _ _ HE Hsmall Hr1) as [Hfok Htok].
    split; [by eapply reachable_step|].
    split; [by eapply accessAddress_frames_in_order|].
    destruct r as [| |t].
    + destruct (accessAddress_rejected _ _ _ _ _ Hacc) as [_ Hpure].
      by rewrite (Hpure (or_introl eq_refl)).
    + destruct (accessAddress_rejected _ _ _ _ _ Hacc) as [_ Hpure].
      by rewrite (Hpure (or_intror eq_refl)).
    + destruct (accessAddress_translated _ _ _ _ _ Hacc) as (_ & Hpf' & _ & Hhit & _).
      destruct (t_fault t) eqn:Hfault.
      * destruct (constructed_fault_free _ _ _ _ _ _ _ _ _ _ HE Hr1 Hacc Hfault)
          as ((e0 & He0 & Hv0) & i & _ & _ & _ & Hpt').
        pose proof (count_resident_insert s1 s2 (t_page t) _ e0 Hpt' He0) as Hc.
        rewrite Hv0 in Hc. simpl in Hc.
        pose proof (count_resident_le s2) as Hle.
        destruct (constructed_table_lengths _ _ _ _ _ _ HE
                    (reachable_step _ _ _ _ _ _ Hr1 Hacc)) as (Hlen & _).
        rewrite Hpf', Hpf. rewrite size_wrap_small; lia.
      * destruct (Hhit eq_refl) as [Hpt' _].
        rewrite Hpf', Hpf. unfold count_resident. by rewrite Hpt'.
  - split; [apply reachable_refl|].
    pose proof (construct_fresh _ _ _ _ _ HE) as Hfresh.
    split; [by apply fresh_frames_in_order|].
    rewrite (fresh_count_resident _ Hfresh).
    by destruct (construct_counters _ _ _ _ _ HE) as [-> _].
Qed.

(** X9.  In a constructed manager of at most [2^31] pages the frames are
    handed out in index order, one per fault: [pageFaults] is the number of
    resident pages, the occupied frames are exactly those below
    [pageFaults], and a request that faults gets the frame numbered
    [pageFaults] (the number of faults before it).  There are never more
    faults than pages. *)
Theorem frames_handed_out_in_order memSize pageSz segNames pol E s :
  construct memSize pageSz segNames pol = Some E →
  numPages E ≤ 2 ^ 31 →
  reachable E s →
  pageFaults s = N.of_nat (count_resident s) ∧
  pageFaults s ≤ numPages E ∧
  (∀ f z, vec_get (frameTable s) f = Some z →
     (z ≠ (-1)%Z ↔ f < pageFaults s)) ∧
  (∀ segIdx offset s' t,
     accessAddress s segIdx offset = Some (s', Translated t) →
     t_fault t = true →
     t_frameNum t = Z.of_N (pageFaults s) ∧
     pageFaults s < numFrames E ∧
     pageFaults s' = pageFaults s + 1).
Proof.
  intros HE Hsmall Hreach.
  destruct (constructed_fault_count _ _ _ _ _ _ HE Hsmall Hreach) as [Hord Hpf].
  destruct (constructed_invariants _ _ _ _ _ _ HE Hsmall Hreach) as [Hfok Htok].
  destruct (constructed_table_lengths _ _ _ _ _ _ HE Hreach) as (Hlenp & Hlenf & Hsame).
  pose proof (count_resident_le s) as Hle.
  pose proof Hfok as (_ & _ & _ & _ & Hcount).
  split; [done|]. split; [lia|]. split.
  - intros f z Hf%vec_get_Some. rewrite (Hord _ _ Hf), Hpf, Hcount. lia.
  - intros a o s' t Hacc Hfault.
    destruct (fault_frame _ _ _ _ _ Hfok Htok Hacc Hfault)
      as (f & Hfn & Hflt & _ & Hcase).
    destruct (constructed_fault_free _ _ _ _ _ _ _ _ _ _ HE Hreach Hacc Hfault)
      as (_ & i & Hi & _).
    rewrite Hi in Hcase. destruct Hcase as (_ & Hf & Hlow & _).
    pose proof (frames_in_order_first_free _ _ Hord Hf Hlow) as Hfirst.
    destruct (constructed_fault_count _ _ _ _ _ _ HE Hsmall
                (reachable_step _ _ _ _ _ _ Hreach Hacc)) as [_ Hpf'].
    destruct (accessAddress_translated _ _ _ _ _ Hacc) as (_ & Hstep & _).
    rewrite Hfault in Hstep.
    split; [rewrite Hfn, Hpf; lia|]. split; [lia|].
    rewrite Hstep. apply size_wrap_small. lia.
Qed.

Lemma frames_handed_out_in_order_witness :
  ∃ E s log s' t,
    construct 1024 256 ["code"; "data"]%string FIFO = Some E ∧
    numPages E ≤ 2 ^ 31 ∧
    run E [] [(1, 10); (0, 0); (1, 20)] = Some (s, log) ∧
    accessAddress s 1 300 = Some (s', Translated t) ∧
    t_fault t = true ∧ pageFaults s = 2 ∧ t_frameNum t = 2%Z ∧
    count_resident s = 2%nat.
Proof.
  eexists _, _, _, _, _. split; [reflexivity|].
  split; [vm_compute; discriminate|].
  match goal with |- ?R ∧ _ => assert R as Hrun by (vm_compute; reflexivity) end.
  split; [exact Hrun|].
  match goal with |- ?R ∧ _ => assert R as Hacc by (vm_compute; reflexivity) end.
  split; [exact Hacc|].
  split; [reflexivity|]. split; [reflexivity|].
  destruct (frames_handed_out_in_order 1024 256 ["code"; "data"]%string FIFO _ _
              eq_refl ltac:(vm_compute; discriminate)
              (ex_intro _ _ (ex_intro _ _ Hrun)))
    as (Hpf & _ & _ & Hnext).
  destruct (Hnext _ _ _ _ Hacc eq_refl) as (Hfn & _).
  split; [exact Hfn|].
  apply Nat2N.inj. symmetry. exact Hpf.
Defined.

(** X10.  In a constructed manager a page is resident exactly when it has
    been accessed before, so a request faults exactly when it is the first
    one to touch its page. *)
Theorem faults_are_first_touches memSize pageSz segNames pol E reqs s log :
  construct memSize pageSz segNames pol = Some E →
  run E [] reqs = Some (s, log) →
  (∀ q, resident s q ↔ is_Some (last_access log q)) ∧
  (∀ segIdx offset s' t,
     accessAddress s segIdx offset = Some (s', Translated t) →
     (t_fault t = true ↔ last_access log (t_page t) = None)).
Proof.
  intros HE Hrun.
  assert (reachable E s ∧ ∀ q, resident s q ↔ is_Some (last_access log q))
    as [Hreach Hres].
  { refine (run_invariant
              (λ s log, reachable E s ∧
                        ∀ q, resident s q ↔ is_Some (last_access log q))
              _ reqs E [] s log _ Hrun).
    - intros s1 log1 a o s2 r [Hr1 IH] Hacc.
      split; [by eapply reachable_step|].
      destruct r as [| |t].
      + destruct (accessAddress_rejected _ _ _ _ _ Hacc) as [_ Hpure].
        by rewrite (Hpure (or_introl eq_refl)).
      + destruct (accessAddress_rejected _ _ _ _ _ Hacc) as [_ Hpure].
        by rewrite (Hpure (or_intror eq_refl)).
      + pose proof (constructed_tracker_ok _ _ _ _ _ _ HE Hr1) as Htok.
        destruct (accessAddress_step _ _ _ _ _ Htok Hacc)
          as (_ & victim & _ & Hres' & Hvic & Hnone).
        assert (victim = None) as ->.
        { destruct (t_fault t) eqn:Hfault.
          - apply (Hnone eq_refl).
            destruct (constructed_fault_free _ _ _ _ _ _ _ _ _ _ HE Hr1 Hacc Hfault)
              as (_ & i & Hi & Hni & _).
            by exists i.
          - destruct victim as [v|]; [|done].
            by destruct (Hvic v eq_refl) as [_ ?]. }
        intros q. rewrite Hres'. simpl.
        destruct (N.eqb_spec (t_page t) q) as [->|Hne].
        * split; [by eexists | by left].
        * rewrite <- IH. split; [intros [->|[? _]]; done | intros ?; by right].
    - split; [apply reachable_refl|]. intros q. simpl. split.
      + intros (e & He & Hv).
        destruct (construct_fresh _ _ _ _ _ HE) as (Hpt & _).
        rewrite Forall_forall in Hpt. apply vec_get_Some in He.
        rewrite (Hpt e) in Hv; [done|]. by eapply list_elem_of_lookup_2.
      + by intros [? ?]. }
  split; [done|].
  intros a o s' t Hacc.
  destruct (accessAddress_translated _ _ _ _ _ Hacc) as (_ & _ & Hhit & _).
  rewrite eq_None_not_Some, <- Hres, <- Hhit.
  by destruct (t_fault t).
Qed.

Lemma faults_are_first_touches_witness :
  ∃ s log s1 t1 s2 t2,
    construct 1024 256 ["code"; "data"]%string LRU = Some (scenario_manager LRU) ∧
    run (scenario_manager LRU) [] [(1, 10); (0, 0)] = Some (s, log) ∧
    accessAddress s 1 200 = Some (s1, Translated t1) ∧
    accessAddress s 1 300 = Some (s2, Translated t2) ∧
    last_access log (t_page t1) = Some 0%nat ∧ t_fault t1 = false ∧
    last_access log (t_page t2) = None ∧ t_fault t2 = true.
Proof.
  eexists _, _, _, _, _, _. split; [reflexivity|].
  match goal with |- ?R ∧ _ => assert R as Hrun by (vm_compute; reflexivity) end.
  split; [exact Hrun|].
  match goal with |- ?R ∧ _ => assert R as Hacc1 by (vm_compute; reflexivity) end.
  split; [exact Hacc1|].
  match goal with |- ?R ∧ _ => assert R as Hacc2 by (vm_compute; reflexivity) end.
  split; [exact Hacc2|].
  destruct (faults_are_first_touches 1024 256 ["code"; "data"]%string LRU
              (scenario_manager LRU) _ _ _ eq_refl Hrun) as [_ Hfirst].
  split; [reflexivity|]. split; [reflexivity|].
  split; [reflexivity|].
  apply (Hfirst _ _ _ _ Hacc2). reflexivity.
Defined.

(** ** Physical addresses *)

Lemma frames_cover memSize pageSz : memSize / pageSz * pageSz ≤ memSize.
Proof. rewrite N.mul_comm. apply N.Div0.mul_div_le. Qed.

Lemma page_decomposition_unique (pageSz f o f' o' : N) :
  o < pageSz → o' < pageSz →
  f * pageSz + o = f' * pageSz + o' → f = f' ∧ o = o'.
Proof.
  intros Ho Ho' Heq.
  pose proof (N.div_unique (f * pageSz + o) pageSz f o Ho ltac:(lia)) as H1.
  pose proof (N.div_unique (f' * pageSz + o') pageSz f' o' Ho' ltac:(lia)) as H2.
  rewrite Heq in H1. assert (f = f') as -> by congruence.
  split; [done | lia].
Qed.

Lemma constructed_physical memSize pageSz segNames pol E s segIdx offset s' t :
  construct memSize pageSz segNames pol = Some E →
  memSize < 2 ^ 64 →
  numFrames E ≤ 2 ^ 64 - 2 ^ 31 →
  reachable E s →
  accessAddress s segIdx offset = Some (s', Translated t) →
  ∃ frame,
    t_frameNum t = Z.of_N frame ∧ frame < numFrames E ∧
    pageSz ≠ 0 ∧
    t_page t = t_logicalAddr t / pageSz ∧
    t_pageOffset t = t_logicalAddr t mod pageSz ∧
    t_pageOffset t < pageSz ∧
    t_physicalAddr t = frame * pageSz + t_pageOffset t ∧
    frame * pageSz + t_pageOffset t < numFrames E * pageSz ∧
    numFrames E * pageSz ≤ memSize.
Proof.
  intros HE Hmem Hwide Hreach Hacc.
  pose proof (reachable_step _ _ _ _ _ _ Hreach Hacc) as Hreach'.
  destruct (constructed_frame_range _ _ _ _ _ _ HE Hwide Hreach') as [_ Hrange].
  destruct (accessAddress_translated _ _ _ _ _ Hacc)
    as (_ & _ & _ & _ & He' & Hoff & Hphys).
  destruct (accessAddress_translated_accepted _ _ _ _ _ Hacc)
    as (_ & _ & _ & _ & Hpage & _).
  apply vec_get_Some in He'.
  destruct (Hrange _ _ He') as [_ Hfn]. specialize (Hfn eq_refl). simpl in Hfn.
  destruct (constructed_table_lengths _ _ _ _ _ _ HE Hreach') as (_ & Hlenf & _).
  destruct (reachable_config _ _ Hreach) as (Hps & _).
  destruct (construct_fields _ _ _ _ _ HE) as (Hnz & _ & HpsE & HnF & _).
  rewrite Hps, HpsE in *.
  exists (Z.to_N (t_frameNum t)).
  pose proof (N.mod_lt (t_logicalAddr t) pageSz Hnz) as Hmod.
  rewrite <- Hoff in Hmod.
  pose proof (frames_cover memSize pageSz) as Hcover. rewrite <- HnF in Hcover.
  assert (Z.to_N (t_frameNum t) < numFrames E) as Hlt by lia.
  assert (Z.to_N (t_frameNum t) * pageSz + t_pageOffset t < numFrames E * pageSz)
    as Hin.
  { assert ((Z.to_N (t_frameNum t) + 1) * pageSz ≤ numFrames E * pageSz)
      by (apply N.mul_le_mono_r; lia).
    lia. }
  rewrite to_size_t_nonneg in Hphys by lia.
  rewrite size_wrap_small in Hphys by lia.
  split; [lia|]. done.
Qed.

(** X11.  In a constructed manager every physical address printed lies
    inside the memory, below [numFrames * pageSize]; dividing it by the page
    size gives back the frame number, and the remainder is the offset of
    the logical address in its page. *)
Theorem physical_address_in_memory memSize pageSz segNames pol E s segIdx offset s' t :
  construct memSize pageSz segNames pol = Some E →
  memSize < 2 ^ 64 →
  numFrames E ≤ 2 ^ 64 - 2 ^ 31 →
  reachable E s →
  accessAddress s segIdx offset = Some (s', Translated t) →
  t_physicalAddr t < numFrames E * pageSz ∧
  numFrames E * pageSz ≤ memSize ∧
  Z.of_N (t_physicalAddr t / pageSz) = t_frameNum t ∧
  t_physicalAddr t mod pageSz = t_pageOffset t ∧
  t_pageOffset t = t_logicalAddr t mod pageSz ∧
  t_pageOffset t < pageSz.
Proof.
  intros HE Hmem Hwide Hreach Hacc.
  destruct (constructed_physical _ _ _ _ _ _ _ _ _ _ HE Hmem Hwide Hreach Hacc)
    as (frame & Hfn & Hlt & Hnz & _ & Hoff & Hofflt & Hphys & Hin & Hcover).
  rewrite Hphys, Hfn.
  split; [done|]. split; [done|].
  split; [|split; [|done]].
  - f_equal. symmetry. apply (N.div_unique _ _ _ (t_pageOffset t)); [done | lia].
  - symmetry. apply (N.mod_unique _ _ frame); [done | lia].
Qed.

Lemma physical_address_in_memory_witness :
  ∃ s log s' t,
    construct 1024 256 ["code"; "data"]%string FIFO = Some (scenario_manager FIFO) ∧
    1024 < 2 ^ 64 ∧ numFrames (scenario_manager FIFO) ≤ 2 ^ 64 - 2 ^ 31 ∧
    run (scenario_manager FIFO) [] [(1, 10)] = Some (s, log) ∧
    accessAddress s 0 300 = Some (s', Translated t) ∧
    t_physicalAddr t = 300 ∧
    t_physicalAddr t < numFrames (scenario_manager FIFO) * 256 ∧
    Z.of_N (t_physicalAddr t / 256) = t_frameNum t.
Proof.
  eexists _, _, _, _. split; [reflexivity|]. split; [reflexivity|].
  split; [vm_compute; discriminate|].
  match goal with |- ?R ∧ _ => assert R as Hrun by (vm_compute; reflexivity) end.
  split; [exact Hrun|].
  match goal with |- ?R ∧ _ => assert R as Hacc by (vm_compute; reflexivity) end.
  split; [exact Hacc|].
  split; [reflexivity|].
  destruct (physical_address_in_memory 1024 256 ["code"; "data"]%string FIFO
              (scenario_manager FIFO) _ _ _ _ _
              eq_refl eq_refl ltac:(vm_compute; discriminate)
              (ex_intro _ _ (ex_intro _ _ Hrun)) Hacc)
    as (Hlt & _ & Hdiv & _).
  split; [exact Hlt | exact Hdiv].
Defined.

(** X12.  Over the lifetime of a constructed manager of at most [2^31]
    pages, translation is injective and stable: two translated requests,
    any number of requests apart, get the same physical address exactly
    when they have the same logical address. *)
Theorem translation_is_injective memSize pageSz segNames pol E
    s1 seg1 off1 s1' t1 log reqs s2 log2 seg2 off2 s2' t2 :
  construct memSize pageSz segNames pol = Some E →
  memSize < 2 ^ 64 →
  numPages E ≤ 2 ^ 31 →
  reachable E s1 →
  accessAddress s1 seg1 off1 = Some (s1', Translated t1) →
  run s1' log reqs = Some (s2, log2) →
  accessAddress s2 seg2 off2 = Some (s2', Translated t2) →
  (t_physicalAddr t1 = t_physicalAddr t2 ↔ t_logicalAddr t1 = t_logicalAddr t2).
Proof.
  intros HE Hmem Hsmall Hr1 Hacc1 Hrun Hacc2.
  pose proof (reachable_step _ _ _ _ _ _ Hr1 Hacc1) as Hr1'.
  pose proof (reachable_run _ _ _ _ _ _ Hr1' Hrun) as Hr2.
  pose proof (reachable_step _ _ _ _ _ _ Hr2 Hacc2) as Hr2'.
  destruct (construct_fields _ _ _ _ _ HE) as (Hnz & _ & _ & HnF & HnP & _).
  assert (numFrames E ≤ 2 ^ 64 - 2 ^ 31) as Hwide by lia.
  destruct (constructed_physical _ _ _ _ _ _ _ _ _ _ HE Hmem Hwide Hr1 Hacc1)
    as (f1 & Hfn1 & _ & _ & Hp1 & Ho1 & Holt1 & Hphys1 & _).
  destruct (constructed_physical _ _ _ _ _ _ _ _ _ _ HE Hmem Hwide Hr2 Hacc2)
    as (f2 & Hfn2 & _ & _ & Hp2 & Ho2 & Holt2 & Hphys2 & _).
  destruct (accessAddress_translated _ _ _ _ _ Hacc1) as (_ & _ & _ & _ & He1 & _).
  destruct (accessAddress_translated _ _ _ _ _ Hacc2) as (_ & _ & _ & _ & He2 & _).
  assert (vec_get (pageTable s2') (t_page t1) = Some (mkPTE (t_frameNum t1) true))
    as He1'.
  { apply vec_get_Some. apply vec_get_Some in He1.
    eapply (constructed_step_keeps_entries _ _ _ _ _ s2); [exact HE|exact Hr2|exact Hacc2| |done].
    by eapply (constructed_run_keeps_entries _ _ _ _ _ _ HE s1' log s2 log2). }
  destruct (constructed_invariants _ _ _ _ _ _ HE Hsmall Hr2') as [Hfok _].
  destruct (frames_ok_inverse _ Hfok) as (_ & _ & _ & Hinj).
  pose proof (N.div_mod (t_logicalAddr t1) pageSz Hnz) as Hdm1.
  pose proof (N.div_mod (t_logicalAddr t2) pageSz Hnz) as Hdm2.
  rewrite <- Hp1, <- Ho1 in Hdm1. rewrite <- Hp2, <- Ho2 in Hdm2.
  rewrite Hphys1, Hphys2. split.
  - intros Heq.
    destruct (page_decomposition_unique pageSz f1 (t_pageOffset t1)
                f2 (t_pageOffset t2) Holt1 Holt2 Heq) as [-> Hoff].
    assert (t_page t1 = t_page t2) as Hpage.
    { apply (Hinj _ _ _ _ He1' eq_refl He2 eq_refl). simpl. congruence. }
    rewrite Hdm1, Hdm2, Hpage, Hoff. done.
  - intros Heq.
    assert (t_page t1 = t_page t2) as Hpage by (by rewrite Hp1, Hp2, Heq).
    assert (t_pageOffset t1 = t_pageOffset t2) as Hoff by (by rewrite Ho1, Ho2, Heq).
    rewrite Hpage in He1'. rewrite He1' in He2. injection He2 as Hfn.
    assert (f1 = f2) as -> by lia. by rewrite Hoff.
Qed.

(** Page 2 is loaded by the first request; two other pages later, the
    same byte is still at physical address 10, and a different byte of the
    same page is not. *)
Lemma translation_is_injective_witness :
  ∃ s1' t1 s2 log2 s2' t2 s3' t3,
    construct 1024 256 ["code"; "data"]%string LRU = Some (scenario_manager LRU) ∧
    1024 < 2 ^ 64 ∧ numPages (scenario_manager LRU) ≤ 2 ^ 31 ∧
    accessAddress (scenario_manager LRU) 1 10 = Some (s1', Translated t1) ∧
    run s1' [] [(0, 0); (1, 400)] = Some (s2, log2) ∧
    accessAddress s2 1 10 = Some (s2', Translated t2) ∧
    accessAddress s2 1 11 = Some (s3', Translated t3) ∧
    t_physicalAddr t1 = t_physicalAddr t2 ∧
    t_physicalAddr t1 ≠ t_physicalAddr t3.
Proof.
  eexists _, _, _, _, _, _, _, _. split; [reflexivity|]. split; [reflexivity|].
  split; [vm_compute; discriminate|].
  match goal with |- ?R ∧ _ => assert R as Hacc1 by (vm_compute; reflexivity) end.
  split; [exact Hacc1|].
  match goal with |- ?R ∧ _ => assert R as Hrun by (vm_compute; reflexivity) end.
  split; [exact Hrun|].
  match goal with |- ?R ∧ _ => assert R as Hacc2 by (vm_compute; reflexivity) end.
  split; [exact Hacc2|].
  match goal with |- ?R ∧ _ => assert R as Hacc3 by (vm_compute; reflexivity) end.
  split; [exact Hacc3|].
  split.
  - apply (translation_is_injective 1024 256 ["code"; "data"]%string LRU
             (scenario_manager LRU) _ _ _ _ _ _ _ _ _ _ _ _ _
             eq_refl eq_refl ltac:(vm_compute; discriminate)
             (reachable_refl _) Hacc1 Hrun Hacc2).
    reflexivity.
  - intros Heq.
    apply (translation_is_injective 1024 256 ["code"; "data"]%string LRU
             (scenario_manager LRU) _ _ _ _ _ _ _ _ _ _ _ _ _
             eq_refl eq_refl ltac:(vm_compute; discriminate)
             (reachable_refl _) Hacc1 Hrun Hacc3) in Heq.
    discriminate Heq.
Defined.

(** ** Display functions *)

Lemma elem_of_showPageTable s p z :
  PageMapped p z ∈ showPageTable s ↔
  ∃ e, pageTable s !! N.to_nat p = Some e ∧ valid e = true ∧ frameNumber e = z.
Proof.
  unfold showPageTable. rewrite elem_of_cons, elem_of_lookup_imap. split.
  - intros [[=] | (i & e & Heq & He)].
    destruct (valid e) eqn:Hv; [|done]. injection Heq as -> ->.
    exists e. by rewrite Nat2N.id.
  - intros (e & He & Hv & <-). right. exists (N.to_nat p), e.
    split; [|done]. by rewrite Hv, N2Nat.id.
Qed.

Lemma elem_of_showPageTable_absent s p :
  PageAbsent p ∈ showPageTable s ↔
  ∃ e, pageTable s !! N.to_nat p = Some e ∧ valid e = false.
Proof.
  unfold showPageTable. rewrite elem_of_cons, elem_of_lookup_imap. split.
  - intros [[=] | (i & e & Heq & He)].
    destruct (valid e) eqn:Hv; [done|]. injection Heq as ->.
    exists e. by rewrite Nat2N.id.
  - intros (e & He & Hv). right. exists (N.to_nat p), e.
    split; [|done]. by rewrite Hv, N2Nat.id.
Qed.

Lemma elem_of_showFrames s f z :
  FrameHolds f z ∈ showFrames s ↔
  frameTable s !! N.to_nat f = Some z ∧ z ≠ (-1)%Z.
Proof.
  unfold showFrames. rewrite elem_of_cons, elem_of_lookup_imap. split.
  - intros [[=] | (i & y & Heq & Hy)].
    destruct (Z.eqb_spec y (-1)); [done|]. injection Heq as -> ->.
    by rewrite Nat2N.id.
  - intros [Hz Hne]. right. exists (N.to_nat f), z.
    split; [|done]. destruct (Z.eqb_spec z (-1)); [done|]. by rewrite N2Nat.id.
Qed.

Lemma elem_of_showFrames_empty s f :
  FrameEmpty f ∈ showFrames s ↔ frameTable s !! N.to_nat f = Some (-1)%Z.
Proof.
  unfold showFrames. rewrite elem_of_cons, elem_of_lookup_imap. split.
  - intros [[=] | (i & y & Heq & Hy)].
    destruct (Z.eqb_spec y (-1)) as [Hy1|]; [|done]. injection Heq as ->.
    by rewrite Nat2N.id, Hy, Hy1.
  - intros Hz. right. exists (N.to_nat f), (-1)%Z.
    split; [|done]. simpl. by rewrite N2Nat.id.
Qed.

(** X13.  From a manager in which nothing is loaded and whose tables [int]
    can index, the two displays always agree: [showPageTable] writes
    "Page p -> Frame f" exactly when [showFrames] writes
    "Frame f -> Page p"; every other page is written "Not in memory" and
    every other frame "Empty"; no negative number is written. *)
Theorem displays_agree s0 s :
  fresh s0 →
  (Z.of_nat (length (frameTable s0)) ≤ 2 ^ 31)%Z →
  (Z.of_nat (length (pageTable s0)) ≤ 2 ^ 31)%Z →
  reachable s0 s →
  (∀ p f : N, PageMapped p (Z.of_N f) ∈ showPageTable s ↔
              FrameHolds f (Z.of_N p) ∈ showFrames s) ∧
  (∀ p z, PageMapped p z ∈ showPageTable s →
          ∃ f, z = Z.of_N f ∧ f < N.of_nat (length (frameTable s))) ∧
  (∀ f z, FrameHolds f z ∈ showFrames s →
          ∃ p, z = Z.of_N p ∧ p < N.of_nat (length (pageTable s))) ∧
  (∀ p, p < N.of_nat (length (pageTable s)) →
        (PageAbsent p ∈ showPageTable s ↔ ¬ resident s p)) ∧
  (∀ f, f < N.of_nat (length (frameTable s)) →
        (FrameEmpty f ∈ showFrames s ↔ ∀ z, FrameHolds f z ∉ showFrames s)) ∧
  length (showPageTable s) = S (length (pageTable s)) ∧
  length (showFrames s) = S (length (frameTable s)).
Proof.
  intros Hfresh Hft Hpt Hreach.
  destruct (fresh_reachable_frames _ _ Hfresh Hft Hpt Hreach)
    as [(_ & _ & Hfwd & Hbwd & _) _].
  split; [|split; [|split; [|split; [|split; [|split]]]]].
  - intros p f. rewrite elem_of_showPageTable, elem_of_showFrames. split.
    + intros (e & He & Hv & Hfn).
      destruct (Hfwd _ _ He Hv) as (f' & Hf' & Hlook).
      assert (f' = N.to_nat f) as -> by lia.
      rewrite N_nat_Z in Hlook. split; [done | lia].
    + intros [Hlook Hne].
      destruct (Hbwd _ _ Hlook Hne) as (p' & e & Hp' & He & Hv & Hfn).
      assert (p' = N.to_nat p) as -> by lia.
      exists e. rewrite N_nat_Z in Hfn. done.
  - intros p z (e & He & Hv & <-)%elem_of_showPageTable.
    destruct (Hfwd _ _ He Hv) as (f' & Hf' & Hlook%lookup_lt_Some).
    exists (N.of_nat f'). split; lia.
  - intros f z [Hlook Hne]%elem_of_showFrames.
    destruct (Hbwd _ _ Hlook Hne) as (p' & e & -> & He%lookup_lt_Some & _).
    exists (N.of_nat p'). split; lia.
  - intros p Hp. rewrite elem_of_showPageTable_absent, resident_lookup.
    destruct (lookup_lt_is_Some_2 (pageTable s) (N.to_nat p)) as [e He]; [lia|].
    split.
    + intros (e0 & He0 & Hv0) (e1 & He1 & Hv1). congruence.
    + intros Hnot. exists e. split; [done|].
      destruct (valid e) eqn:Hv; [|done]. destruct Hnot. by exists e.
  - intros f Hf. rewrite elem_of_showFrames_empty.
    destruct (lookup_lt_is_Some_2 (frameTable s) (N.to_nat f)) as [z Hz]; [lia|].
    split.
    + intros Hempty z' [Hz' Hne]%elem_of_showFrames. congruence.
    + intros Hnone. destruct (decide (z = (-1)%Z)) as [->|Hne]; [done|].
      destruct (Hnone z). by apply elem_of_showFrames.
  - unfold showPageTable. cbn [length]. f_equal. apply length_imap.
  - unfold showFrames. cbn [length]. f_equal. apply length_imap.
Qed.

Lemma displays_agree_witness :
  ∃ s log,
    fresh (scenario_manager FIFO) ∧
    run (scenario_manager FIFO) [] [(1, 10); (0, 0)] = Some (s, log) ∧
    showPageTable s = [PageTableTitle; PageMapped 0 1; PageAbsent 1;
                       PageMapped 2 0; PageAbsent 3] ∧
    showFrames s = [FramesTitle; FrameHolds 0 2; FrameHolds 1 0;
                    FrameEmpty 2; FrameEmpty 3] ∧
    (PageMapped 2 (Z.of_N 0) ∈ showPageTable s ↔
     FrameHolds 0 (Z.of_N 2) ∈ showFrames s).
Proof.
  eexists _, _. split; [repeat split; repeat constructor|].
  match goal with |- ?R ∧ _ => assert R as Hrun by (vm_compute; reflexivity) end.
  split; [exact Hrun|].
  split; [vm_compute; reflexivity|]. split; [vm_compute; reflexivity|].
  destruct (displays_agree (scenario_manager FIFO) _
              ltac:(repeat split; repeat constructor)
              ltac:(vm_compute; discriminate) ltac:(vm_compute; discriminate)
              (ex_intro _ _ (ex_intro _ _ Hrun))) as (Hagree & _).
  exact (Hagree 2 0).
Defined.

(** ** The command-line driver *)

Lemma getSegmentLimit_Some s segIdx lim :
  getSegmentLimit s segIdx = Some lim ↔
  ∃ seg, vec_get (segments s) segIdx = Some seg ∧ limit seg = lim.
Proof.
  unfold getSegmentLimit. rewrite fmap_Some.
  split; intros (seg & ? & ?); by exists seg.
Qed.

Lemma getSegmentLimit_is_Some s segIdx :
  is_Some (getSegmentLimit s segIdx) ↔ segIdx < getNumSegments s.
Proof.
  unfold getSegmentLimit, getNumSegments.
  by rewrite fmap_is_Some, vec_get_is_Some.
Qed.

Lemma access_command_inv s segIn offIn s' out :
  access_command s segIn offIn = Some (s', out) →
  let out1 := [Display (showSegments s);
               AskSegmentIndex (size_pred (getNumSegments s))] in
  (s' = s ∧ out = out1 ++ [InvalidSegmentIndex] ∧
   ∀ a, segIn = Some a → getNumSegments s ≤ a) ∨
  (∃ a lim, segIn = Some a ∧ a < getNumSegments s ∧
            getSegmentLimit s a = Some lim ∧
            s' = s ∧ out = out1 ++ [AskOffset (size_pred lim); InvalidOffset] ∧
            ∀ o, offIn = Some o → lim ≤ o) ∨
  (∃ a lim o r, segIn = Some a ∧ a < getNumSegments s ∧
                getSegmentLimit s a = Some lim ∧
                offIn = Some o ∧ o < lim ∧
                accessAddress s a o = Some (s', r) ∧
                out = out1 ++ [AskOffset (size_pred lim); Access r]).
Proof.
  unfold access_command. intros H. cbv zeta. cbv zeta in H.
  destruct segIn as [a|]; [|injection H as <- <-; left; by repeat split].
  destruct (N.leb_spec (getNumSegments s) a) as [Hge|Hlt].
  { injection H as <- <-. left. split; [done|]. split; [done|].
    by intros ? [= <-]. }
  destruct (getSegmentLimit s a) as [lim|] eqn:Hlim; [|done]. simpl in H.
  right. destruct offIn as [o|].
  - destruct (N.leb_spec lim o) as [Hge|Hlt'].
    + injection H as <- <-. left. exists a, lim.
      repeat split; try done. by intros ? [= <-].
    + destruct (accessAddress s a o) as [[s1 r]|] eqn:Hacc; [|done].
      injection H as <- <-. right. exists a, lim, o, r.
      by repeat split.
  - injection H as <- <-. left. exists a, lim.
    by repeat split.
Qed.

(** X14.  The [ACCESS_ADDRESS] case of [main] checks the segment index and
    the offset itself before it calls [accessAddress], with the same
    comparisons: the call is made exactly for accepted requests, so it is
    always a translation and never one of the two rejections of
    [accessAddress]; in every other case the manager is left as it was.
    [getSegmentLimit] is only called with a valid index: the command is
    undefined only where [accessAddress] is. *)
Theorem cli_validates_before_access s segIn offIn :
  (∀ s' out, access_command s segIn offIn = Some (s', out) →
     (∀ r, Access r ∈ out →
        ∃ a o t, segIn = Some a ∧ offIn = Some o ∧ accepted s a o ∧
                 r = Translated t ∧
                 accessAddress s a o = Some (s', Translated t)) ∧
     ((∀ r, Access r ∉ out) → s' = s) ∧
     (InvalidSegmentIndex ∈ out ↔
      ∀ a, segIn = Some a → getNumSegments s ≤ a) ∧
     (InvalidOffset ∈ out ↔
      ∃ a lim, segIn = Some a ∧ getSegmentLimit s a = Some lim ∧
               ∀ o, offIn = Some o → lim ≤ o) ∧
     ((∃ r, Access r ∈ out) ↔
      ∃ a o, segIn = Some a ∧ offIn = Some o ∧ accepted s a o)) ∧
  (access_command s segIn offIn = None ↔
   ∃ a o, segIn = Some a ∧ offIn = Some o ∧ accepted s a o ∧
          accessAddress s a o = None).
Proof.
  assert (∀ a lim o, a < getNumSegments s → getSegmentLimit s a = Some lim →
            o < lim → accepted s a o) as Hacc_ok.
  { intros a lim o Ha (seg & Hseg & <-)%getSegmentLimit_Some Ho.
    apply accepted_iff. split; [done|]. by exists seg. }
  assert (∀ a o, accepted s a o →
            a < getNumSegments s ∧
            ∃ lim, getSegmentLimit s a = Some lim ∧ o < lim) as Hacc_inv.
  { intros a o (Ha & seg & Hseg & Ho)%accepted_iff. split; [done|].
    exists (limit seg). split; [|done]. apply getSegmentLimit_Some. by exists seg. }
  split.
  - intros s' out H.
    destruct (access_command_inv _ _ _ _ _ H)
      as [(-> & -> & Hseg) |
          [(a & lim & -> & Ha & Hlim & -> & -> & Hoff) |
           (a & lim & o & r & -> & Ha & Hlim & -> & Ho & Hacc & ->)]].
    + split; [|split; [|split; [|split]]].
      * intros r Hin. set_solver.
      * done.
      * split; [done|]. intros _. set_solver.
      * split; [intros Hin; set_solver|].
        intros (a & lim & -> & Hlim & _).
        apply mk_is_Some, getSegmentLimit_is_Some in Hlim.
        specialize (Hseg a eq_refl). lia.
      * split; [intros [r Hin]; set_solver|].
        intros (a & o & -> & -> & [Ha _]%Hacc_inv).
        specialize (Hseg a eq_refl). lia.
    + split; [|split; [|split; [|split]]].
      * intros r Hin. set_solver.
      * done.
      * split; [intros Hin; set_solver|].
        intros Hall. specialize (Hall a eq_refl). lia.
      * split; [|intros _; set_solver].
        intros _. by exists a, lim.
      * split; [intros [r Hin]; set_solver|].
        intros (a' & o & [= <-] & -> & [_ (lim' & Hlim' & Ho)]%Hacc_inv).
        specialize (Hoff o eq_refl). simplify_eq. lia.
    + pose proof (Hacc_ok _ _ _ Ha Hlim Ho) as Hok.
      destruct (accessAddress_accepted_translated _ _ _ _ _ Hok Hacc) as [t ->].
      split; [|split; [|split; [|split]]].
      * intros r Hin. assert (r = Translated t) as -> by set_solver.
        by exists a, o, t.
      * intros Hnone. destruct (Hnone (Translated t)). set_solver.
      * split; [intros Hin; set_solver|].
        intros Hall. specialize (Hall a eq_refl). lia.
      * split; [intros Hin; set_solver|].
        intros (a' & lim' & [= <-] & Hlim' & Hall).
        specialize (Hall o eq_refl). simplify_eq. lia.
      * split; [intros _; by exists a, o|].
        intros _. exists (Translated t). set_solver.
  - split.
    + intros H. unfold access_command in H. cbv zeta in H.
      destruct segIn as [a|]; [|done].
      destruct (N.leb_spec (getNumSegments s) a) as [Hge|Hlt]; [done|].
      destruct (proj2 (getSegmentLimit_is_Some s a) Hlt) as [lim Hlim].
      rewrite Hlim in H. simpl in H.
      destruct offIn as [o|]; [|done].
      destruct (N.leb_spec lim o) as [Hge|Hlt']; [done|].
      destruct (accessAddress s a o) as [[s1 r]|] eqn:Hacc; [done|].
      exists a, o. repeat split; try done. by eapply Hacc_ok.
    + intros (a & o & -> & -> & Hok & Hacc).
      destruct (Hacc_inv _ _ Hok) as (Ha & lim & Hlim & Ho).
      unfold access_command. cbv zeta.
      destruct (N.leb_spec (getNumSegments s) a) as [Hge|Hlt]; [lia|].
      rewrite Hlim. simpl.
      destruct (N.leb_spec lim o) as [Hge|Hlt']; [lia|].
      by rewrite Hacc.
Qed.

(** ** More segments than bytes *)

Lemma size_pred_0 : size_pred 0 = 2 ^ 64 - 1.
Proof. reflexivity. Qed.

Lemma size_pred_pos n : 0 < n → n < 2 ^ 64 → size_pred n = n - 1.
Proof.
  intros Hpos Hlt. unfold size_pred, size_wrap.
  replace (n + (2 ^ 64 - 1)) with (n - 1 + 1 * 2 ^ 64) by lia.
  rewrite N.Div0.mod_add. apply N.mod_small. lia.
Qed.

(** X15.  When fewer bytes than segment names are given, the constructor
    makes every segment empty: no request is ever accepted, the manager
    never changes, and the [ACCESS_ADDRESS] case of [main] asks for an
    offset in "0-18446744073709551615" and refuses whatever is typed. *)
Theorem empty_segments_reject_everything memSize pageSz segNames pol E :
  construct memSize pageSz segNames pol = Some E →
  memSize < N.of_nat (length segNames) →
  (∀ seg, seg ∈ segments E → base seg = 0 ∧ limit seg = 0) ∧
  (∀ segIdx offset, ¬ accepted E segIdx offset) ∧
  (∀ s, reachable E s → s = E) ∧
  (∀ segIdx offIn, segIdx < getNumSegments E →
     access_command E (Some segIdx) offIn =
       Some (E, [Display (showSegments E);
                 AskSegmentIndex (size_pred (getNumSegments E));
                 AskOffset (2 ^ 64 - 1); InvalidOffset])).
Proof.
  intros HE Hfew.
  destruct (construct_fields _ _ _ _ _ HE) as (_ & _ & _ & _ & _ & _ & _ & Hsegs & _).
  assert (∀ seg, seg ∈ segments E → base seg = 0 ∧ limit seg = 0) as Hempty.
  { intros seg [j Hj]%list_elem_of_lookup. rewrite Hsegs in Hj.
    destruct (make_segments_lookup _ _ _ _ _ Hj) as (Hl & _ & i & _ & Hb).
    rewrite N.div_small in Hl, Hb by done.
    rewrite Hb, Hl, N.mul_0_r. done. }
  assert (∀ segIdx offset, ¬ accepted E segIdx offset) as Hnone.
  { intros a o (_ & seg & Hseg%vec_get_Some & Ho)%accepted_iff.
    destruct (Hempty seg) as [_ Hl]; [by eapply list_elem_of_lookup_2|]. lia. }
  split; [done|]. split; [done|]. split.
  - intros s Hreach.
    refine (reachable_invariant (λ s, s = E) E s _ eq_refl Hreach).
    intros s1 a o s2 r -> Hacc.
    destruct (accessAddress_rejected _ _ _ _ _ Hacc) as [Hrej Hpure].
    apply Hpure, Hrej, Hnone.
  - intros a offIn Ha.
    destruct (proj2 (getSegmentLimit_is_Some E a) Ha) as [lim Hlim].
    assert (lim = 0) as ->.
    { apply getSegmentLimit_Some in Hlim as (seg & Hseg%vec_get_Some & <-).
      apply (Hempty seg). by eapply list_elem_of_lookup_2. }
    unfold access_command. cbv zeta.
    destruct (N.leb_spec (getNumSegments E) a) as [Hge|_]; [lia|].
    rewrite Hlim. destruct offIn as [o|]; simpl; [|reflexivity].
    destruct (N.leb_spec 0 o); [reflexivity | lia].
Qed.

Lemma empty_segments_reject_everything_witness :
  ∃ E, construct 2 1 ["a"; "b"; "c"]%string FIFO = Some E ∧
       2 < N.of_nat (length ["a"; "b"; "c"]%string) ∧
       ¬ accepted E 0 0 ∧
       access_command E (Some 1) (Some 0) =
         Some (E, [Display (showSegments E); AskSegmentIndex 2;
                   AskOffset 18446744073709551615; InvalidOffset]).
Proof.
  eexists. split; [reflexivity|]. split; [reflexivity|].
  match goal with |- ¬ accepted ?E _ _ ∧ _ =>
    destruct (empty_segments_reject_everything 2 1 ["a"; "b"; "c"]%string FIFO E
                eq_refl eq_refl) as (_ & Hnone & _ & Hcmd)
  end.
  split; [exact (Hnone 0 0)|]. exact (Hcmd 1 (Some 0) eq_refl).
Defined.

(** ** Start-up *)






(** ** The LRU list *)

Lemma reverse_eq_inv {A} (l k : list A) : reverse l = k → l = reverse k.
Proof. intros <-. by rewrite reverse_involutive. Qed.

(** X17.  Under LRU every translated request puts its page at the front of
    [lruList] and keeps the other pages in their order: on a hit the page
    is taken out of its place; on a fault nothing else moves and, when no
    frame is free, the last page is dropped. *)
Theorem lru_moves_to_front s0 s segIdx offset s' t :
  fresh s0 → policy s0 = LRU → reachable s0 s →
  accessAddress s segIdx offset = Some (s', Translated t) →
  ∃ rest,
    (lruList s').*2 = t_page t :: rest ∧
    (t_page t ∉ rest) ∧
    if t_fault t
    then match find_free (frameTable s) 0 with
         | None => ∃ v, (lruList s).*2 = rest ++ [v]
         | Some i => to_int i ≠ (-1)%Z → rest = (lruList s).*2
         end
    else ∃ l1 l2, (lruList s).*2 = l1 ++ t_page t :: l2 ∧ rest = l1 ++ l2.
Proof.
  intros Hfresh Hpol0 Hreach Hacc.
  destruct (fresh_reachable_tracker _ _ Hfresh Hreach) as [Htok _].
  destruct (reachable_config _ _ Hreach) as (_ & _ & _ & _ & Hpol & _).
  rewrite Hpol0 in Hpol.
  destruct (accessAddress_config _ _ _ _ _ Hacc) as (_ & _ & _ & _ & Hpol' & _).
  rewrite Hpol in Hpol'.
  destruct (accessAddress_step _ _ _ _ _ Htok Hacc)
    as ((Hnd' & _) & victim & Hstep & _ & _ & Hnone).
  unfold eviction_order in Hstep. rewrite Hpol, Hpol' in Hstep.
  unfold tracker in Hnd'. rewrite Hpol' in Hnd'.
  remember (reverse (lruList s).*2) as o eqn:Ho.
  remember (reverse (lruList s').*2) as o' eqn:Ho'.
  remember (t_fault t) as b eqn:Hb.
  symmetry in Ho, Ho'. apply reverse_eq_inv in Ho, Ho'.
  destruct Hstep as [o1 Hfifo | o1 o2 _ | o1 | v o1].
  - done.
  - exists (reverse o2 ++ reverse o1).
    rewrite Ho' in Hnd' |- *. rewrite Ho.
    rewrite !reverse_app, reverse_singleton, reverse_cons in *.
    simpl in *. split; [done|].
    split; [by apply NoDup_cons_1_1 in Hnd'|].
    exists (reverse o2), (reverse o1). by rewrite <- app_assoc.
  - exists (reverse o1).
    rewrite Ho' in Hnd' |- *. rewrite Ho.
    rewrite !reverse_app, reverse_singleton in *. simpl in *.
    split; [done|]. split; [by apply NoDup_cons_1_1 in Hnd'|].
    destruct (find_free (frameTable s) 0) as [i|] eqn:Hi; [done|].
    destruct (Hnone eq_refl) as [Hex _].
    by destruct (Hex eq_refl) as (i & [=] & _).
  - exists (reverse o1).
    rewrite Ho' in Hnd' |- *. rewrite Ho.
    rewrite !reverse_app, reverse_singleton, reverse_cons in *. simpl in *.
    split; [done|]. split; [by apply NoDup_cons_1_1 in Hnd'|].
    destruct (find_free (frameTable s) 0) as [i|] eqn:Hi; [|by exists v].
    intros Hni. destruct (Hnone eq_refl) as [_ Hex].
    assert (Some v = None) as Habs by (apply Hex; by exists i).
    done.
Qed.

Lemma lru_moves_to_front_witness :
  ∃ s log s' t,
    fresh (three_pages_two_frames LRU) ∧
    policy (three_pages_two_frames LRU) = LRU ∧
    run (three_pages_two_frames LRU) [] [(0, 0); (0, 1)] = Some (s, log) ∧
    accessAddress s 0 0 = Some (s', Translated t) ∧
    t_fault t = false ∧
    (lruList s).*2 = [1; 0] ∧ (lruList s').*2 = [0; 1] ∧
    ∃ rest, (lruList s').*2 = t_page t :: rest ∧ (t_page t ∉ rest).
Proof.
  eexists _, _, _, _. split; [apply three_pages_two_frames_fresh|].
  split; [reflexivity|].
  match goal with |- ?R ∧ _ => assert R as Hrun by (vm_compute; reflexivity) end.
  split; [exact Hrun|].
  match goal with |- ?R ∧ _ => assert R as Hacc by (vm_compute; reflexivity) end.
  split; [exact Hacc|].
  split; [reflexivity|]. split; [reflexivity|]. split; [reflexivity|].
  destruct (lru_moves_to_front (three_pages_two_frames LRU) _ _ _ _ _
              (three_pages_two_frames_fresh LRU) eq_refl
              (ex_intro _ _ (ex_intro _ _ Hrun)) Hacc)
    as (rest & Hfront & Hnotin & _).
  exists rest. split; [exact Hfront | exact Hnotin].
Defined.

(** ** What is shown of the segments *)

Lemma constructed_segments_lookup memSize pageSz segNames pol E (i : nat) :
  construct memSize pageSz segNames pol = Some E →
  memSize < 2 ^ 64 →
  segments E !! i =
  (λ nm, mkSegment nm (N.of_nat i * (memSize / N.of_nat (length segNames)))
                   (memSize / N.of_nat (length segNames))) <$> segNames !! i.
Proof.
  intros HE Hmem.
  destruct (segments E !! i) as [seg|] eqn:Hi.
  - destruct (constructed_segment _ _ _ _ _ _ _ HE Hmem Hi) as (-> & Hb & Hl & _).
    simpl. rewrite <- Hb, <- Hl. by destruct seg.
  - apply lookup_ge_None in Hi.
    destruct (construct_fields _ _ _ _ _ HE) as (_ & _ & _ & _ & _ & _ & _ & Hsegs & _).
    rewrite Hsegs, length_make_segments in Hi.
    by rewrite (proj2 (lookup_ge_None segNames i) Hi).
Qed.

(** X18.  Whatever requests have been made, [showSegments] on a constructed
    manager writes one line per name given to the constructor, in order,
    with base [i * segSize] and limit [segSize]; the accessors return the
    number of names, that size and those names for an index below the
    number of segments, and are undefined from there on. *)
Theorem segments_as_shown memSize pageSz segNames pol E s :
  construct memSize pageSz segNames pol = Some E →
  memSize < 2 ^ 64 →
  reachable E s →
  showSegments s =
    SegmentsTitle ::
    imap (λ i nm, SegmentLine (N.of_nat i) nm
                    (N.of_nat i * (memSize / N.of_nat (length segNames)))
                    (memSize / N.of_nat (length segNames))) segNames ∧
  getNumSegments s = N.of_nat (length segNames) ∧
  (∀ segIdx, segIdx < N.of_nat (length segNames) →
     getSegmentLimit s segIdx = Some (memSize / N.of_nat (length segNames)) ∧
     getSegmentName s segIdx = segNames !! N.to_nat segIdx) ∧
  (∀ segIdx, N.of_nat (length segNames) ≤ segIdx →
     getSegmentLimit s segIdx = None ∧ getSegmentName s segIdx = None).
Proof.
  intros HE Hmem Hreach.
  destruct (reachable_config _ _ Hreach) as (_ & _ & _ & Hsegs & _).
  pose proof (λ i, constructed_segments_lookup _ _ _ _ _ i HE Hmem) as Hlook.
  assert (length (segments E) = length segNames) as Hlen.
  { destruct (construct_fields _ _ _ _ _ HE) as (_ & _ & _ & _ & _ & _ & _ & -> & _).
    apply length_make_segments. }
  unfold showSegments, getNumSegments, getSegmentLimit, getSegmentName.
  rewrite Hsegs, Hlen.
  split; [|split; [done|split]].
  - f_equal. apply list_eq. intros i.
    rewrite !list_lookup_imap, Hlook. by destruct (segNames !! i).
  - intros a Ha.
    destruct (lookup_lt_is_Some_2 segNames (N.to_nat a)) as [nm Hnm]; [lia|].
    assert (vec_get (segments E) a
            = Some (mkSegment nm (a * (memSize / N.of_nat (length segNames)))
                              (memSize / N.of_nat (length segNames)))) as ->.
    { apply vec_get_Some. by rewrite Hlook, Hnm, N2Nat.id. }
    by rewrite Hnm.
  - intros a Ha.
    assert (vec_get (segments E) a = None) as ->; [|done].
    apply eq_None_not_Some. rewrite vec_get_is_Some. lia.
Qed.

Lemma segments_as_shown_witness :
  ∃ s log,
    construct 1024 256 ["code"; "data"]%string FIFO
      = Some (scenario_manager FIFO) ∧
    1024 < 2 ^ 64 ∧
    run (scenario_manager FIFO) [] [(1, 10); (0, 0)] = Some (s, log) ∧
    showSegments s = [SegmentsTitle; SegmentLine 0 "code" 0 512;
                      SegmentLine 1 "data" 512 512] ∧
    getSegmentLimit s 1 = Some 512 ∧ getSegmentName s 1 = Some "data"%string ∧
    getSegmentLimit s 2 = None.
Proof.
  eexists _, _. split; [reflexivity|]. split; [reflexivity|].
  match goal with |- ?R ∧ _ => assert R as Hrun by (vm_compute; reflexivity) end.
  split; [exact Hrun|].
  destruct (segments_as_shown 1024 256 ["code"; "data"]%string FIFO
              (scenario_manager FIFO) _ eq_refl eq_refl
              (ex_intro _ _ (ex_intro _ _ Hrun)))
    as (Hshow & _ & Hin & Hout).
  split; [exact Hshow|].
  destruct (Hin 1 eq_refl) as [Hl Hn]. destruct (Hout 2 ltac:(discriminate)) as [Hl2 _].
  split; [exact Hl|]. split; [exact Hn | exact Hl2].
Defined.

(** The text of the two tables after the first request of the scenario. *)
Example display_text :
  ∃ s, accessAddress (scenario_manager FIFO) 1 10
         = Some (s, Translated (mkTranslation true 2 522 10 0 10)) ∧
       text (showPageTable s) =
         (nl +:+ "Page Table (Page -> Frame):" +:+ nl
          +:+ "Page 0 -> Not in memory" +:+ nl
          +:+ "Page 1 -> Not in memory" +:+ nl
          +:+ "Page 2 -> Frame 0" +:+ nl
          +:+ "Page 3 -> Not in memory" +:+ nl)%string ∧
       text (showFrames s) =
         (nl +:+ "Frames (Frame -> Page):" +:+ nl
          +:+ "Frame 0 -> Page 2" +:+ nl
          +:+ "Frame 1 -> Empty" +:+ nl
          +:+ "Frame 2 -> Empty" +:+ nl
          +:+ "Frame 3 -> Empty" +:+ nl)%string.
Proof. eexists. split; [by vm_compute|]. by vm_compute. Qed.

(** ** Order of the trackers *)

(** X19.  After any run from a manager in which nothing is loaded, the FIFO
    queue lists the resident pages from front to back by increasing time of
    their last load, and the LRU list lists them from back to front by
    increasing time of their last access. *)
Theorem trackers_sorted_by_time s0 reqs s log :
  fresh s0 → run s0 [] reqs = Some (s, log) →
  match policy s with
  | FIFO =>
      StronglySorted (loaded_before log) (fifoQueue s) ∧
      ∀ q, resident s q → is_Some (last_load log q)
  | LRU =>
      StronglySorted (accessed_before log) (reverse (lruList s).*2) ∧
      ∀ q, resident s q → is_Some (last_access log q)
  end.
Proof.
  intros Hfresh Hrun.
  destruct (run_history_ok _ _ _ _ Hfresh Hrun)
    as [(_ & Hmem & _) [Hsorted Htimes]].
  rewrite Forall_forall in Htimes.
  unfold eviction_order, tracker, policy_time in *.
  destruct (policy s); (split; [exact Hsorted|]).
  - intros q Hq. by apply Htimes, Hmem.
  - intros q Hq. apply Htimes. rewrite elem_of_reverse. by apply Hmem.
Qed.

Lemma trackers_sorted_by_time_witness :
  ∃ s log,
    fresh (three_pages_two_frames LRU) ∧
    run (three_pages_two_frames LRU) [] [(0, 0); (0, 1); (0, 0)] = Some (s, log) ∧
    reverse (lruList s).*2 = [1; 0] ∧
    StronglySorted (accessed_before log) (reverse (lruList s).*2).
Proof.
  eexists _, _. split; [apply three_pages_two_frames_fresh|].
  match goal with |- ?R ∧ _ => assert R as Hrun by (vm_compute; reflexivity) end.
  split; [exact Hrun|]. split; [vm_compute; reflexivity|].
  exact (proj1 (trackers_sorted_by_time _ _ _ _
                  (three_pages_two_frames_fresh LRU) Hrun)).
Defined.
